(** * SealockDoc core-storage: a shallow embedding and its properties

    The Go sources modelled here are
    - [chunker/chunker.go]            (FixedSizeChunker, CDCChunker,
                                       ComputeFileMerkleHash),
    - [storage/local_block_store.go]  (LocalBlockStore),
    - [storage/cached_block_store.go] (cachedBlockStore),
    - [storage/redis_cache.go]        (RedisBlockCache),
    - [storage/mock_repositories.go]  (MockFileRepository, MockBlockRepository),
    - [storage/block_repository.go], [storage/file_repository.go]
                                      (the GORM backed repositories),
    - [service/file_service.go], [service/upload_service.go] (FileService),
    - [handler/upload_handler.go]     (CheckFileHandler, UploadChunkHandler,
                                       FinishUploadHandler).

    Go [int] is taken to be 64 bits wide; every addition and subtraction
    the sources perform on it is written with [wrap64].  A call ends in a
    value, in a Go [error], or in a run-time panic; loops that are not
    structural carry fuel and [OutOfFuel] marks its exhaustion. *)

From stdpp Require Import gmap strings list fin_maps pretty.
From Stdlib Require Import ZArith Lia.
From Stdlib Require Strings.Byte.

Local Open Scope Z_scope.

(** ** Go values *)

Abbreviation bytes := (list Byte.byte).

Definition len {A : Type} (l : list A) : Z := Z.of_nat (length l).

Definition max_int : Z := 9223372036854775807.
Definition min_int : Z := -9223372036854775808.

Definition is_int (z : Z) : Prop := min_int <= z <= max_int.

(** Two's complement wrap-around of a 64-bit signed integer. *)
Definition wrap64 (z : Z) : Z :=
  (z + 9223372036854775808) mod 18446744073709551616 - 9223372036854775808.

(** The slice expression [data[lo:hi]]; [None] is the run-time panic
    "slice bounds out of range". *)
Definition slice {A : Type} (data : list A) (lo hi : Z) : option (list A) :=
  if (0 <=? lo) && (lo <=? hi) && (hi <=? len data)
  then Some (take (Z.to_nat (hi - lo)) (drop (Z.to_nat lo) data))
  else None.

(** The outcome of a call. *)
Inductive result (A : Type) : Type :=
  | Ok (a : A)
  | Err (msg : string)
  | Panic
  | OutOfFuel.
Arguments Ok {A} a.
Arguments Err {A} msg.
Arguments Panic {A}.
Arguments OutOfFuel {A}.

Definition rmap {A B : Type} (f : A → B) (r : result A) : result B :=
  match r with
  | Ok a => Ok (f a)
  | Err e => Err e
  | Panic => Panic
  | OutOfFuel => OutOfFuel
  end.

#[export] Instance byte_eq_dec : EqDecision Byte.byte := Strings.Byte.byte_eq_dec.

(** [hex.EncodeToString(sha256.Sum256(b))]: the digest primitive comes from
    Go's standard library and is a parameter of the development. *)
Class Digest := sha256_hex : bytes → string.

(** A digest is collision free on a family of payloads. *)
Definition collision_free `{Digest} (bs : list bytes) : Prop :=
  Forall (λ b1, Forall (λ b2, sha256_hex b1 = sha256_hex b2 → b1 = b2) bs) bs.

(** ** chunker/chunker.go *)

Module FixedSizeChunker.

Record t := { blockSize : Z }.

Definition NewFixedSizeChunker (blockSize : Z) : t :=
  {| blockSize := if blockSize <=? 0 then 8192 else blockSize |}.

Definition ChunkSize (c : t) : Z := blockSize c.

(** The loop of [Chunk]; the chunks are collected, [Chunk] hashes them. *)
Fixpoint Chunk_loop (c : t) (data : bytes) (fuel : nat) (i : Z)
    (chunks : list bytes) : result (list bytes) :=
  if i <? len data then
    match fuel with
    | O => OutOfFuel
    | S fuel' =>
        let end_ := wrap64 (i + blockSize c) in
        let end_ := if end_ >? len data then len data else end_ in
        match slice data i end_ with
        | None => Panic
        | Some chunk =>
            Chunk_loop c data fuel' (wrap64 (i + blockSize c)) (chunks ++ [chunk])
        end
    end
  else Ok chunks.

Definition Chunk_blocks (c : t) (data : bytes) : result (list bytes) :=
  if len data =? 0 then Ok [] else Chunk_loop c data (length data) 0 [].

Definition Chunk `{Digest} (c : t) (data : bytes) : result (list string) :=
  rmap (map sha256_hex) (Chunk_blocks c data).

End FixedSizeChunker.

Module CDCChunker.

Record t := { minSize : Z; maxSize : Z; avgSize : Z; windowSize : Z }.

Definition NewCDCChunker (minSize avgSize maxSize : Z) : t :=
  let minSize := if minSize <=? 0 then 2048 else minSize in
  let avgSize := if avgSize <=? 0 then 8192 else avgSize in
  let maxSize := if maxSize <=? 0 then 65536 else maxSize in
  if (minSize >=? avgSize) || (avgSize >=? maxSize)
  then {| minSize := 2048; maxSize := 65536; avgSize := 8192; windowSize := 64 |}
  else {| minSize := minSize; maxSize := maxSize; avgSize := avgSize;
          windowSize := 64 |}.

(** [None] is the integer-divide-by-zero panic of [%]. *)
Definition isChunkBoundary (c : t) (data : bytes) (pos : Z) : option bool :=
  if (pos <? minSize c) || (pos >? len data) then Some false
  else if avgSize c =? 0 then None
  else Some (Z.rem (wrap64 (pos - minSize c)) (avgSize c) =? 0).

(** The inner scan of [Chunk]: [for chunkEnd < pos+maxSize && chunkEnd < len(data)]. *)
Fixpoint scan (c : t) (data : bytes) (fuel : nat) (pos chunkEnd : Z) : result Z :=
  if (chunkEnd <? wrap64 (pos + maxSize c)) && (chunkEnd <? len data) then
    match fuel with
    | O => OutOfFuel
    | S fuel' =>
        match isChunkBoundary c data chunkEnd with
        | None => Panic
        | Some true => Ok chunkEnd
        | Some false => scan c data fuel' pos (wrap64 (chunkEnd + 1))
        end
    end
  else Ok chunkEnd.

(** One iteration of the outer loop: the chunk cut at [pos] and the new [pos]. *)
Definition Chunk_iter (c : t) (data : bytes) (pos : Z) : result (bytes * Z) :=
  let chunkStart := pos in
  let chunkEnd := wrap64 (pos + minSize c) in
  match scan c data (Z.to_nat (len data - chunkEnd)) pos chunkEnd with
  | Ok chunkEnd =>
      let chunkEnd :=
        if chunkEnd >? wrap64 (pos + maxSize c) then wrap64 (pos + maxSize c)
        else chunkEnd in
      let chunkEnd := if chunkEnd >? len data then len data else chunkEnd in
      match slice data chunkStart chunkEnd with
      | Some chunk => Ok (chunk, chunkEnd)
      | None => Panic
      end
  | Err e => Err e
  | Panic => Panic
  | OutOfFuel => OutOfFuel
  end.

Fixpoint Chunk_loop (c : t) (data : bytes) (fuel : nat) (pos : Z)
    (chunks : list bytes) : result (list bytes) :=
  if pos <? len data then
    match fuel with
    | O => OutOfFuel
    | S fuel' =>
        match Chunk_iter c data pos with
        | Ok (chunk, chunkEnd) => Chunk_loop c data fuel' chunkEnd (chunks ++ [chunk])
        | Err e => Err e
        | Panic => Panic
        | OutOfFuel => OutOfFuel
        end
    end
  else Ok chunks.

Definition Chunk_blocks (c : t) (data : bytes) : result (list bytes) :=
  if len data =? 0 then Ok [] else Chunk_loop c data (length data) 0 [].

Definition Chunk `{Digest} (c : t) (data : bytes) : result (list string) :=
  rmap (map sha256_hex) (Chunk_blocks c data).

Definition ChunkSize (c : t) : Z := avgSize c.

End CDCChunker.

(** [ComputeFileMerkleHash]; [[]byte(combined)] is the string's bytes. *)
Definition ComputeFileMerkleHash `{Digest} (blockHashes : list string) : result string :=
  if len blockHashes =? 0 then Ok (sha256_hex [])
  else
    let combined := foldl (λ combined h, combined +:+ h) "" blockHashes in
    Ok (sha256_hex (String.list_byte_of_string combined)).

(** ** model/models.go

    Timestamps are left out.  [File.BlockIDs] is a [datatypes.JSON] value:
    it either holds the encoding of a string array (what [json.Marshal]
    writes for a [[]string] and [json.Unmarshal] reads back) or something
    [json.Unmarshal] rejects. *)

Module Block.
Record t := { ID : N; Hash : string; Size : Z; Data : bytes; RefCount : Z }.
Definition with_ID (b : t) (id : N) : t :=
  {| ID := id; Hash := Hash b; Size := Size b; Data := Data b; RefCount := RefCount b |}.
Definition with_Hash (b : t) (hash : string) : t :=
  {| ID := ID b; Hash := hash; Size := Size b; Data := Data b; RefCount := RefCount b |}.
Definition with_RefCount (b : t) (rc : Z) : t :=
  {| ID := ID b; Hash := Hash b; Size := Size b; Data := Data b; RefCount := rc |}.
End Block.

Inductive JSON : Type :=
  | JSONStrings (l : list string)
  | JSONInvalid.

Definition json_Marshal (l : list string) : JSON := JSONStrings l.

Definition json_Unmarshal (j : JSON) : result (list string) :=
  match j with
  | JSONStrings l => Ok l
  | JSONInvalid => Err "unexpected end of JSON input"
  end.

Module File.
Record t := { ID : N; UUID : string; Name : string; Size : Z; Hash : string;
              BlockIDs : JSON; LibraryID : N }.
Definition with_ID (f : t) (id : N) : t :=
  {| ID := id; UUID := UUID f; Name := Name f; Size := Size f; Hash := Hash f;
     BlockIDs := BlockIDs f; LibraryID := LibraryID f |}.
End File.

Module Node.
Record t := { ID : N; Name : string; Size : Z; Type_ : string;
              ContentHash : option string; BlockHashes : list string }.
End Node.

(** ** Stateful calls

    A method of a store or repository maps the receiver's state to an
    outcome and the state it leaves behind; nothing is rolled back when
    a call fails. *)

Definition M (St A : Type) : Type := St → result A * St.

Definition ret {St A : Type} (a : A) : M St A := λ st, (Ok a, st).

Definition bind {St A B : Type} (m : M St A) (k : A → M St B) : M St B :=
  λ st,
    match m st with
    | (Ok a, st') => k a st'
    | (Err e, st') => (Err e, st')
    | (Panic, st') => (Panic, st')
    | (OutOfFuel, st') => (OutOfFuel, st')
    end.

Declare Scope go_scope.
Delimit Scope go_scope with go.
Notation "'do' x <- m ; k" := (bind m (λ x, k))
  (at level 10, x name, m at level 100, k at level 200) : go_scope.

(** [fmt.Errorf(prefix + ": %w", err)] on the error path. *)
Definition wrapf {St A : Type} (prefix : string) (m : M St A) : M St A :=
  λ st,
    match m st with
    | (Err e, st') => (Err (prefix +:+ ": " +:+ e), st')
    | other => other
    end.

(** [if err := call; err != nil { log }]: the error is dropped. *)
Definition ignore_error {St : Type} (m : M St ()) : M St () :=
  λ st,
    match m st with
    | (Err _, st') => (Ok (), st')
    | other => other
    end.

(** ** storage/interfaces.go

    Of each interface the methods that the modelled callers use. *)

Module BlockStore.
Class t (S : Type) := {
  Put : bytes → M S string;
  Get : string → M S bytes;
  Exists : string → M S bool;
  Delete : string → M S ();
  GetSize : string → M S Z }.
End BlockStore.

Module FileRepository.
Class t (R : Type) := {
  (** [CreateFile] writes the primary key back into [*file]. *)
  CreateFile : File.t → M R File.t;
  (** [Ok None] is the pair [(nil, nil)]. *)
  GetFileByHash : string → M R (option File.t);
  DeleteFile : N → M R () }.
End FileRepository.

Module BlockRepository.
Class t (B : Type) := {
  SaveBlockMetadata : Block.t → M B ();
  GetBlockMetadata : string → M B (option Block.t);
  IncrementRefCount : string → Z → M B ();
  DecrementBlockRefCount : string → M B () }.
End BlockRepository.

(** ** storage/local_block_store.go *)

Module LocalBlockStore.

Record t := { blocks : gmap string bytes }.

Definition NewLocalBlockStore : t := {| blocks := ∅ |}.

Definition Put `{Digest} (data : bytes) : M t string :=
  λ s,
    if len data =? 0 then (Err "empty data", s)
    else
      let hashHex := sha256_hex data in
      (Ok hashHex, {| blocks := <[hashHex := data]> (blocks s) |}).

Definition Get (hash : string) : M t bytes :=
  λ s,
    match blocks s !! hash with
    | None => (Err ("block not found: " +:+ hash), s)
    | Some data => (Ok data, s)
    end.

Definition Exists (hash : string) : M t bool :=
  λ s, (Ok (bool_decide (is_Some (blocks s !! hash))), s).

Definition Delete (hash : string) : M t () :=
  λ s,
    match blocks s !! hash with
    | None => (Err ("block not found: " +:+ hash), s)
    | Some _ => (Ok (), {| blocks := delete hash (blocks s) |})
    end.

Definition GetSize (hash : string) : M t Z :=
  λ s,
    match blocks s !! hash with
    | None => (Err ("block not found: " +:+ hash), s)
    | Some data => (Ok (len data), s)
    end.

(** [Stats]: the pair of ["block_count"] and ["total_size"]; [range_blocks]
    is the order in which the map is ranged over. *)
Definition Stats (range_blocks : gmap string bytes → list (string * bytes)) (s : t) : Z * Z :=
  (Z.of_nat (size (blocks s)),
   foldl (λ totalSize kv, wrap64 (totalSize + len kv.2)) 0 (range_blocks (blocks s))).

#[global] Instance impl `{Digest} : BlockStore.t t :=
  {| BlockStore.Put := Put; BlockStore.Get := Get; BlockStore.Exists := Exists;
     BlockStore.Delete := Delete; BlockStore.GetSize := GetSize |}.

End LocalBlockStore.

(** ** storage/mock_repositories.go

    A Go map is ranged over in an unspecified order: [range_files] is the
    order in which [DeleteFile] meets the entries. *)

Module MockFileRepository.

Class MapRange := range_files : gmap string File.t → list (string * File.t).

Record t := { files : gmap string File.t }.

Definition NewMockFileRepository : t := {| files := ∅ |}.

Definition CreateFile (file : File.t) : M t File.t :=
  λ m, (Ok file, {| files := <[File.Hash file := file]> (files m) |}).

Definition GetFileByHash (hash : string) : M t (option File.t) :=
  λ m, (Ok (files m !! hash), m).

Definition DeleteFile `{MapRange} (fileID : N) : M t () :=
  λ m,
    match List.find (λ kv, bool_decide (File.ID kv.2 = fileID)) (range_files (files m)) with
    | Some (hash, _) => (Ok (), {| files := delete hash (files m) |})
    | None => (Ok (), m)
    end.

#[global] Instance impl `{MapRange} : FileRepository.t t :=
  {| FileRepository.CreateFile := CreateFile;
     FileRepository.GetFileByHash := GetFileByHash;
     FileRepository.DeleteFile := DeleteFile |}.

End MockFileRepository.

Module MockBlockRepository.

Record t := { blocks : gmap string Block.t }.

Definition NewMockBlockRepository : t := {| blocks := ∅ |}.

Definition SaveBlockMetadata (block : Block.t) : M t () :=
  λ m, (Ok (), {| blocks := <[Block.Hash block := block]> (blocks m) |}).

Definition GetBlockMetadata (hash : string) : M t (option Block.t) :=
  λ m, (Ok (blocks m !! hash), m).

Definition IncrementRefCount (hash : string) (delta : Z) : M t () :=
  λ m,
    match blocks m !! hash with
    | Some block =>
        (Ok (), {| blocks :=
           <[hash := Block.with_RefCount block (wrap64 (Block.RefCount block + delta))]>
             (blocks m) |})
    | None => (Ok (), m)
    end.

Definition DecrementBlockRefCount (hash : string) : M t () :=
  λ m,
    match blocks m !! hash with
    | Some block =>
        (Ok (), {| blocks :=
           <[hash := Block.with_RefCount block (wrap64 (Block.RefCount block - 1))]>
             (blocks m) |})
    | None => (Ok (), m)
    end.

(** [range_blocks] is the order in which the map of blocks is ranged over. *)
Definition ListOrphanBlocks (range_blocks : gmap string Block.t → list (string * Block.t))
    : M t (list string) :=
  λ m,
    (Ok (foldl (λ orphans kv,
                  if Block.RefCount kv.2 <=? 0 then orphans ++ [kv.1] else orphans)
               [] (range_blocks (blocks m))), m).

#[global] Instance impl : BlockRepository.t t :=
  {| BlockRepository.SaveBlockMetadata := SaveBlockMetadata;
     BlockRepository.GetBlockMetadata := GetBlockMetadata;
     BlockRepository.IncrementRefCount := IncrementRefCount;
     BlockRepository.DecrementBlockRefCount := DecrementBlockRefCount |}.

End MockBlockRepository.

(** ** The metadata database behind the GORM repositories

    [blocks] carries a unique index on [hash] and is kept as a finite map
    from the hash to its row; [files] is kept by primary key, [hash] is not
    unique there but [uuid] is.  [next_id] is the table's id sequence.  The
    database is taken to be reachable. *)

Definition ErrRecordNotFound : string := "record not found".

(** ** storage/block_repository.go *)

Module blockRepository.

Record t := { rows : gmap string Block.t; next_id : N }.

Definition pk_taken (id : N) (db : t) : bool :=
  existsb (λ kv, N.eqb (Block.ID kv.2) id) (map_to_list (rows db)).

(** [db.Create(block)] *)
Definition Create (block : Block.t) : M t () :=
  λ db,
    let id := if N.eqb (Block.ID block) 0 then next_id db else Block.ID block in
    if bool_decide (is_Some (rows db !! Block.Hash block)) then
      (Err "duplicate key value violates unique constraint idx_blocks_hash", db)
    else if pk_taken id db then
      (Err "duplicate key value violates unique constraint blocks_pkey", db)
    else
      (Ok (), {| rows := <[Block.Hash block := Block.with_ID block id]> (rows db);
                 next_id := if N.eqb (Block.ID block) 0 then N.succ (next_id db)
                            else next_id db |}).

(** [db.Where("hash = ?", hash).First(&block)]; the [hash] column of the
    row is the key it is kept under. *)
Definition First (hash : string) : M t Block.t :=
  λ db,
    match rows db !! hash with
    | Some block => (Ok (Block.with_Hash block hash), db)
    | None => (Err ErrRecordNotFound, db)
    end.

(** [db.Save(&block)] of a row that was read by its hash. *)
Definition Save (block : Block.t) : M t () :=
  λ db, (Ok (), {| rows := <[Block.Hash block := block]> (rows db); next_id := next_id db |}).

Definition SaveBlockMetadata (block : Block.t) : M t () :=
  wrapf "failed to save block metadata" (Create block).

Definition GetBlockMetadata (hash : string) : M t (option Block.t) :=
  λ db,
    match First hash db with
    | (Ok block, db') => (Ok (Some block), db')
    | (Err e, db') =>
        if String.eqb e ErrRecordNotFound then (Err ("block not found: " +:+ hash), db')
        else (Err ("failed to query block: " +:+ e), db')
    | (Panic, db') => (Panic, db')
    | (OutOfFuel, db') => (OutOfFuel, db')
    end.

Definition IncrementRefCount (hash : string) (delta : Z) : M t () :=
  (do block <- wrapf "failed to find block" (First hash);
   let block := Block.with_RefCount block (wrap64 (Block.RefCount block + delta)) in
   wrapf "failed to increment ref count" (Save block))%go.

Definition DecrementBlockRefCount (hash : string) : M t () :=
  (do block <- wrapf "failed to find block" (First hash);
   if Block.RefCount block >? 0 then
     let block := Block.with_RefCount block (wrap64 (Block.RefCount block - 1)) in
     wrapf "failed to decrement ref count" (Save block)
   else ret ())%go.

(** [db.Where("ref_count = 0").Find(&blocks)]; [scan_rows] is the order in
    which the database returns the rows of a table. *)
Definition Find_ref_count_0 (scan_rows : gmap string Block.t → list (string * Block.t))
    : M t (list Block.t) :=
  λ db,
    (Ok (map (λ kv, Block.with_Hash kv.2 kv.1)
             (filter (λ kv, Block.RefCount kv.2 = 0) (scan_rows (rows db)))), db).

Definition ListOrphanBlocks (scan_rows : gmap string Block.t → list (string * Block.t))
    : M t (list string) :=
  (do blocks <- wrapf "failed to list orphan blocks" (Find_ref_count_0 scan_rows);
   ret (map Block.Hash blocks))%go.

#[global] Instance impl : BlockRepository.t t :=
  {| BlockRepository.SaveBlockMetadata := SaveBlockMetadata;
     BlockRepository.GetBlockMetadata := GetBlockMetadata;
     BlockRepository.IncrementRefCount := IncrementRefCount;
     BlockRepository.DecrementBlockRefCount := DecrementBlockRefCount |}.

End blockRepository.

(** ** storage/file_repository.go *)

Module fileRepository.

Record t := { rows : gmap N File.t; next_id : N }.

Definition uuid_taken (uuid : string) (db : t) : bool :=
  existsb (λ kv, String.eqb (File.UUID kv.2) uuid) (map_to_list (rows db)).

(** [db.Create(file)] *)
Definition Create (file : File.t) : M t File.t :=
  λ db,
    let id := if N.eqb (File.ID file) 0 then next_id db else File.ID file in
    if uuid_taken (File.UUID file) db then
      (Err "duplicate key value violates unique constraint idx_files_uuid", db)
    else if bool_decide (is_Some (rows db !! id)) then
      (Err "duplicate key value violates unique constraint files_pkey", db)
    else
      (Ok (File.with_ID file id),
       {| rows := <[id := File.with_ID file id]> (rows db);
          next_id := if N.eqb (File.ID file) 0 then N.succ (next_id db) else next_id db |}).

(** The row of least primary key among those with the given hash. *)
Definition least_with_hash (hash : string) (rows : gmap N File.t) : option (N * File.t) :=
  foldr (λ kv acc,
           if String.eqb (File.Hash kv.2) hash then
             match acc with
             | Some best => if N.ltb kv.1 best.1 then Some kv else acc
             | None => Some kv
             end
           else acc)
        None (map_to_list rows).

(** [db.Where("hash = ?", hash).First(&file)] *)
Definition First (hash : string) : M t File.t :=
  λ db,
    match least_with_hash hash (rows db) with
    | Some (id, file) => (Ok (File.with_ID file id), db)
    | None => (Err ErrRecordNotFound, db)
    end.

Definition CreateFile (file : File.t) : M t File.t :=
  wrapf "failed to create file" (Create file).

Definition GetFileByHash (hash : string) : M t (option File.t) :=
  λ db,
    match First hash db with
    | (Ok file, db') => (Ok (Some file), db')
    | (Err e, db') =>
        if String.eqb e ErrRecordNotFound then (Err ("file not found: " +:+ hash), db')
        else (Err ("failed to query file: " +:+ e), db')
    | (Panic, db') => (Panic, db')
    | (OutOfFuel, db') => (OutOfFuel, db')
    end.

(** [db.Delete(&model.File{}, fileID)] *)
Definition DeleteFile (fileID : N) : M t () :=
  wrapf "failed to delete file"
    (λ db, (Ok (), {| rows := delete fileID (rows db); next_id := next_id db |})).

#[global] Instance impl : FileRepository.t t :=
  {| FileRepository.CreateFile := CreateFile;
     FileRepository.GetFileByHash := GetFileByHash;
     FileRepository.DeleteFile := DeleteFile |}.

End fileRepository.

(** ** The Redis server behind [*redis.Client]

    String keys hold cached blocks, hash keys hold upload sessions.  Expiry
    is left out: a key is present until it is deleted.  An unreachable
    server fails every command. *)

Module redis.

Record t := { reachable : bool;
              strings : gmap string bytes;
              hashes : gmap string (gmap string string) }.

Definition unreachable : string := "dial tcp: connect: connection refused".

(** The error [redis.Nil]. *)
Definition Nil : string := "redis: nil".

(** [EXISTS key]: the number of keys found. *)
Definition Exists (key : string) : M t Z :=
  λ r,
    if reachable r then
      (Ok (if bool_decide (is_Some (strings r !! key)) || bool_decide (is_Some (hashes r !! key))
           then 1 else 0), r)
    else (Err unreachable, r).

Definition HSet (key field value : string) : M t () :=
  λ r,
    if reachable r then
      (Ok (), {| reachable := reachable r; strings := strings r;
                 hashes := <[key := <[field := value]> (default ∅ (hashes r !! key))]> (hashes r) |})
    else (Err unreachable, r).

Definition Expire (key : string) : M t () :=
  λ r, if reachable r then (Ok (), r) else (Err unreachable, r).

(** [HGETALL key]: the empty map when the key is absent. *)
Definition HGetAll (key : string) : M t (gmap string string) :=
  λ r, if reachable r then (Ok (default ∅ (hashes r !! key)), r) else (Err unreachable, r).

(** The error of a string command on a key that holds a hash. *)
Definition WrongType : string :=
  "WRONGTYPE Operation against a key holding the wrong kind of value".

(** [GET key]: the error [Nil] when the key is absent. *)
Definition Get (key : string) : M t bytes :=
  λ r,
    if reachable r then
      match strings r !! key with
      | Some value => (Ok value, r)
      | None =>
          if bool_decide (is_Some (hashes r !! key)) then (Err WrongType, r)
          else (Err Nil, r)
      end
    else (Err unreachable, r).

(** [SET key value]: the key holds the string whatever it held before. *)
Definition Set_ (key : string) (value : bytes) : M t () :=
  λ r,
    if reachable r then
      (Ok (), {| reachable := reachable r; strings := <[key := value]> (strings r);
                 hashes := delete key (hashes r) |})
    else (Err unreachable, r).

(** [SETEX key seconds value], the number of seconds being positive. *)
Definition SetEx (key : string) (value : bytes) : M t () := Set_ key value.

(** [DEL key] *)
Definition Del (key : string) : M t () :=
  λ r,
    if reachable r then
      (Ok (), {| reachable := reachable r; strings := delete key (strings r);
                 hashes := delete key (hashes r) |})
    else (Err unreachable, r).

End redis.

(** ** storage/cached_block_store.go and storage/redis_cache.go

    Both wrap an inner block store. *)

Module cachedBlockStore.
Section cachedBlockStore.
Context {S : Type} {BS : BlockStore.t S}.

Record t := { local : S; redisClient : redis.t; cacheKeyPrefix : string }.

Definition on_local {A : Type} (m : M S A) : M t A :=
  λ c, let '(r, l) := m (local c) in
       (r, {| local := l; redisClient := redisClient c; cacheKeyPrefix := cacheKeyPrefix c |}).

Definition Exists (hash : string) : M t bool :=
  λ c,
    let cacheKey := cacheKeyPrefix c +:+ hash in
    match redis.Exists cacheKey (redisClient c) with
    | (Ok exists_, _) =>
        if exists_ >? 0 then (Ok true, c)
        else on_local (BlockStore.Exists hash) c
    | (Err e, _) => (Err e, c)
    | (Panic, _) => (Panic, c)
    | (OutOfFuel, _) => (OutOfFuel, c)
    end.

Definition on_redisClient {A : Type} (m : M redis.t A) : M t A :=
  λ c, let '(r, x) := m (redisClient c) in
       (r, {| local := local c; redisClient := x; cacheKeyPrefix := cacheKeyPrefix c |}).

(** [expiry] is taken to be positive, as the factory sets it. *)
Definition Put (data : bytes) : M t string :=
  λ c,
    (do hash <- on_local (BlockStore.Put data);
     let cacheKey := cacheKeyPrefix c +:+ hash in
     do _ <- ignore_error (on_redisClient (redis.SetEx cacheKey data));
     ret hash)%go c.

Definition Get (hash : string) : M t bytes :=
  λ c,
    let cacheKey := cacheKeyPrefix c +:+ hash in
    match on_redisClient (redis.Get cacheKey) c with
    | (Ok cachedData, c') => (Ok cachedData, c')
    | (Err _, c') =>
        (do data <- on_local (BlockStore.Get hash);
         do _ <- ignore_error (on_redisClient (redis.SetEx cacheKey data));
         ret data)%go c'
    | (Panic, c') => (Panic, c')
    | (OutOfFuel, c') => (OutOfFuel, c')
    end.

Definition Delete (hash : string) : M t () :=
  λ c,
    let cacheKey := cacheKeyPrefix c +:+ hash in
    (do _ <- ignore_error (on_redisClient (redis.Del cacheKey));
     on_local (BlockStore.Delete hash))%go c.

Definition GetSize (hash : string) : M t Z := on_local (BlockStore.GetSize hash).

#[global] Instance impl : BlockStore.t t :=
  {| BlockStore.Put := Put; BlockStore.Get := Get; BlockStore.Exists := Exists;
     BlockStore.Delete := Delete; BlockStore.GetSize := GetSize |}.

End cachedBlockStore.
Arguments t S : clear implicits.
End cachedBlockStore.

Module RedisBlockCache.
Section RedisBlockCache.
Context {S : Type} {BS : BlockStore.t S}.

Record t := { client : redis.t; blockStore : S; cacheKeyPrefix : string }.

Definition getCacheKey (c : t) (hash : string) : string := cacheKeyPrefix c +:+ hash.

Definition on_blockStore {A : Type} (m : M S A) : M t A :=
  λ c, let '(r, l) := m (blockStore c) in
       (r, {| client := client c; blockStore := l; cacheKeyPrefix := cacheKeyPrefix c |}).

Definition Exists (hash : string) : M t bool :=
  λ c,
    let cacheKey := getCacheKey c hash in
    match redis.Exists cacheKey (client c) with
    | (Ok exists_, _) =>
        if exists_ >? 0 then (Ok true, c)
        else on_blockStore (BlockStore.Exists hash) c
    | _ => on_blockStore (BlockStore.Exists hash) c
    end.

Definition on_client {A : Type} (m : M redis.t A) : M t A :=
  λ c, let '(r, x) := m (client c) in
       (r, {| client := x; blockStore := blockStore c; cacheKeyPrefix := cacheKeyPrefix c |}).

Definition Put (data : bytes) : M t string :=
  λ c,
    (do hash <- wrapf "failed to put block in underlying store"
                  (on_blockStore (BlockStore.Put data));
     let cacheKey := getCacheKey c hash in
     do _ <- ignore_error (on_client (redis.Set_ cacheKey data));
     ret hash)%go c.

Definition Get (hash : string) : M t bytes :=
  λ c,
    let cacheKey := getCacheKey c hash in
    match on_client (redis.Get cacheKey) c with
    | (Ok val, c') => (Ok val, c')
    | (Err _, c') =>
        (do data <- wrapf "block not found" (on_blockStore (BlockStore.Get hash));
         do _ <- ignore_error (on_client (redis.Set_ cacheKey data));
         ret data)%go c'
    | (Panic, c') => (Panic, c')
    | (OutOfFuel, c') => (OutOfFuel, c')
    end.

Definition Delete (hash : string) : M t () :=
  λ c,
    (do _ <- on_blockStore (BlockStore.Delete hash);
     let cacheKey := getCacheKey c hash in
     ignore_error (on_client (redis.Del cacheKey)))%go c.

Definition GetSize (hash : string) : M t Z := on_blockStore (BlockStore.GetSize hash).

Definition InvalidateCache (hash : string) : M t () :=
  λ c, wrapf "failed to invalidate cache" (on_client (redis.Del (getCacheKey c hash))) c.

#[global] Instance impl : BlockStore.t t :=
  {| BlockStore.Put := Put; BlockStore.Get := Get; BlockStore.Exists := Exists;
     BlockStore.Delete := Delete; BlockStore.GetSize := GetSize |}.

End RedisBlockCache.
Arguments t S : clear implicits.
End RedisBlockCache.

(** ** fmt: the two formats the service uses on chunk fields *)

(** [fmt.Sprintf("chunk:%d", i)] *)
Definition chunkField (i : Z) : string := "chunk:" +:+ pretty i.

Fixpoint strip_prefix (p s : string) : option string :=
  match p with
  | EmptyString => Some s
  | String a p' =>
      match s with
      | String b s' => if Ascii.eqb a b then strip_prefix p' s' else None
      | EmptyString => None
      end
  end.

Definition digit_of (a : Ascii.ascii) : option Z :=
  let n := Z.of_N (Ascii.N_of_ascii a) in
  if (48 <=? n) && (n <=? 57) then Some (n - 48) else None.

Fixpoint scan_digits (s : string) (acc : option Z) : option Z :=
  match s with
  | String a s' =>
      match digit_of a with
      | Some d => scan_digits s' (Some (10 * default 0 acc + d))
      | None => acc
      end
  | EmptyString => acc
  end.

Definition scan_int (s : string) : option Z :=
  match s with
  | String a s' =>
      if Ascii.eqb a (Ascii.ascii_of_nat 45) then Z.opp <$> scan_digits s' None
      else if Ascii.eqb a (Ascii.ascii_of_nat 43) then scan_digits s' None
      else scan_digits s None
  | EmptyString => None
  end.

(** The white space of [fmt]'s [isSpace] beyond ASCII, in UTF-8: U+0085 and
    U+00A0 take two bytes; U+1680, U+2000 to U+200A, U+2028, U+2029, U+202F,
    U+205F and U+3000 take three. *)
Definition space2 (a b : Z) : bool :=
  (a =? 194) && ((b =? 133) || (b =? 160)).

Definition space3 (a b c : Z) : bool :=
  ((a =? 225) && (b =? 154) && (c =? 128))
  || ((a =? 226) && (b =? 128)
      && (((128 <=? c) && (c <=? 138)) || (c =? 168) || (c =? 169) || (c =? 175)))
  || ((a =? 226) && (b =? 129) && (c =? 159))
  || ((a =? 227) && (b =? 128) && (c =? 128)).

(** [SkipSpace] of [fmt]'s scanner, as [Sscanf] runs it before a [%d]:
    white space is skipped, a newline is an error. *)
Fixpoint SkipSpace (s : string) : option string :=
  match s with
  | EmptyString => Some s
  | String a s1 =>
      let r := Z.of_N (Ascii.N_of_ascii a) in
      if r =? 10 then None
      else if ((9 <=? r) && (r <=? 13)) || (r =? 32) then SkipSpace s1
      else if r <? 128 then Some s
      else
        match s1 with
        | EmptyString => Some s
        | String b s2 =>
            let r1 := Z.of_N (Ascii.N_of_ascii b) in
            if space2 r r1 then SkipSpace s2
            else
              match s2 with
              | EmptyString => Some s
              | String c s3 =>
                  if space3 r r1 (Z.of_N (Ascii.N_of_ascii c)) then SkipSpace s3
                  else Some s
              end
        end
  end.

(** [fmt.Sscanf(field, "chunk:%d", &v)] with its error dropped: [v] keeps
    its value when the scan fails. *)
Definition Sscanf_chunk (field : string) (v : Z) : Z :=
  match strip_prefix "chunk:" field with
  | Some rest =>
      match SkipSpace rest with
      | Some rest =>
          match scan_int rest with
          | Some n => if (min_int <=? n) && (n <=? max_int) then n else v
          | None => v
          end
      | None => v
      end
  | None => v
  end.

(** ** service/file_service.go and service/upload_service.go

    The snapshot commit that [UploadFile] and [DeleteFile] start on a
    goroutine of its own is left out: it reads the file repository and
    writes the snapshot repository only. *)

Inductive Chunker : Type :=
  | FixedSize (c : FixedSizeChunker.t)
  | CDC (c : CDCChunker.t).

(** [fmt.Sprintf("hash_%d", len(data))] *)
Definition calculateFileHash (data : bytes) : string := "hash_" +:+ pretty (len data).

Module FileService.
Section FileService.
Context {S R B : Type} `{Digest}.
Context {BS : BlockStore.t S} {FR : FileRepository.t R} {BR : BlockRepository.t B}.

Record t := { blockStore : S;
              fileRepo : R;
              blockRepo : B;
              chunker : Chunker;
              redisClient : option redis.t }.

Definition on_blockStore {A : Type} (m : M S A) : M t A :=
  λ s, let '(r, x) := m (blockStore s) in
       (r, {| blockStore := x; fileRepo := fileRepo s; blockRepo := blockRepo s;
              chunker := chunker s; redisClient := redisClient s |}).

Definition on_fileRepo {A : Type} (m : M R A) : M t A :=
  λ s, let '(r, x) := m (fileRepo s) in
       (r, {| blockStore := blockStore s; fileRepo := x; blockRepo := blockRepo s;
              chunker := chunker s; redisClient := redisClient s |}).

Definition on_blockRepo {A : Type} (m : M B A) : M t A :=
  λ s, let '(r, x) := m (blockRepo s) in
       (r, {| blockStore := blockStore s; fileRepo := fileRepo s; blockRepo := x;
              chunker := chunker s; redisClient := redisClient s |}).

(** A method call through a nil [*redis.Client] panics. *)
Definition on_redisClient {A : Type} (m : M redis.t A) : M t A :=
  λ s,
    match redisClient s with
    | None => (Panic, s)
    | Some c =>
        let '(r, x) := m c in
        (r, {| blockStore := blockStore s; fileRepo := fileRepo s; blockRepo := blockRepo s;
               chunker := chunker s; redisClient := Some x |})
    end.

Definition panic {A : Type} : M t A := λ s, (Panic, s).

(** The loop of [UploadFile], run [len(chunks)] times. *)
Fixpoint UploadFile_loop (n : nat) (data : bytes) (blockSize currentPos : Z)
    (blockHashes : list string) : M t (list string) :=
  match n with
  | O => ret blockHashes
  | Datatypes.S n' =>
      let endPos := wrap64 (currentPos + blockSize) in
      let endPos := if endPos >? len data then len data else endPos in
      match slice data currentPos endPos with
      | None => panic
      | Some currentChunkData =>
          (do hash <- wrapf "failed to store block"
                        (on_blockStore (BlockStore.Put currentChunkData));
           let blockHashes := blockHashes ++ [hash] in
           do _ <- wrapf "failed to increment block ref count"
                     (on_blockRepo (BlockRepository.IncrementRefCount hash 1));
           UploadFile_loop n' data blockSize endPos blockHashes)%go
      end
  end.

Definition UploadFile (fileName : string) (data : bytes) : M t File.t :=
  λ s,
    if len data =? 0 then (Err "empty file", s)
    else
      match chunker s with
      | CDC _ => (Panic, s)
      | FixedSize c =>
          match FixedSizeChunker.Chunk c data with
          | Ok chunks =>
              (do blockHashes <-
                    UploadFile_loop (length chunks) data (FixedSizeChunker.ChunkSize c) 0 [];
               let file := {| File.ID := 0%N; File.UUID := ""; File.Name := fileName;
                              File.Size := len data; File.Hash := calculateFileHash data;
                              File.BlockIDs := json_Marshal blockHashes;
                              File.LibraryID := 0%N |} in
               wrapf "failed to create file record"
                 (on_fileRepo (FileRepository.CreateFile file)))%go s
          | Err e => (Err ("chunk failed: " +:+ e), s)
          | Panic => (Panic, s)
          | OutOfFuel => (OutOfFuel, s)
          end
      end.

Fixpoint DownloadFile_loop (blockHashes : list string) (fileData : bytes) : M t bytes :=
  match blockHashes with
  | [] => ret fileData
  | blockHash :: rest =>
      (do blockData <- wrapf ("failed to get block " +:+ blockHash)
                         (on_blockStore (BlockStore.Get blockHash));
       DownloadFile_loop rest (fileData ++ blockData))%go
  end.

Definition DownloadFile (fileHash : string) : M t bytes :=
  (do file <- wrapf "failed to get file" (on_fileRepo (FileRepository.GetFileByHash fileHash));
   match file with
   | None => panic
   | Some file =>
       do blockHashes <- wrapf "failed to unmarshal block IDs"
                           (λ s, (json_Unmarshal (File.BlockIDs file), s));
       DownloadFile_loop blockHashes []
   end)%go.

Fixpoint DeleteFile_loop (blockHashes : list string) : M t () :=
  match blockHashes with
  | [] => ret ()
  | blockHash :: rest =>
      (do _ <- ignore_error (on_blockRepo (BlockRepository.DecrementBlockRefCount blockHash));
       DeleteFile_loop rest)%go
  end.

Definition DeleteFile (fileHash : string) : M t () :=
  (do file <- wrapf "failed to get file" (on_fileRepo (FileRepository.GetFileByHash fileHash));
   match file with
   | None => panic
   | Some file =>
       do blockHashes <- wrapf "failed to unmarshal block IDs"
                           (λ s, (json_Unmarshal (File.BlockIDs file), s));
       do _ <- DeleteFile_loop blockHashes;
       wrapf "failed to delete file record"
         (on_fileRepo (FileRepository.DeleteFile (File.ID file)))
   end)%go.

(** upload_service.go *)

Definition GetFileNodeByContentHash (hash : string) : M t (option Node.t) :=
  ret None.

Definition RecordChunkReceived (uploadID : string) (chunkIndex totalChunks : Z) : M t () :=
  let key := "upload:" +:+ uploadID +:+ ":chunks" in
  let field := chunkField chunkIndex in
  (do _ <- on_redisClient (redis.HSet key field "received");
   on_redisClient (redis.Expire key))%go.

(** [range_fields] is the order in which the Go map of received fields is
    ranged over; the first field met gives [totalChunks]. *)
Definition GetMissingChunks (range_fields : gmap string string → list string)
    (uploadID : string) : M t (list Z) :=
  let key := "upload:" +:+ uploadID +:+ ":chunks" in
  λ s,
    match on_redisClient (redis.HGetAll key) s with
    | (Ok receivedChunks, s') =>
        if bool_decide (size receivedChunks = 0%nat) then (Ok [], s')
        else
          let totalChunks :=
            match range_fields receivedChunks with
            | field :: _ => Sscanf_chunk field 0
            | [] => 0
            end in
          (Ok (filter (λ i, receivedChunks !! chunkField i = None) (seqZ 0 totalChunks)), s')
    | (Err e, s') => if String.eqb e redis.Nil then (Ok [], s') else (Err e, s')
    | (Panic, s') => (Panic, s')
    | (OutOfFuel, s') => (OutOfFuel, s')
    end.

(** file_service.go, continued *)

(** The loop of [CheckIntegrity]: [if err != nil || !exists { return false, nil }]. *)
Fixpoint CheckIntegrity_loop (blockHashes : list string) : M t bool :=
  match blockHashes with
  | [] => ret true
  | blockHash :: rest =>
      λ s,
        match on_blockStore (BlockStore.Exists blockHash) s with
        | (Ok true, s') => CheckIntegrity_loop rest s'
        | (Ok false, s') => (Ok false, s')
        | (Err _, s') => (Ok false, s')
        | (Panic, s') => (Panic, s')
        | (OutOfFuel, s') => (OutOfFuel, s')
        end
  end.

Definition CheckIntegrity (fileHash : string) : M t bool :=
  (do file <- wrapf "file not found" (on_fileRepo (FileRepository.GetFileByHash fileHash));
   match file with
   | None => panic
   | Some file =>
       do blockHashes <- wrapf "failed to unmarshal block IDs"
                           (λ s, (json_Unmarshal (File.BlockIDs file), s));
       CheckIntegrity_loop blockHashes
   end)%go.

Definition GetFileByHash (hash : string) : M t (option File.t) :=
  wrapf "failed to get file by hash" (on_fileRepo (FileRepository.GetFileByHash hash)).

(** upload_service.go, continued *)

(** [fmt.Sprintf("%x", s.ComputeSHA256(data))] *)
Definition ComputeSHA256_hex (data : bytes) : string := sha256_hex data.

Definition StoreTemporaryChunk (uploadID : string) (chunkIndex : Z) (data : bytes) : M t () :=
  ret ().

Definition ReconstructFileHash (uploadID : string) (chunkHashes : list string) : M t string :=
  let concatenated := foldl (λ concatenated hash, concatenated +:+ hash) "" chunkHashes in
  ret (sha256_hex (String.list_byte_of_string concatenated)).

Definition CreateFileNode (fileName : string) (fileSize : Z) (fileHash : string)
    (chunkHashes : list string) : M t Node.t :=
  ret {| Node.ID := 0%N; Node.Name := fileName; Node.Size := fileSize;
         Node.Type_ := "file"; Node.ContentHash := Some fileHash;
         Node.BlockHashes := chunkHashes |}.

Definition CleanupUploadSession (uploadID : string) : M t () :=
  let key := "upload:" +:+ uploadID +:+ ":chunks" in
  on_redisClient (redis.Del key).

End FileService.
Arguments t S R B : clear implicits.

(** [DetectChanges] reads neither the service nor the stores.  The two maps
    hold no nil pointer; [range_files] is the order in which a map of files
    is ranged over. *)
Record FileChangeSet := { Added : list File.t; Modified : list File.t; Deleted : list N }.

Definition DetectChanges (range_files : gmap string File.t → list (string * File.t))
    (oldFileHashes newFileHashes : gmap string File.t) : FileChangeSet :=
  let added :=
    foldl (λ added kv,
             if bool_decide (is_Some (oldFileHashes !! kv.1)) then added
             else added ++ [kv.2])
          [] (range_files newFileHashes) in
  let deleted :=
    foldl (λ deleted kv,
             if negb (bool_decide (is_Some (newFileHashes !! kv.1)))
             then deleted ++ [File.ID kv.2] else deleted)
          [] (range_files oldFileHashes) in
  {| Added := added; Modified := []; Deleted := deleted |}.
End FileService.

(** ** handler/upload_handler.go *)

Inductive response : Type :=
  | StatusBadRequest (error : string)
  | StatusInternalServerError (error : string)
  (** [{"exists": true, "file": {id, name, size, hash}}] *)
  | StatusOK_exists (id : N) (name : string) (size : Z) (hash : option string)
  (** [{"exists": false, "uploadId": ..., "requiredChunks": []}] *)
  | StatusOK_upload (uploadId : string) (requiredChunks : list Z).

(** The body of [POST /upload/chunk] as [ShouldBindJSON] reads it. *)
Module UploadChunkRequest.
Record t := { UploadID : string; ChunkIndex : Z; TotalChunks : Z;
              ChunkHash : string; FileHash : string }.
End UploadChunkRequest.

(** The body of [POST /upload/finish]. *)
Module FinishUploadRequest.
Record t := { UploadID : string; FileName : string; FileSize : Z;
              FileHash : string; ChunkHashes : list string }.
End FinishUploadRequest.

Inductive chunk_response : Type :=
  | ChunkBadRequest (error : string)
  (** [400 {"error", "expected", "actual"}] *)
  | ChunkHashMismatch (expected actual : string)
  | ChunkInternalServerError (error : string)
  (** [200 {"chunkIndex": ..., "status": "uploaded"}] *)
  | ChunkUploaded (chunkIndex : Z).

Inductive finish_response : Type :=
  | FinishBadRequest (error : string)
  (** [400 {"error", "missing", "totalChunks"}] *)
  | FinishMissingChunks (missing : list Z) (totalChunks : Z)
  (** [400 {"error", "expected", "reconstructed"}] *)
  | FinishHashMismatch (expected reconstructed : string)
  | FinishInternalServerError (error : string)
  (** [200 {"file": {id, name, size, hash}}] *)
  | FinishOK (id : N) (name : string) (size : Z) (hash : option string).

(** [if err != nil { c.JSON(status, ...); return }] *)
Definition or_respond {St A Rsp : Type} (m : M St A) (on_err : string → Rsp)
    (k : A → M St Rsp) : M St Rsp :=
  λ st,
    match m st with
    | (Ok a, st') => k a st'
    | (Err e, st') => (Ok (on_err e), st')
    | (Panic, st') => (Panic, st')
    | (OutOfFuel, st') => (OutOfFuel, st')
    end.

Module UploadHandler.
Section UploadHandler.
Context {S R B : Type} `{Digest}.
Context {BS : BlockStore.t S} {FR : FileRepository.t R} {BR : BlockRepository.t B}.

(** [uuid_New] is the value of [uuid.New().String()]; the error texts stand
    for the handler's messages. *)
Definition CheckFileHandler (uuid_New : string) (fileHash : string)
    (service : FileService.t S R B) : response :=
  if String.eqb fileHash "" then StatusBadRequest "fileHash required"
  else
    match FileService.GetFileNodeByContentHash fileHash service with
    | (Ok (Some fileNode), _) =>
        StatusOK_exists (Node.ID fileNode) (Node.Name fileNode) (Node.Size fileNode)
                        (Node.ContentHash fileNode)
    | (Ok None, _) => StatusOK_upload uuid_New []
    | _ => StatusInternalServerError "check failed"
    end.


(** [req] is what [ShouldBindJSON] binds, [None] when it fails; [body] is
    what [io.ReadAll] then reads, [None] when it fails. *)
Definition UploadChunkHandler (req : option UploadChunkRequest.t) (body : option bytes)
    : M (FileService.t S R B) chunk_response :=
  match req with
  | None => ret (ChunkBadRequest "invalid request")
  | Some req =>
      if (UploadChunkRequest.ChunkIndex req <? 0)
         || (UploadChunkRequest.ChunkIndex req >=? UploadChunkRequest.TotalChunks req)
      then ret (ChunkBadRequest "invalid chunk index")
      else
        match body with
        | None => ret (ChunkBadRequest "cannot read chunk data")
        | Some chunkData =>
            let computedHash := FileService.ComputeSHA256_hex chunkData in
            if negb (String.eqb computedHash (UploadChunkRequest.ChunkHash req)) then
              ret (ChunkHashMismatch (UploadChunkRequest.ChunkHash req) computedHash)
            else
              or_respond
                (FileService.StoreTemporaryChunk (UploadChunkRequest.UploadID req)
                   (UploadChunkRequest.ChunkIndex req) chunkData)
                (λ _, ChunkInternalServerError "cannot store chunk")
                (λ _,
                   or_respond
                     (FileService.RecordChunkReceived (UploadChunkRequest.UploadID req)
                        (UploadChunkRequest.ChunkIndex req)
                        (UploadChunkRequest.TotalChunks req))
                     (λ _, ChunkInternalServerError "cannot record chunk")
                     (λ _, ret (ChunkUploaded (UploadChunkRequest.ChunkIndex req))))
        end
  end.

Definition FinishUploadHandler (range_fields : gmap string string → list string)
    (req : option FinishUploadRequest.t) : M (FileService.t S R B) finish_response :=
  match req with
  | None => ret (FinishBadRequest "invalid request")
  | Some req =>
      or_respond (FileService.GetMissingChunks range_fields (FinishUploadRequest.UploadID req))
        (λ _, FinishInternalServerError "cannot verify chunks")
        (λ missingChunks,
           if len missingChunks >? 0 then
             ret (FinishMissingChunks missingChunks (len (FinishUploadRequest.ChunkHashes req)))
           else
             or_respond
               (FileService.ReconstructFileHash (FinishUploadRequest.UploadID req)
                  (FinishUploadRequest.ChunkHashes req))
               (λ _, FinishInternalServerError "cannot verify file hash")
               (λ reconstructedHash,
                  if negb (String.eqb reconstructedHash (FinishUploadRequest.FileHash req)) then
                    ret (FinishHashMismatch (FinishUploadRequest.FileHash req) reconstructedHash)
                  else
                    or_respond
                      (FileService.CreateFileNode (FinishUploadRequest.FileName req)
                         (FinishUploadRequest.FileSize req) (FinishUploadRequest.FileHash req)
                         (FinishUploadRequest.ChunkHashes req))
                      (λ e, FinishInternalServerError ("cannot create file entry: " +:+ e))
                      (λ fileNode,
                         (do _ <- ignore_error
                                    (FileService.CleanupUploadSession
                                       (FinishUploadRequest.UploadID req));
                          ret (FinishOK (Node.ID fileNode) (Node.Name fileNode)
                                        (Node.Size fileNode) (Node.ContentHash fileNode)))%go)))
  end.

End UploadHandler.
End UploadHandler.

(** ** Notions used in the statements *)

(** [bs] cuts [data] from [pos] on: the blocks are not empty, none is
    longer than [hi], and every block but the last is at least [lo] long. *)
Definition cut_from (data : bytes) (pos lo hi : Z) (bs : list bytes) : Prop :=
  concat bs = drop (Z.to_nat pos) data ∧
  Forall (λ b : bytes, 0 < len b ∧ len b <= hi) bs ∧
  ∀ (i : nat) (b : bytes), bs !! i = Some b → (i + 1 < length bs)%nat → lo <= len b.

(** The in-memory stack of [test/main_test.go]. *)
Abbreviation MemService :=
  (FileService.t LocalBlockStore.t MockFileRepository.t MockBlockRepository.t).

(** The block store after [Put] of each block in turn. *)
Definition put_all `{Digest} (bl : list bytes) (m : gmap string bytes) : gmap string bytes :=
  foldl (λ m b, <[sha256_hex b := b]> m) m bl.

(** The mock block repository after [IncrementRefCount(h, 1)] of each hash in turn. *)
Definition incr_all (hs : list string) (m : MockBlockRepository.t) : MockBlockRepository.t :=
  foldl (λ m h, (MockBlockRepository.IncrementRefCount h 1 m).2) m hs.

(** The number of times [h] occurs in a block list. *)
Definition occurrences (h : string) (hs : list string) : Z :=
  len (filter (λ h', h' = h) hs).

(** A digest that spells out its payload.  It has no collisions and stands
    in for SHA-256 where a statement is evaluated on a concrete input. *)
Definition spelled_digest : Digest := String.string_of_list_byte.


(** The fields of a session for which the chunks [R] have been recorded. *)
Definition session_fields (R : list Z) : gmap string string :=
  foldl (λ m i, <[chunkField i := "received"]> m) ∅ R.

(** The service after [RecordChunkReceived] of each index of [R] in turn. *)
Definition recorded {S R B : Type} (uploadID : string) (totalChunks : Z) (R' : list Z)
    (s : FileService.t S R B) : FileService.t S R B :=
  foldl (λ s i, (FileService.RecordChunkReceived uploadID i totalChunks s).2) s R'.

(** A range order visits every field of the map once. *)
Definition valid_range (range_fields : gmap string string → list string) : Prop :=
  ∀ m, range_fields m ≡ₚ (map_to_list m).*1.

(** The range order of fields that follows [map_to_list]. *)
Definition listed_fields : gmap string string → list string := λ m, (map_to_list m).*1.

(** The range order that follows [map_to_list]. *)
Definition listed_range : MockFileRepository.MapRange := λ m, map_to_list m.

(** A Redis server that is up and holds nothing. *)
Definition empty_redis : redis.t :=
  {| redis.reachable := true; redis.strings := ∅; redis.hashes := ∅ |}.

(** The service that [test/main_test.go] sets up: empty stores, a chunker
    from [NewFixedSizeChunker] and a nil Redis client. *)
Definition test_service (blockSize : Z) : MemService :=
  {| FileService.blockStore := LocalBlockStore.NewLocalBlockStore;
     FileService.fileRepo := MockFileRepository.NewMockFileRepository;
     FileService.blockRepo := MockBlockRepository.NewMockBlockRepository;
     FileService.chunker := FixedSize (FixedSizeChunker.NewFixedSizeChunker blockSize);
     FileService.redisClient := None |}.

Section MemStack.
Context `{Digest} `{MockFileRepository.MapRange}.

(** The state after the upload loop has stored the blocks [bl]. *)
Definition after_upload (bl : list bytes) (s : MemService) : MemService :=
  {| FileService.blockStore :=
       {| LocalBlockStore.blocks :=
            put_all bl (LocalBlockStore.blocks (FileService.blockStore s)) |};
     FileService.fileRepo := FileService.fileRepo s;
     FileService.blockRepo := incr_all (map sha256_hex bl) (FileService.blockRepo s);
     FileService.chunker := FileService.chunker s;
     FileService.redisClient := FileService.redisClient s |}.

(** The file record [UploadFile] builds for the blocks [bl] of [data]. *)
Definition uploaded_file (fileName : string) (data : bytes) (bl : list bytes) : File.t :=
  {| File.ID := 0%N; File.UUID := ""; File.Name := fileName; File.Size := len data;
     File.Hash := calculateFileHash data;
     File.BlockIDs := JSONStrings (map sha256_hex bl); File.LibraryID := 0%N |}.

(** The state after the mock file repository has taken the record [F]. *)
Definition after_create (F : File.t) (s : MemService) : MemService :=
  {| FileService.blockStore := FileService.blockStore s;
     FileService.fileRepo :=
       {| MockFileRepository.files :=
            <[File.Hash F := F]> (MockFileRepository.files (FileService.fileRepo s)) |};
     FileService.blockRepo := FileService.blockRepo s;
     FileService.chunker := FileService.chunker s;
     FileService.redisClient := FileService.redisClient s |}.

(** The state after [n] calls of [UploadFile(fileName, X)] in a row. *)
Definition uploads (n : nat) (fileName : string) (X : bytes) (s : MemService) : MemService :=
  Nat.iter n (λ s, (FileService.UploadFile fileName X s).2) s.

End MemStack.

(** ** Sample inputs *)

(** The bytes of "abc". *)
Definition abc : bytes := [Byte.x61; Byte.x62; Byte.x63].

(** Seven bytes 0..6. *)
Definition seven : bytes :=
  [Byte.x00; Byte.x01; Byte.x02; Byte.x03; Byte.x04; Byte.x05; Byte.x06].

(** The metadata row that [model.NewBlock] makes for a payload: ref_count 0. *)
Definition NewBlock `{Digest} (data : bytes) : Block.t :=
  {| Block.ID := 0%N; Block.Hash := sha256_hex data; Block.Size := len data;
     Block.Data := data; Block.RefCount := 0 |}.

(** The in-memory service with the metadata row of one payload saved. *)
Definition test_service_with_row `{Digest} (blockSize : Z) (data : bytes) : MemService :=
  {| FileService.blockStore := LocalBlockStore.NewLocalBlockStore;
     FileService.fileRepo := MockFileRepository.NewMockFileRepository;
     FileService.blockRepo :=
       (MockBlockRepository.SaveBlockMetadata (NewBlock data)
          MockBlockRepository.NewMockBlockRepository).2;
     FileService.chunker := FixedSize (FixedSizeChunker.NewFixedSizeChunker blockSize);
     FileService.redisClient := None |}.

(** The in-memory service with a Redis server that is up. *)
Definition test_service_with_redis (blockSize : Z) : MemService :=
  {| FileService.blockStore := LocalBlockStore.NewLocalBlockStore;
     FileService.fileRepo := MockFileRepository.NewMockFileRepository;
     FileService.blockRepo := MockBlockRepository.NewMockBlockRepository;
     FileService.chunker := FixedSize (FixedSizeChunker.NewFixedSizeChunker blockSize);
     FileService.redisClient := Some empty_redis |}.

(** A block table that holds one row, for the digest of "abc", with ref_count 1. *)
Definition one_row_table `{Digest} : blockRepository.t :=
  {| blockRepository.rows :=
       {[ sha256_hex abc := Block.with_RefCount (Block.with_ID (NewBlock abc) 1%N) 1 ]};
     blockRepository.next_id := 2%N |}.

(** The file record of "abc" cut into blocks of two bytes, under primary key 1. *)
Definition abc_file `{Digest} : File.t :=
  File.with_ID (uploaded_file "a.txt" abc [[Byte.x61; Byte.x62]; [Byte.x63]]) 1%N.

(** A service on the GORM repositories that holds [abc_file] and a block
    row for each of its two blocks, with ref_counts 1 and 0. *)
Definition gorm_service `{Digest} :
    FileService.t LocalBlockStore.t fileRepository.t blockRepository.t :=
  {| FileService.blockStore :=
       {| LocalBlockStore.blocks := put_all [[Byte.x61; Byte.x62]; [Byte.x63]] ∅ |};
     FileService.fileRepo :=
       {| fileRepository.rows := {[ 1%N := abc_file ]}; fileRepository.next_id := 2%N |};
     FileService.blockRepo :=
       {| blockRepository.rows :=
            {[ sha256_hex [Byte.x61; Byte.x62] :=
                 Block.with_RefCount (Block.with_ID (NewBlock [Byte.x61; Byte.x62]) 1%N) 1;
               sha256_hex [Byte.x63] := Block.with_ID (NewBlock [Byte.x63]) 2%N ]};
          blockRepository.next_id := 3%N |};
     FileService.chunker := FixedSize (FixedSizeChunker.NewFixedSizeChunker 2);
     FileService.redisClient := None |}.

(** A cached block store whose Redis server is down while the inner store
    holds the block "abc". *)
Definition cache_down `{Digest} : cachedBlockStore.t LocalBlockStore.t :=
  {| cachedBlockStore.local := (LocalBlockStore.Put abc LocalBlockStore.NewLocalBlockStore).2;
     cachedBlockStore.redisClient :=
       {| redis.reachable := false; redis.strings := ∅; redis.hashes := ∅ |};
     cachedBlockStore.cacheKeyPrefix := "block:" |}.

(** ** Further notions used in the statements *)

(** A position at which the outer loop of [CDCChunker.Chunk] can stand: the
    start of the data or a position that [isChunkBoundary] accepts. *)
Definition CDC_aligned (c : CDCChunker.t) (pos : Z) : Prop :=
  pos = 0 ∨ (CDCChunker.minSize c <= pos ∧
             (pos - CDCChunker.minSize c) mod CDCChunker.avgSize c = 0).

(** The distance from such a position to the next one. *)
Definition CDC_stride (c : CDCChunker.t) (pos : Z) : Z :=
  if pos =? 0 then CDCChunker.minSize c else CDCChunker.avgSize c.

(** A range order visits every entry of the map once. *)
Definition valid_map_range {V : Type} (range : gmap string V → list (string * V)) : Prop :=
  ∀ m, range m ≡ₚ map_to_list m.

(** The order of [map_to_list], for any kind of entry. *)
Definition listed_entries {V : Type} : gmap string V → list (string * V) := map_to_list.

(** Every block the cache holds is the block that the inner store holds
    under the same digest. *)
Definition cache_coherent (c : RedisBlockCache.t LocalBlockStore.t) : Prop :=
  ∀ hash data,
    redis.strings (RedisBlockCache.client c) !! RedisBlockCache.getCacheKey c hash = Some data →
    LocalBlockStore.blocks (RedisBlockCache.blockStore c) !! hash = Some data.

(** The cache after the Redis server has become reachable again. *)
Definition cache_restored (c : RedisBlockCache.t LocalBlockStore.t)
    : RedisBlockCache.t LocalBlockStore.t :=
  {| RedisBlockCache.client :=
       {| redis.reachable := true;
          redis.strings := redis.strings (RedisBlockCache.client c);
          redis.hashes := redis.hashes (RedisBlockCache.client c) |};
     RedisBlockCache.blockStore := RedisBlockCache.blockStore c;
     RedisBlockCache.cacheKeyPrefix := RedisBlockCache.cacheKeyPrefix c |}.

(** ** Further sample inputs *)

(** The bytes of "xyz". *)
Definition xyz : bytes := [Byte.x78; Byte.x79; Byte.x7a].

(** A Redis cache that is up and empty, over an empty [LocalBlockStore]. *)
Definition empty_cache : RedisBlockCache.t LocalBlockStore.t :=
  {| RedisBlockCache.client := empty_redis;
     RedisBlockCache.blockStore := LocalBlockStore.NewLocalBlockStore;
     RedisBlockCache.cacheKeyPrefix := "block:" |}.

(** A cache that holds the block "abc", as the store behind it does, while
    its Redis server is down. *)
Definition cache_in_outage `{Digest} : RedisBlockCache.t LocalBlockStore.t :=
  {| RedisBlockCache.client :=
       {| redis.reachable := false;
          redis.strings := {[ "block:" +:+ sha256_hex abc := abc ]};
          redis.hashes := ∅ |};
     RedisBlockCache.blockStore :=
       (LocalBlockStore.Put abc LocalBlockStore.NewLocalBlockStore).2;
     RedisBlockCache.cacheKeyPrefix := "block:" |}.

(** A [cachedBlockStore] that is up and empty, over an empty [LocalBlockStore]. *)
Definition empty_cached_store : cachedBlockStore.t LocalBlockStore.t :=
  {| cachedBlockStore.local := LocalBlockStore.NewLocalBlockStore;
     cachedBlockStore.redisClient := empty_redis;
     cachedBlockStore.cacheKeyPrefix := "block:" |}.

(** A service that keeps the record and the two blocks of "abc" behind a
    [cachedBlockStore] whose Redis server is down. *)
Definition service_cache_down `{Digest} :
    FileService.t (cachedBlockStore.t LocalBlockStore.t)
                  MockFileRepository.t MockBlockRepository.t :=
  {| FileService.blockStore :=
       {| cachedBlockStore.local :=
            {| LocalBlockStore.blocks := put_all [[Byte.x61; Byte.x62]; [Byte.x63]] ∅ |};
          cachedBlockStore.redisClient :=
            {| redis.reachable := false; redis.strings := ∅; redis.hashes := ∅ |};
          cachedBlockStore.cacheKeyPrefix := "block:" |};
     FileService.fileRepo :=
       {| MockFileRepository.files :=
            {[ calculateFileHash abc :=
                 uploaded_file "a.txt" abc [[Byte.x61; Byte.x62]; [Byte.x63]] ]} |};
     FileService.blockRepo := MockBlockRepository.NewMockBlockRepository;
     FileService.chunker := FixedSize (FixedSizeChunker.NewFixedSizeChunker 2);
     FileService.redisClient := None |}.

(** A service on the GORM file repository, its table empty, with the mock
    block repository. *)
Definition gorm_files_service :
    FileService.t LocalBlockStore.t fileRepository.t MockBlockRepository.t :=
  {| FileService.blockStore := LocalBlockStore.NewLocalBlockStore;
     FileService.fileRepo := {| fileRepository.rows := ∅; fileRepository.next_id := 1%N |};
     FileService.blockRepo := MockBlockRepository.NewMockBlockRepository;
     FileService.chunker := FixedSize (FixedSizeChunker.NewFixedSizeChunker 2);
     FileService.redisClient := None |}.

(** A service on the GORM block repository, its table empty, with the mock
    file repository. *)
Definition gorm_blocks_service :
    FileService.t LocalBlockStore.t MockFileRepository.t blockRepository.t :=
  {| FileService.blockStore := LocalBlockStore.NewLocalBlockStore;
     FileService.fileRepo := MockFileRepository.NewMockFileRepository;
     FileService.blockRepo :=
       {| blockRepository.rows := ∅; blockRepository.next_id := 1%N |};
     FileService.chunker := FixedSize (FixedSizeChunker.NewFixedSizeChunker 2);
     FileService.redisClient := None |}.

(** The row of a file "xyz" cut into blocks of two bytes, written under
    primary key 1 with a UUID of its own. *)
Definition xyz_file `{Digest} : File.t :=
  {| File.ID := 1%N; File.UUID := "0b8e4a52"; File.Name := "b.txt"; File.Size := len xyz;
     File.Hash := calculateFileHash xyz;
     File.BlockIDs := JSONStrings (map sha256_hex [[Byte.x78; Byte.x79]; [Byte.x7a]]);
     File.LibraryID := 0%N |}.

(** A service on the GORM repositories whose file table holds [xyz_file].
    The block store holds the two blocks of "xyz", the block table a row
    for each block of "xyz" and of "abc". *)
Definition older_row_service `{Digest} :
    FileService.t LocalBlockStore.t fileRepository.t blockRepository.t :=
  {| FileService.blockStore :=
       {| LocalBlockStore.blocks := put_all [[Byte.x78; Byte.x79]; [Byte.x7a]] ∅ |};
     FileService.fileRepo :=
       {| fileRepository.rows := {[ 1%N := xyz_file ]}; fileRepository.next_id := 2%N |};
     FileService.blockRepo :=
       {| blockRepository.rows :=
            {[ sha256_hex [Byte.x78; Byte.x79] :=
                 Block.with_RefCount (Block.with_ID (NewBlock [Byte.x78; Byte.x79]) 1%N) 1;
               sha256_hex [Byte.x7a] :=
                 Block.with_RefCount (Block.with_ID (NewBlock [Byte.x7a]) 2%N) 1;
               sha256_hex [Byte.x61; Byte.x62] :=
                 Block.with_ID (NewBlock [Byte.x61; Byte.x62]) 3%N;
               sha256_hex [Byte.x63] := Block.with_ID (NewBlock [Byte.x63]) 4%N ]};
          blockRepository.next_id := 5%N |};
     FileService.chunker := FixedSize (FixedSizeChunker.NewFixedSizeChunker 2);
     FileService.redisClient := None |}.

(** The request that uploads "abc" as chunk 0 of 3 of the session "u1". *)
Definition chunk_0_of_3 `{Digest} : UploadChunkRequest.t :=
  {| UploadChunkRequest.UploadID := "u1"; UploadChunkRequest.ChunkIndex := 0;
     UploadChunkRequest.TotalChunks := 3; UploadChunkRequest.ChunkHash := sha256_hex abc;
     UploadChunkRequest.FileHash := "f" |}.

(** A request that finishes the session "u1" with three chunk hashes. *)
Definition finish_u1 `{Digest} : FinishUploadRequest.t :=
  {| FinishUploadRequest.UploadID := "u1"; FinishUploadRequest.FileName := "a.txt";
     FinishUploadRequest.FileSize := 9;
     FinishUploadRequest.FileHash := sha256_hex (String.list_byte_of_string "h0h1h2");
     FinishUploadRequest.ChunkHashes := ["h0"; "h1"; "h2"] |}.


(** * Properties *)

(** ** Arithmetic on [int] and slices *)

Lemma wrap64_id z : is_int z → wrap64 z = z.
Proof.
  unfold is_int, min_int, max_int, wrap64. intros Hz.
  rewrite Z.mod_small; lia.
Qed.

Lemma wrap64_is_int z : is_int (wrap64 z).
Proof.
  unfold is_int, min_int, max_int, wrap64.
  pose proof (Z.mod_pos_bound (z + 9223372036854775808) 18446744073709551616).
  lia.
Qed.

Lemma wrap64_overflow z :
  max_int < z → z <= max_int + max_int → wrap64 z = z - 18446744073709551616.
Proof.
  unfold max_int, wrap64. intros H1 H2.
  replace (z + 9223372036854775808)
    with ((z - 9223372036854775808) + 1 * 18446744073709551616) by lia.
  rewrite Z_mod_plus_full, Z.mod_small; lia.
Qed.

Lemma len_nonneg {A} (l : list A) : 0 <= len l.
Proof. unfold len. lia. Qed.

Lemma slice_Some {A} (data : list A) lo hi c :
  slice data lo hi = Some c →
  0 <= lo ∧ lo <= hi ∧ hi <= len data ∧
  c = take (Z.to_nat (hi - lo)) (drop (Z.to_nat lo) data) ∧ len c = hi - lo.
Proof.
  unfold slice. destruct (_ && _) eqn:E; [|done]. intros [= <-].
  apply andb_prop in E as [E E3]. apply andb_prop in E as [E1 E2].
  apply Z.leb_le in E1, E2, E3.
  repeat split; try done. unfold len in *.
  rewrite length_take, length_drop. lia.
Qed.

Lemma slice_is_Some {A} (data : list A) lo hi :
  0 <= lo → lo <= hi → hi <= len data → is_Some (slice data lo hi).
Proof.
  intros H1 H2 H3. unfold slice.
  apply Z.leb_le in H1, H2, H3. rewrite H1, H2, H3. simpl. eauto.
Qed.

Lemma slice_None_neg {A} (data : list A) lo hi : hi < lo → slice data lo hi = None.
Proof.
  intros. unfold slice. destruct (0 <=? lo); [|done].
  destruct (lo <=? hi) eqn:E; [apply Z.leb_le in E; lia|done].
Qed.

(** ** The content-defined chunker *)

Section CDC.
Variable c : CDCChunker.t.
Variable data : bytes.
Hypothesis Hmin : 0 < CDCChunker.minSize c.
Hypothesis Hlt : CDCChunker.minSize c < CDCChunker.maxSize c.
Hypothesis Hmax : CDCChunker.maxSize c <= max_int.
Hypothesis Havg : CDCChunker.avgSize c ≠ 0.
Hypothesis Hlen : len data <= max_int.

Lemma isChunkBoundary_total pos : is_Some (CDCChunker.isChunkBoundary c data pos).
Proof.
  unfold CDCChunker.isChunkBoundary.
  destruct (_ || _); [eauto|].
  destruct (CDCChunker.avgSize c =? 0) eqn:E; [apply Z.eqb_eq in E; done|eauto].
Qed.

Lemma scan_spec fuel pos ce :
  is_int ce → len data - ce <= Z.of_nat fuel →
  ∃ e, CDCChunker.scan c data fuel pos ce = Ok e ∧ ce <= e ∧
       (e = ce ∨ (e <= wrap64 (pos + CDCChunker.maxSize c) ∧ e <= len data)).
Proof.
  revert ce. induction fuel as [|fuel IH]; intros ce Hce Hfuel; simpl.
  - destruct (_ && _) eqn:E; [|eauto with lia].
    apply andb_prop in E as [_ E]. apply Z.ltb_lt in E. lia.
  - destruct (_ && _) eqn:E; [|eauto with lia].
    apply andb_prop in E as [E1 E2]. apply Z.ltb_lt in E1, E2.
    destruct (isChunkBoundary_total ce) as [[|] ->]; [eauto with lia|].
    assert (wrap64 (ce + 1) = ce + 1) as ->.
    { apply wrap64_id. unfold is_int in *. lia. }
    destruct (IH (ce + 1)) as (e & -> & He1 & He2).
    { unfold is_int in *. lia. }
    { lia. }
    exists e. split; [done|]. split; [lia|]. right. lia.
Qed.

(** One iteration either cuts a chunk and moves forward, or panics because
    [pos + maxSize] leaves the range of [int]. *)
Lemma Chunk_iter_spec pos :
  0 <= pos → pos < len data →
  (max_int < pos + CDCChunker.maxSize c ∧ CDCChunker.Chunk_iter c data pos = Panic) ∨
  (pos + CDCChunker.maxSize c <= max_int ∧
   ∃ chunk e, CDCChunker.Chunk_iter c data pos = Ok (chunk, e) ∧
     pos < e ∧ e <= len data ∧ slice data pos e = Some chunk ∧
     e - pos <= CDCChunker.maxSize c ∧ (CDCChunker.minSize c <= e - pos ∨ e = len data)).
Proof.
  intros Hpos Hposlt. unfold CDCChunker.Chunk_iter.
  pose proof (wrap64_is_int (pos + CDCChunker.minSize c)) as Hce.
  destruct (scan_spec (Z.to_nat (len data - wrap64 (pos + CDCChunker.minSize c))) pos
              (wrap64 (pos + CDCChunker.minSize c)) Hce) as (e & -> & He1 & He2); [lia|].
  destruct (Z_le_gt_dec (pos + CDCChunker.maxSize c) max_int) as [Hno|Hov].
  - right. split; [done|].
    rewrite (wrap64_id (pos + CDCChunker.maxSize c)) in * by (unfold is_int, min_int in *; lia).
    rewrite (wrap64_id (pos + CDCChunker.minSize c)) in * by (unfold is_int, min_int in *; lia).
    assert ((e >? pos + CDCChunker.maxSize c) = false) as ->.
    { rewrite Z.gtb_ltb. apply Z.ltb_ge. lia. }
    set (e2 := if e >? len data then len data else e).
    assert (pos < e2 ∧ e2 <= len data ∧ e2 - pos <= CDCChunker.maxSize c ∧
            (CDCChunker.minSize c <= e2 - pos ∨ e2 = len data)) as (H1 & H2 & H3 & H4).
    { unfold e2. destruct (e >? len data) eqn:E.
      - lia.
      - rewrite Z.gtb_ltb in E. apply Z.ltb_ge in E. lia. }
    destruct (slice_is_Some data pos e2) as [chunk Hs]; [lia..|].
    rewrite Hs. eauto 10.
  - left. split; [lia|].
    rewrite (wrap64_overflow (pos + CDCChunker.maxSize c)) in * by lia.
    set (limit := pos + CDCChunker.maxSize c - 18446744073709551616) in *.
    assert (limit < 0) by (unfold limit, max_int in *; lia).
    set (e1 := if e >? limit then limit else e).
    assert (e1 < 0) as He1neg.
    { unfold e1. destruct (e >? limit) eqn:E; [done|].
      rewrite Z.gtb_ltb in E. apply Z.ltb_ge in E. lia. }
    assert ((e1 >? len data) = false) as ->.
    { rewrite Z.gtb_ltb. apply Z.ltb_ge. pose proof (len_nonneg data). lia. }
    by rewrite slice_None_neg by lia.
Qed.

Lemma cut_from_end lo hi bs : cut_from data (len data) lo hi bs → bs = [].
Proof.
  intros (Hc & Hf & _). unfold len in Hc. rewrite Nat2Z.id, drop_all in Hc.
  destruct bs as [|b bs]; [done|]. apply Forall_cons in Hf as [[Hb _] _].
  simpl in Hc. apply app_eq_nil in Hc as [-> _]. unfold len in Hb. simpl in Hb. lia.
Qed.

Lemma Chunk_loop_spec fuel pos acc :
  0 <= pos → pos <= len data → len data - pos <= Z.of_nat fuel →
  match CDCChunker.Chunk_loop c data fuel pos acc with
  | Ok r => ∃ bs, r = acc ++ bs ∧
                  cut_from data pos (CDCChunker.minSize c) (CDCChunker.maxSize c) bs
  | Panic => max_int < len data + CDCChunker.maxSize c
  | Err _ | OutOfFuel => False
  end.
Proof.
  revert pos acc. induction fuel as [|fuel IH]; intros pos acc Hpos Hle Hfuel.
  - simpl. destruct (Z.ltb_spec pos (len data)); [lia|].
    assert (pos = len data) as -> by lia.
    exists []. split; [by rewrite app_nil_r|]. unfold cut_from, len.
    rewrite Nat2Z.id, drop_all. split_and!; [done|constructor|]. intros i b Hb. done.
  - simpl. destruct (Z.ltb_spec pos (len data)) as [Hlt'|Hge].
    + destruct (Chunk_iter_spec pos Hpos Hlt') as [[Hov ->]|[Hno (chunk & e & -> & H1 & H2 & Hs & H3 & H4)]];
        [lia|].
      specialize (IH e (acc ++ [chunk])). 
      destruct (CDCChunker.Chunk_loop c data fuel e (acc ++ [chunk])) as [r| | |];
        try (apply IH; lia).
      destruct IH as (bs & -> & Hcut); [lia..|].
      exists (chunk :: bs). split; [by rewrite <- app_assoc|].
      apply slice_Some in Hs as (_ & _ & _ & Hchunk & Hclen).
      destruct Hcut as (Hc & Hf & Hb). split_and!.
      * simpl. rewrite Hc, Hchunk.
        replace (Z.to_nat e) with (Z.to_nat pos + Z.to_nat (e - pos))%nat by lia.
        rewrite <- drop_drop. apply take_drop.
      * constructor; [lia|done].
      * intros [|i] b Hi Hlast; simpl in *.
        -- injection Hi as <-. destruct H4 as [H4| ->]; [lia|].
           assert (bs = []) as -> by (eapply cut_from_end; split_and!; eauto).
           simpl in Hlast. lia.
        -- apply (Hb i); [done|lia].
    + assert (pos = len data) as -> by lia.
      exists []. split; [by rewrite app_nil_r|]. unfold cut_from, len.
      rewrite Nat2Z.id, drop_all. split_and!; [done|constructor|]. intros i b Hb. done.
Qed.

Lemma Chunk_blocks_spec :
  match CDCChunker.Chunk_blocks c data with
  | Ok bs => cut_from data 0 (CDCChunker.minSize c) (CDCChunker.maxSize c) bs
  | Panic => max_int < len data + CDCChunker.maxSize c
  | Err _ | OutOfFuel => False
  end.
Proof.
  unfold CDCChunker.Chunk_blocks. destruct (Z.eqb_spec (len data) 0) as [H0|H0].
  - assert (data = []) as Hd by (apply nil_length_inv; unfold len in H0; lia).
    unfold cut_from. simpl. split_and!; [by rewrite Hd|constructor|].
    intros i b Hb. done.
  - pose proof (len_nonneg data).
    pose proof (Chunk_loop_spec (length data) 0 []) as Hl.
    destruct (CDCChunker.Chunk_loop c data (length data) 0 []); try (apply Hl; unfold len; lia).
    destruct Hl as (bs & -> & Hcut); [unfold len; lia..|]. done.
Qed.
End CDC.

Lemma NewCDCChunker_ordered (minSize avgSize maxSize : Z) :
  maxSize <= max_int →
  let c := CDCChunker.NewCDCChunker minSize avgSize maxSize in
  0 < CDCChunker.minSize c ∧ CDCChunker.minSize c < CDCChunker.avgSize c ∧
  CDCChunker.avgSize c < CDCChunker.maxSize c ∧ CDCChunker.maxSize c <= max_int.
Proof.
  intros Hm. unfold CDCChunker.NewCDCChunker.
  destruct (Z.leb_spec minSize 0), (Z.leb_spec avgSize 0), (Z.leb_spec maxSize 0);
    rewrite !Z.geb_leb;
    (match goal with
     | |- context [(?a <=? ?b) || (?c <=? ?d)] =>
         destruct (Z.leb_spec a b), (Z.leb_spec c d)
     end);
    simpl; unfold max_int in *; lia.
Qed.

(** C10. Every chunker from [NewCDCChunker] has [0 < minSize < avgSize <
    maxSize]; each iteration of [Chunk] that cuts a chunk moves [pos]
    strictly forward and stays within the data; and [Chunk] always ends,
    within [len(data)] iterations: it returns the hashes, or, when
    [len(data) + maxSize] leaves the range of [int], it stops in the
    slice-bounds panic of the iteration on which [pos + maxSize] wraps. *)
Theorem NewCDCChunker_Chunk_terminates `{Digest}
    (minSize avgSize maxSize : Z) (data : bytes) :
  maxSize <= max_int → len data <= max_int →
  let c := CDCChunker.NewCDCChunker minSize avgSize maxSize in
  (0 < CDCChunker.minSize c ∧ CDCChunker.minSize c < CDCChunker.avgSize c ∧
   CDCChunker.avgSize c < CDCChunker.maxSize c) ∧
  (∀ pos chunk chunkEnd, 0 <= pos → pos < len data →
     CDCChunker.Chunk_iter c data pos = Ok (chunk, chunkEnd) →
     pos < chunkEnd ∧ chunkEnd <= len data) ∧
  ((∃ hashes, CDCChunker.Chunk c data = Ok hashes) ∨
   (CDCChunker.Chunk c data = Panic ∧ max_int < len data + CDCChunker.maxSize c)) ∧
  (len data + CDCChunker.maxSize c <= max_int →
   ∃ blocks, CDCChunker.Chunk_blocks c data = Ok blocks ∧ concat blocks = data).
Proof.
  intros Hm Hlen c.
  destruct (NewCDCChunker_ordered minSize avgSize maxSize Hm) as (H1 & H2 & H3 & H4).
  fold c in H1, H2, H3, H4.
  assert (CDCChunker.minSize c < CDCChunker.maxSize c) as Hlt by lia.
  assert (CDCChunker.avgSize c ≠ 0) as Havg by lia.
  split_and!; try done.
  - intros pos chunk chunkEnd Hpos Hposlt Hit.
    destruct (Chunk_iter_spec c data H1 Hlt H4 Havg Hlen pos Hpos Hposlt)
      as [[_ Hp]|(_ & chunk' & e & He & ? & ? & _)]; [congruence|].
    rewrite He in Hit. injection Hit as <- <-. done.
  - pose proof (Chunk_blocks_spec c data H1 Hlt H4 Havg Hlen) as Hs.
    unfold CDCChunker.Chunk.
    destruct (CDCChunker.Chunk_blocks c data); simpl; try done; eauto.
  - intros Hno. pose proof (Chunk_blocks_spec c data H1 Hlt H4 Havg Hlen) as Hs.
    destruct (CDCChunker.Chunk_blocks c data) as [blocks| | |]; try done; [|lia].
    exists blocks. split; [done|]. by destruct Hs as (-> & _).
Qed.

(** The panic of C10 at work: with [maxSize] at the top of [int] the second
    iteration computes [pos + maxSize = 1 + max_int], which wraps below 0,
    and the slice [data[1:min_int]] panics. *)
Lemma CDC_Chunk_panics_on_overflow :
  CDCChunker.Chunk_blocks (CDCChunker.NewCDCChunker 1 2 max_int)
    [Byte.x00; Byte.x00; Byte.x00] = Panic.
Proof. by vm_compute. Qed.

(** C8 (amended). Every block that [CDCChunker.Chunk] emits is non-empty
    and at most [maxSize] long, and every block but the last one is at
    least [minSize] long. *)
Theorem CDC_block_lengths (minSize avgSize maxSize : Z) (data : bytes) (blocks : list bytes) :
  maxSize <= max_int → len data <= max_int →
  let c := CDCChunker.NewCDCChunker minSize avgSize maxSize in
  CDCChunker.Chunk_blocks c data = Ok blocks →
  ∀ (i : nat) (b : bytes), blocks !! i = Some b →
    0 < len b ∧ len b <= CDCChunker.maxSize c ∧
    ((i + 1 < length blocks)%nat → CDCChunker.minSize c <= len b).
Proof.
  intros Hm Hlen c Hbl i b Hi.
  destruct (NewCDCChunker_ordered minSize avgSize maxSize Hm) as (H1 & H2 & H3 & H4).
  fold c in H1, H2, H3, H4.
  assert (CDCChunker.minSize c < CDCChunker.maxSize c) as Hlt by lia.
  assert (CDCChunker.avgSize c ≠ 0) as Havg by lia.
  pose proof (Chunk_blocks_spec c data H1 Hlt H4 Havg Hlen) as Hs.
  rewrite Hbl in Hs. destruct Hs as (_ & Hf & Hlast).
  rewrite Forall_lookup in Hf. destruct (Hf i b Hi) as [? ?].
  split_and!; [done..|]. intros Hnl. by apply (Hlast i).
Qed.

(** C8, as stated, fails on the last block: the default chunker cuts a
    one-byte input into one block of length 1, below [minSize = 2048]. *)
Lemma CDC_last_block_below_min :
  CDCChunker.Chunk_blocks (CDCChunker.NewCDCChunker 2048 8192 65536) [Byte.x00]
    = Ok [[Byte.x00]] ∧
  ¬ (CDCChunker.minSize (CDCChunker.NewCDCChunker 2048 8192 65536) <= len [Byte.x00]).
Proof. split; [by vm_compute|]. vm_compute. intros Hle. by apply Hle. Qed.

(** ** The fixed-size chunker and the upload loop on the in-memory stack *)

Section Upload.
Context `{Digest} `{MockFileRepository.MapRange}.

Lemma after_upload_nil s : after_upload [] s = s.
Proof. by destruct s as [[] ? ? ? ?]. Qed.

Lemma UploadFile_loop_step (data chunk : bytes) (blockSize pos : Z) n hacc (s : MemService) :
  slice data pos (if wrap64 (pos + blockSize) >? len data then len data
                  else wrap64 (pos + blockSize)) = Some chunk →
  chunk ≠ [] →
  FileService.UploadFile_loop (S n) data blockSize pos hacc s =
  FileService.UploadFile_loop n data blockSize
    (if wrap64 (pos + blockSize) >? len data then len data else wrap64 (pos + blockSize))
    (hacc ++ [sha256_hex chunk]) (after_upload [chunk] s).
Proof.
  intros Hs Hne. simpl. rewrite Hs.
  unfold bind, wrapf, FileService.on_blockStore, FileService.on_blockRepo. simpl.
  unfold LocalBlockStore.Put.
  destruct (Z.eqb_spec (len chunk) 0) as [E|_].
  { destruct chunk; [done|]. unfold len in E. simpl in E. lia. }
  simpl. unfold MockBlockRepository.IncrementRefCount.
  unfold after_upload, incr_all, put_all. simpl.
  unfold MockBlockRepository.IncrementRefCount.
  by destruct (MockBlockRepository.blocks (FileService.blockRepo s) !! sha256_hex chunk).
Qed.

Lemma after_upload_app bl1 bl2 s :
  after_upload (bl1 ++ bl2) s = after_upload bl2 (after_upload bl1 s).
Proof.
  unfold after_upload, put_all, incr_all. simpl.
  by rewrite map_app, !foldl_app.
Qed.

(** The loop of [UploadFile] walks in step with the loop of [Chunk]: when
    the chunker returns, the upload loop stores exactly its blocks. *)
Lemma Chunk_loop_UploadFile_loop (c : FixedSizeChunker.t) (data : bytes) fuel i acc r :
  0 < FixedSizeChunker.blockSize c → FixedSizeChunker.blockSize c <= max_int →
  len data <= max_int → 0 <= i →
  FixedSizeChunker.Chunk_loop c data fuel i acc = Ok r →
  ∃ bl, r = acc ++ bl ∧ concat bl = drop (Z.to_nat i) data ∧ Forall (λ b, b ≠ []) bl ∧
    ∀ hacc (s : MemService),
      FileService.UploadFile_loop (length bl) data (FixedSizeChunker.blockSize c) i hacc s
      = (Ok (hacc ++ map sha256_hex bl), after_upload bl s).
Proof.
  intros Hbs Hbsmax Hlen. revert i acc.
  assert (∀ i acc r', len data <= i → Ok acc = Ok r' →
    ∃ bl : list bytes, r' = acc ++ bl ∧ concat bl = drop (Z.to_nat i) data ∧
      Forall (λ b, b ≠ []) bl ∧
      ∀ hacc (s : MemService),
        FileService.UploadFile_loop (length bl) data (FixedSizeChunker.blockSize c) i hacc s
        = (Ok (hacc ++ map sha256_hex bl), after_upload bl s)) as Hend.
  { intros i acc r' Hi [= <-]. exists []. rewrite !app_nil_r. split_and!; [done| |done|].
    - rewrite drop_ge; [done|]. unfold len in Hi. lia.
    - intros hacc s. simpl. by rewrite app_nil_r, after_upload_nil. }
  induction fuel as [|fuel IH]; intros i acc Hi; simpl.
  - destruct (Z.ltb_spec i (len data)); [done|]. by apply Hend.
  - destruct (Z.ltb_spec i (len data)) as [Hlt|Hge]; [|by apply Hend].
    set (e := if wrap64 (i + FixedSizeChunker.blockSize c) >? len data then len data
              else wrap64 (i + FixedSizeChunker.blockSize c)).
    destruct (slice data i e) as [chunk|] eqn:Hs; [|done].
    intros Hr. pose proof Hs as Hs'.
    apply slice_Some in Hs' as (_ & Hie & Hel & Hchunk & Hclen).
    assert (i + FixedSizeChunker.blockSize c <= max_int) as Hno.
    { destruct (Z_le_gt_dec (i + FixedSizeChunker.blockSize c) max_int); [done|].
      exfalso. unfold e in Hie. rewrite wrap64_overflow in Hie by lia.
      rewrite Z.gtb_ltb in Hie. pose proof (len_nonneg data).
      destruct (Z.ltb_spec (len data)
                  (i + FixedSizeChunker.blockSize c - 18446744073709551616));
        unfold max_int in *; lia. }
    subst e.
    assert (wrap64 (i + FixedSizeChunker.blockSize c) = i + FixedSizeChunker.blockSize c)
      as Hw by (apply wrap64_id; unfold is_int, min_int; lia).
    rewrite Hw in *.
    set (e := if i + FixedSizeChunker.blockSize c >? len data then len data
              else i + FixedSizeChunker.blockSize c) in *.
    assert (i < e) as Hie'.
    { unfold e. destruct (_ >? _); lia. }
    assert (chunk ≠ []) as Hne.
    { intros ->. unfold len in Hclen. simpl in Hclen. lia. }
    destruct (Z_lt_ge_dec (i + FixedSizeChunker.blockSize c) (len data)) as [Hin|Hout].
    + assert (e = i + FixedSizeChunker.blockSize c) as He.
      { unfold e. rewrite Z.gtb_ltb. destruct (Z.ltb_spec (len data) (i + FixedSizeChunker.blockSize c)); lia. }
      apply IH in Hr as (bl & -> & Hc & Hf & Hup); [|lia].
      exists (chunk :: bl). split_and!.
      * by rewrite <- app_assoc.
      * simpl. rewrite Hc, Hchunk, He.
        replace (Z.to_nat (i + FixedSizeChunker.blockSize c))
          with (Z.to_nat i + Z.to_nat (i + FixedSizeChunker.blockSize c - i))%nat by lia.
        rewrite <- drop_drop. apply take_drop.
      * by constructor.
      * intros hacc s. cbn [length].
        rewrite (UploadFile_loop_step data chunk) by (rewrite ?Hw; done).
        rewrite Hw. fold e. rewrite He, Hup. rewrite <- app_assoc. simpl.
        by rewrite (after_upload_app [chunk] bl).
    + assert (e = len data) as He.
      { unfold e. rewrite Z.gtb_ltb. destruct (Z.ltb_spec (len data) (i + FixedSizeChunker.blockSize c)); lia. }
      destruct fuel; simpl in Hr;
        (destruct (Z.ltb_spec (i + FixedSizeChunker.blockSize c) (len data)); [lia|]);
        injection Hr as <-.
      all: exists [chunk]; split_and!; [done| |by repeat constructor|].
      all: try (simpl; rewrite app_nil_r, Hchunk, He; apply take_ge;
                rewrite length_drop; unfold len; lia).
      all: intros hacc s; cbn [length];
        rewrite (UploadFile_loop_step data chunk) by (rewrite ?Hw; done); done.
Qed.

Lemma NewFixedSizeChunker_blockSize b :
  b <= max_int →
  0 < FixedSizeChunker.blockSize (FixedSizeChunker.NewFixedSizeChunker b) ∧
  FixedSizeChunker.blockSize (FixedSizeChunker.NewFixedSizeChunker b) <= max_int.
Proof.
  intros Hb. simpl. destruct (Z.leb_spec b 0); unfold max_int in *; lia.
Qed.

(** What a call of [UploadFile] does once the chunker has returned [bl]. *)
Lemma UploadFile_spec (c : FixedSizeChunker.t) fileName (data : bytes) bl (s : MemService) :
  0 < FixedSizeChunker.blockSize c → FixedSizeChunker.blockSize c <= max_int →
  len data <= max_int →
  FileService.chunker s = FixedSize c →
  data ≠ [] →
  FixedSizeChunker.Chunk_blocks c data = Ok bl →
  concat bl = data ∧ Forall (λ b, b ≠ []) bl ∧
  FileService.UploadFile fileName data s =
    (Ok (uploaded_file fileName data bl),
     after_create (uploaded_file fileName data bl) (after_upload bl s)).
Proof.
  intros Hbs Hbsmax Hlen Hc Hne Hbl.
  unfold FileService.UploadFile, FixedSizeChunker.Chunk. rewrite Hc, Hbl.
  unfold FixedSizeChunker.Chunk_blocks in Hbl.
  destruct (Z.eqb_spec (len data) 0) as [E|E].
  { destruct data; [done|]. unfold len in E. simpl in E. lia. }
  apply Chunk_loop_UploadFile_loop in Hbl as (bl' & Hbl' & Hcat & Hf & Hup); [|done..].
  simpl in Hbl'. subst bl'. split_and!; [done..|].
  simpl. unfold bind at 1. rewrite length_map.
  unfold FixedSizeChunker.ChunkSize. rewrite Hup. simpl.
  unfold wrapf, FileService.on_fileRepo. simpl. done.
Qed.

Lemma UploadFile_Ok_inv b fileName (data : bytes) (s s' : MemService) F :
  b <= max_int → len data <= max_int →
  FileService.chunker s = FixedSize (FixedSizeChunker.NewFixedSizeChunker b) →
  FileService.UploadFile fileName data s = (Ok F, s') →
  ∃ bl, FixedSizeChunker.Chunk_blocks (FixedSizeChunker.NewFixedSizeChunker b) data = Ok bl ∧
        concat bl = data ∧ Forall (λ b, b ≠ []) bl ∧
        F = uploaded_file fileName data bl ∧
        s' = after_create F (after_upload bl s).
Proof.
  intros Hb Hlen Hc Hup.
  destruct (NewFixedSizeChunker_blockSize b Hb) as [Hbs Hbsmax].
  assert (data ≠ []) as Hne.
  { intros ->. unfold FileService.UploadFile in Hup. simpl in Hup. done. }
  destruct (FixedSizeChunker.Chunk_blocks (FixedSizeChunker.NewFixedSizeChunker b) data)
    as [bl| | |] eqn:Hbl.
  - destruct (UploadFile_spec _ fileName data bl s Hbs Hbsmax Hlen Hc Hne Hbl)
      as (Hcat & Hf & Heq).
    rewrite Heq in Hup. injection Hup as <- <-. eauto 10.
  - exfalso. unfold FileService.UploadFile, FixedSizeChunker.Chunk in Hup.
    rewrite Hc, Hbl in Hup. simpl in Hup. by destruct (len data =? 0).
  - exfalso. unfold FileService.UploadFile, FixedSizeChunker.Chunk in Hup.
    rewrite Hc, Hbl in Hup. simpl in Hup. by destruct (len data =? 0).
  - exfalso. unfold FileService.UploadFile, FixedSizeChunker.Chunk in Hup.
    rewrite Hc, Hbl in Hup. simpl in Hup. by destruct (len data =? 0).
Qed.

Lemma put_all_snoc bl b (m : gmap string bytes) :
  put_all (bl ++ [b]) m = <[sha256_hex b := b]> (put_all bl m).
Proof. unfold put_all. by rewrite foldl_app. Qed.

Lemma put_all_lookup_ne bl (m : gmap string bytes) d :
  d ∉ map sha256_hex bl → put_all bl m !! d = m !! d.
Proof.
  induction bl as [|b bl IH] using rev_ind; [done|].
  rewrite map_app, put_all_snoc. simpl. intros Hd.
  apply not_elem_of_app in Hd as [Hd1 Hd2].
  rewrite lookup_insert_ne; [by apply IH|].
  intros Heq. apply Hd2. by apply list_elem_of_singleton.
Qed.

(** Under a digest without collisions among the blocks, each block is
    found under its digest once all of them have been put. *)
Lemma put_all_lookup bl (m : gmap string bytes) b :
  collision_free bl → b ∈ bl → put_all bl m !! sha256_hex b = Some b.
Proof.
  unfold collision_free. intros Hcf.
  assert (∀ b1 b2, b1 ∈ bl → b2 ∈ bl → sha256_hex b1 = sha256_hex b2 → b1 = b2) as Hinj.
  { intros b1 b2 H1 H2. rewrite Forall_forall in Hcf.
    specialize (Hcf b1 H1). rewrite Forall_forall in Hcf. by apply Hcf. }
  clear Hcf. revert Hinj.
  induction bl as [|x bl IH] using rev_ind; intros Hinj Hb; [by apply elem_of_nil in Hb|].
  rewrite put_all_snoc.
  destruct (decide (sha256_hex x = sha256_hex b)) as [E|E].
  - rewrite E, lookup_insert_eq. f_equal. apply Hinj; [|done|done].
    apply elem_of_app. right. by apply list_elem_of_singleton.
  - rewrite lookup_insert_ne by done. apply IH.
    + intros b1 b2 H1 H2. apply Hinj; apply elem_of_app; by left.
    + apply elem_of_app in Hb as [Hb|Hb]; [done|]. apply list_elem_of_singleton in Hb. by subst.
Qed.

Lemma DownloadFile_loop_spec (bl : list bytes) acc (s : MemService) :
  (∀ b, b ∈ bl →
     LocalBlockStore.blocks (FileService.blockStore s) !! sha256_hex b = Some b) →
  FileService.DownloadFile_loop (map sha256_hex bl) acc s = (Ok (acc ++ concat bl), s).
Proof.
  revert acc. induction bl as [|b bl IH]; intros acc Hall; simpl.
  - by rewrite app_nil_r.
  - unfold bind, wrapf, FileService.on_blockStore. simpl. unfold LocalBlockStore.Get.
    rewrite (Hall b) by (apply elem_of_cons; by left).
    destruct s as [[bs] fr br ch rc]. simpl in *.
    rewrite IH by (intros b' Hb'; apply Hall, elem_of_cons; by right).
    by rewrite <- app_assoc.
Qed.

(** X30. Round trip on the in-memory stack: when [UploadFile(name, X)]
    succeeds with the file record [F], [DownloadFile(F.Hash)] run on the
    state the upload left returns exactly [X], provided the digest has no
    collision among the blocks of [X]. *)
Theorem UploadFile_DownloadFile_roundtrip
    (blockSize : Z) (fileName : string) (X : bytes) (s s' : MemService) (F : File.t) :
  blockSize <= max_int → len X <= max_int →
  FileService.chunker s = FixedSize (FixedSizeChunker.NewFixedSizeChunker blockSize) →
  (∀ bl, FixedSizeChunker.Chunk_blocks (FixedSizeChunker.NewFixedSizeChunker blockSize) X
         = Ok bl → collision_free bl) →
  X ≠ [] →
  FileService.UploadFile fileName X s = (Ok F, s') →
  FileService.DownloadFile (File.Hash F) s' = (Ok X, s').
Proof.
  intros Hb Hlen Hc Hcf _ Hup.
  apply (UploadFile_Ok_inv blockSize) in Hup as (bl & Hbl & Hcat & Hne & HF & ->); [|done..].
  specialize (Hcf bl Hbl).
  unfold FileService.DownloadFile, bind, wrapf, FileService.on_fileRepo. simpl.
  rewrite lookup_insert_eq. rewrite HF at 1. simpl.
  rewrite DownloadFile_loop_spec.
  - by rewrite Hcat.
  - intros b Hbin. simpl. by apply put_all_lookup.
Qed.

(** The fixed-size chunker returns on every input shorter than 2^62 bytes. *)
Lemma Fixed_Chunk_loop_total (c : FixedSizeChunker.t) (data : bytes) fuel i acc :
  0 < FixedSizeChunker.blockSize c → FixedSizeChunker.blockSize c <= max_int →
  2 * len data <= max_int →
  0 <= i → (i = 0 ∨ FixedSizeChunker.blockSize c <= i) →
  len data - i <= Z.of_nat fuel →
  ∃ r, FixedSizeChunker.Chunk_loop c data fuel i acc = Ok r.
Proof.
  intros Hbs Hbsmax Hlen. revert i acc.
  induction fuel as [|fuel IH]; intros i acc Hi Hinv Hfuel; simpl.
  - destruct (Z.ltb_spec i (len data)); [lia|eauto].
  - destruct (Z.ltb_spec i (len data)) as [Hlt|]; [|eauto].
    assert (wrap64 (i + FixedSizeChunker.blockSize c) = i + FixedSizeChunker.blockSize c)
      as -> by (apply wrap64_id; unfold is_int, min_int; lia).
    set (e := if _ >? _ then _ else _).
    assert (i <= e ∧ e <= len data) as [He1 He2].
    { unfold e. rewrite Z.gtb_ltb.
      destruct (Z.ltb_spec (len data) (i + FixedSizeChunker.blockSize c)); lia. }
    destruct (slice_is_Some data i e) as [chunk ->]; [lia..|].
    apply IH; lia.
Qed.

(** The fixed-size chunker always ends within [len(data)] iterations, in a
    return or in a slice-bounds panic. *)
Lemma Fixed_Chunk_loop_ends (c : FixedSizeChunker.t) (data : bytes) fuel i acc :
  0 < FixedSizeChunker.blockSize c → FixedSizeChunker.blockSize c <= max_int →
  len data <= max_int → 0 <= i → len data - i <= Z.of_nat fuel →
  match FixedSizeChunker.Chunk_loop c data fuel i acc with
  | Ok _ | Panic => True
  | Err _ | OutOfFuel => False
  end.
Proof.
  intros Hbs Hbsmax Hlen. revert i acc.
  induction fuel as [|fuel IH]; intros i acc Hi Hfuel; simpl.
  - destruct (Z.ltb_spec i (len data)); [lia|done].
  - destruct (Z.ltb_spec i (len data)) as [Hlt|]; [|done].
    destruct (slice data i _) as [chunk|] eqn:Hs; [|done].
    apply slice_Some in Hs as (_ & Hie & _ & _ & _).
    destruct (Z_le_gt_dec (i + FixedSizeChunker.blockSize c) max_int) as [Hno|Hov].
    + rewrite (wrap64_id (i + FixedSizeChunker.blockSize c))
        by (unfold is_int, min_int; lia).
      apply IH; lia.
    + exfalso. rewrite wrap64_overflow in Hie by lia.
      rewrite Z.gtb_ltb in Hie. pose proof (len_nonneg data).
      destruct (Z.ltb_spec (len data)
                  (i + FixedSizeChunker.blockSize c - 18446744073709551616));
        unfold max_int in *; lia.
Qed.

Lemma Fixed_Chunk_blocks_total (c : FixedSizeChunker.t) (data : bytes) :
  0 < FixedSizeChunker.blockSize c → FixedSizeChunker.blockSize c <= max_int →
  2 * len data <= max_int →
  ∃ bl, FixedSizeChunker.Chunk_blocks c data = Ok bl.
Proof.
  intros. unfold FixedSizeChunker.Chunk_blocks. destruct (len data =? 0); [eauto|].
  apply Fixed_Chunk_loop_total; try done; [lia|unfold len; lia].
Qed.

Lemma put_all_lookup_elem bl (m : gmap string bytes) b :
  b ∈ bl → ∃ b', b' ∈ bl ∧ sha256_hex b' = sha256_hex b ∧
                 put_all bl m !! sha256_hex b = Some b'.
Proof.
  induction bl as [|x bl IH] using rev_ind; intros Hb; [by apply elem_of_nil in Hb|].
  rewrite put_all_snoc.
  destruct (decide (sha256_hex x = sha256_hex b)) as [E|E].
  - exists x. rewrite E, lookup_insert_eq. split_and!; [|done..].
    apply elem_of_app. right. by apply list_elem_of_singleton.
  - rewrite lookup_insert_ne by done.
    apply elem_of_app in Hb as [Hb|Hb].
    + destruct (IH Hb) as (b' & H1 & H2 & H3). exists b'. split_and!; [|done..].
      apply elem_of_app. by left.
    + apply list_elem_of_singleton in Hb. by subst.
Qed.

Lemma dom_put_all bl (m : gmap string bytes) :
  dom (put_all bl m) = dom m ∪ list_to_set (map sha256_hex bl).
Proof.
  induction bl as [|x bl IH] using rev_ind.
  - simpl. by rewrite union_empty_r_L.
  - rewrite put_all_snoc, dom_insert_L, IH, map_app, list_to_set_app_L. simpl.
    rewrite union_empty_r_L, (union_comm_L {[sha256_hex x]}). by rewrite union_assoc_L.
Qed.

Lemma wrap64_add_l a b : wrap64 (wrap64 a + b) = wrap64 (a + b).
Proof.
  unfold wrap64.
  replace ((a + 9223372036854775808) mod 18446744073709551616 - 9223372036854775808 + b
           + 9223372036854775808)
    with ((a + 9223372036854775808) mod 18446744073709551616 + b) by lia.
  rewrite Zplus_mod_idemp_l. f_equal. f_equal. lia.
Qed.

Lemma with_RefCount_id blk : Block.with_RefCount blk (Block.RefCount blk) = blk.
Proof. by destruct blk. Qed.

Lemma occurrences_cons h d hs :
  occurrences d (h :: hs) = (if decide (h = d) then 1 else 0) + occurrences d hs.
Proof.
  unfold occurrences, len. rewrite filter_cons.
  destruct (decide (h = d)); simpl; lia.
Qed.


(** The mock repository after a run of increments: a row that exists has
    gained one count per occurrence of its hash, a row that does not exist
    is not created. *)
Lemma incr_all_lookup hs (m : MockBlockRepository.t) d :
  (∀ blk, MockBlockRepository.blocks m !! d = Some blk → is_int (Block.RefCount blk)) →
  MockBlockRepository.blocks (incr_all hs m) !! d =
  (λ blk, Block.with_RefCount blk (wrap64 (Block.RefCount blk + occurrences d hs)))
    <$> (MockBlockRepository.blocks m !! d).
Proof.
  revert m. induction hs as [|h hs IH]; intros m Hint.
  - simpl. destruct (MockBlockRepository.blocks m !! d) as [blk|] eqn:E; [|done].
    simpl. unfold occurrences. simpl. rewrite Z.add_0_r, wrap64_id by by apply Hint.
    by rewrite with_RefCount_id.
  - unfold incr_all in *. simpl. rewrite IH; clear IH.
    + unfold MockBlockRepository.IncrementRefCount. rewrite occurrences_cons.
      destruct (MockBlockRepository.blocks m !! h) as [blk|] eqn:Eh; simpl.
      * destruct (decide (h = d)) as [->|Hne].
        -- rewrite lookup_insert_eq, Eh. simpl. rewrite wrap64_add_l. do 3 f_equal. lia.
        -- rewrite lookup_insert_ne by done. by destruct (_ !! d).
      * destruct (decide (h = d)) as [->|Hne]; [by rewrite Eh|]. by destruct (_ !! d).
    + intros blk. unfold MockBlockRepository.IncrementRefCount.
      destruct (MockBlockRepository.blocks m !! h) as [blk'|] eqn:Eh; simpl; [|by apply Hint].
      destruct (decide (h = d)) as [->|Hne].
      * rewrite lookup_insert_eq. intros [= <-]. simpl. apply wrap64_is_int.
      * rewrite lookup_insert_ne by done. apply Hint.
Qed.

Lemma uploads_state (c : FixedSizeChunker.t) fileName (X : bytes) bl (s : MemService) n :
  0 < FixedSizeChunker.blockSize c → FixedSizeChunker.blockSize c <= max_int →
  len X <= max_int → X ≠ [] →
  FileService.chunker s = FixedSize c →
  FixedSizeChunker.Chunk_blocks c X = Ok bl →
  FileService.chunker (uploads n fileName X s) = FixedSize c ∧
  LocalBlockStore.blocks (FileService.blockStore (uploads n fileName X s)) =
    Nat.iter n (put_all bl) (LocalBlockStore.blocks (FileService.blockStore s)) ∧
  FileService.blockRepo (uploads n fileName X s) =
    Nat.iter n (incr_all (map sha256_hex bl)) (FileService.blockRepo s).
Proof.
  intros Hbs Hbsmax Hlen Hne Hc Hbl. induction n as [|n (IH1 & IH2 & IH3)]; [done|].
  unfold uploads in *. simpl.
  destruct (UploadFile_spec c fileName X bl _ Hbs Hbsmax Hlen IH1 Hne Hbl) as (_ & _ & ->).
  simpl. by rewrite IH2, IH3.
Qed.

Lemma iter_incr_all_lookup hs (m : MockBlockRepository.t) d blk n :
  MockBlockRepository.blocks m !! d = Some blk → is_int (Block.RefCount blk) →
  MockBlockRepository.blocks (Nat.iter n (incr_all hs) m) !! d =
  Some (Block.with_RefCount blk
          (wrap64 (Block.RefCount blk + Z.of_nat n * occurrences d hs))).
Proof.
  intros Hd Hint. induction n as [|n IH].
  - simpl. by rewrite Z.add_0_r, wrap64_id, with_RefCount_id.
  - simpl. rewrite incr_all_lookup.
    + rewrite IH. simpl. rewrite wrap64_add_l. do 3 f_equal. lia.
    + intros blk'. rewrite IH. intros [= <-]. simpl. apply wrap64_is_int.
Qed.

Lemma dom_iter_put_all bl (m : gmap string bytes) n :
  dom (Nat.iter n (put_all bl) m) =
  dom m ∪ (match n with O => ∅ | S _ => list_to_set (map sha256_hex bl) end).
Proof.
  induction n as [|n IH]; simpl.
  - by rewrite union_empty_r_L.
  - rewrite dom_put_all, IH. destruct n.
    + by rewrite union_empty_r_L.
    + by rewrite <- union_assoc_L, union_idemp_L.
Qed.

(** C2 (amended). After [n] uploads of [X] on the in-memory stack every
    upload has succeeded, the block store holds one payload under each
    block digest of [X] and gained no other key, and every block digest
    that had a metadata row has its ref_count raised by [n] times the
    number of occurrences of the digest in the block list of [X]. *)
Theorem UploadFile_n_times
    (blockSize : Z) (fileName : string) (X : bytes) (n : nat) (s : MemService) :
  blockSize <= max_int → 2 * len X <= max_int → X ≠ [] →
  FileService.chunker s = FixedSize (FixedSizeChunker.NewFixedSizeChunker blockSize) →
  ∃ bl,
    FixedSizeChunker.Chunk_blocks (FixedSizeChunker.NewFixedSizeChunker blockSize) X = Ok bl ∧
    let s' := uploads n fileName X s in
    (∀ k, (k < n)%nat →
       ∃ F, (FileService.UploadFile fileName X (uploads k fileName X s)).1 = Ok F) ∧
    ((0 < n)%nat → ∀ b, b ∈ bl →
       ∃ b', b' ∈ bl ∧ sha256_hex b' = sha256_hex b ∧
             LocalBlockStore.blocks (FileService.blockStore s') !! sha256_hex b = Some b') ∧
    dom (LocalBlockStore.blocks (FileService.blockStore s')) =
      dom (LocalBlockStore.blocks (FileService.blockStore s)) ∪
      (match n with O => ∅ | S _ => list_to_set (map sha256_hex bl) end) ∧
    (∀ d blk,
       MockBlockRepository.blocks (FileService.blockRepo s) !! d = Some blk →
       is_int (Block.RefCount blk) →
       MockBlockRepository.blocks (FileService.blockRepo s') !! d =
       Some (Block.with_RefCount blk
               (wrap64 (Block.RefCount blk
                        + Z.of_nat n * occurrences d (map sha256_hex bl))))).
Proof.
  intros Hb Hlen Hne Hc.
  destruct (NewFixedSizeChunker_blockSize blockSize Hb) as [Hbs Hbsmax].
  pose proof (len_nonneg X) as Hl0.
  destruct (Fixed_Chunk_blocks_total _ X Hbs Hbsmax Hlen) as [bl Hbl].
  exists bl. split; [done|].
  assert (len X <= max_int) as Hlen' by lia.
  pose proof (λ k, uploads_state _ fileName X bl s k Hbs Hbsmax Hlen' Hne Hc Hbl) as Hst.
  cbn zeta. split_and!.
  - intros k _. destruct (Hst k) as (Hck & _ & _).
    destruct (UploadFile_spec _ fileName X bl _ Hbs Hbsmax Hlen' Hck Hne Hbl) as (_ & _ & ->).
    simpl. eauto.
  - intros Hn b Hbin. destruct (Hst n) as (_ & -> & _).
    destruct n as [|n]; [lia|]. simpl. by apply put_all_lookup_elem.
  - destruct (Hst n) as (_ & -> & _). apply dom_iter_put_all.
  - intros d blk Hd Hint. destruct (Hst n) as (_ & _ & ->).
    by apply iter_incr_all_lookup.
Qed.
(** [UploadFile] never creates a metadata row: a digest without a row has
    none after any number of uploads. *)
Lemma UploadFile_creates_no_block_row
    (blockSize : Z) (fileName : string) (X : bytes) (n : nat) (s : MemService) (d : string) :
  blockSize <= max_int → 2 * len X <= max_int → X ≠ [] →
  FileService.chunker s = FixedSize (FixedSizeChunker.NewFixedSizeChunker blockSize) →
  MockBlockRepository.blocks (FileService.blockRepo s) !! d = None →
  MockBlockRepository.blocks (FileService.blockRepo (uploads n fileName X s)) !! d = None.
Proof.
  intros Hb Hlen Hne Hc Hd.
  destruct (NewFixedSizeChunker_blockSize blockSize Hb) as [Hbs Hbsmax].
  pose proof (len_nonneg X) as Hl0.
  destruct (Fixed_Chunk_blocks_total _ X Hbs Hbsmax Hlen) as [bl Hbl].
  assert (len X <= max_int) as Hlen' by lia.
  destruct (uploads_state _ fileName X bl s n Hbs Hbsmax Hlen' Hne Hc Hbl) as (_ & _ & ->).
  induction n as [|n IH]; [done|]. simpl.
  rewrite incr_all_lookup; [by rewrite IH|]. intros blk. by rewrite IH.
Qed.

(** A block that occurs twice in [X] gains two counts per upload, whatever
    the digest is. *)
Lemma UploadFile_counts_occurrences :
  Block.RefCount <$>
    (MockBlockRepository.blocks
       (FileService.blockRepo
          (uploads 1 "zeros" [Byte.x00; Byte.x00] (test_service_with_row 1 [Byte.x00])))
       !! sha256_hex [Byte.x00]) = Some 2.
Proof.
  destruct (NewFixedSizeChunker_blockSize 1) as [Hbs Hbsmax]; [unfold max_int; lia|].
  destruct (uploads_state (FixedSizeChunker.NewFixedSizeChunker 1) "zeros"
              [Byte.x00; Byte.x00] [[Byte.x00]; [Byte.x00]]
              (test_service_with_row 1 [Byte.x00]) 1 Hbs Hbsmax) as (_ & _ & ->);
    [unfold len, max_int; simpl; lia|done|done|by vm_compute|].
  rewrite (iter_incr_all_lookup _ _ _ (NewBlock [Byte.x00])).
  - simpl. rewrite !occurrences_cons, !decide_True by done. by vm_compute.
  - simpl. apply lookup_insert_eq.
  - simpl. unfold is_int, min_int, max_int. lia.
Qed.
End Upload.

(** ** The instant-upload check *)

(** C4 (the code diverges from the claim). [GetFileNodeByContentHash]
    never finds a node, so for every state of the service, also one in which
    a file with digest [d] is stored, [CheckFileHandler] answers
    [exists = false] and hands out a fresh upload id. *)
Theorem CheckFileHandler_never_exists {S R B : Type} `{Digest}
    {BS : BlockStore.t S} {FR : FileRepository.t R} {BR : BlockRepository.t B}
    (uuid_New d : string) (service : FileService.t S R B) :
  d ≠ "" →
  UploadHandler.CheckFileHandler uuid_New d service = StatusOK_upload uuid_New [].
Proof.
  intros Hd. unfold UploadHandler.CheckFileHandler.
  destruct (String.eqb_spec d ""); [done|]. done.
Qed.

(** ** Block metadata *)

(** C5 (the code diverges from the claim). On the GORM repository
    [SaveBlockMetadata] of a digest that already has a row fails on the
    unique index and leaves the table, and with it the row's ref_count, as
    it was. *)
Theorem SaveBlockMetadata_existing_row_fails
    (db : blockRepository.t) (block row : Block.t) :
  blockRepository.rows db !! Block.Hash block = Some row →
  blockRepository.SaveBlockMetadata block db =
  (Err "failed to save block metadata: duplicate key value violates unique constraint idx_blocks_hash",
   db).
Proof.
  intros Hrow. unfold blockRepository.SaveBlockMetadata, wrapf, blockRepository.Create.
  rewrite Hrow. by rewrite bool_decide_eq_true_2 by eauto.
Qed.

(** The mock repository replaces the row: the ref_count afterwards is the
    one of the new record, not the sum. *)
Lemma Mock_SaveBlockMetadata_overwrites (m : MockBlockRepository.t) (block : Block.t) :
  MockBlockRepository.blocks (MockBlockRepository.SaveBlockMetadata block m).2
    !! Block.Hash block = Some block.
Proof. simpl. apply lookup_insert_eq. Qed.

(** C7 (the code diverges from the claim). The mock repository decrements
    without a guard: a block whose ref_count is 0 is left at -1. *)
Theorem Mock_DecrementBlockRefCount_below_zero
    (m : MockBlockRepository.t) (hash : string) (block : Block.t) :
  MockBlockRepository.blocks m !! hash = Some block →
  Block.RefCount block = 0 →
  MockBlockRepository.blocks (MockBlockRepository.DecrementBlockRefCount hash m).2 !! hash
  = Some (Block.with_RefCount block (-1)).
Proof.
  intros Hrow Hrc. unfold MockBlockRepository.DecrementBlockRefCount.
  rewrite Hrow, Hrc. simpl. by rewrite lookup_insert_eq.
Qed.

(** On the GORM repository an increment of a digest without a row fails. *)
Lemma IncrementRefCount_missing_row_fails (db : blockRepository.t) (hash : string) (delta : Z) :
  blockRepository.rows db !! hash = None →
  blockRepository.IncrementRefCount hash delta db =
  (Err "failed to find block: record not found", db).
Proof.
  intros Hrow.
  unfold blockRepository.IncrementRefCount, bind, wrapf, blockRepository.First.
  by rewrite Hrow.
Qed.

(** The GORM repository clamps: its decrement never takes a ref_count
    below 0. *)
Lemma DecrementBlockRefCount_clamped (db : blockRepository.t) (hash d : string) blk :
  blockRepository.rows (blockRepository.DecrementBlockRefCount hash db).2 !! d = Some blk →
  (∀ blk0, blockRepository.rows db !! d = Some blk0 →
           0 <= Block.RefCount blk0 ∧ Block.RefCount blk0 <= max_int) →
  0 <= Block.RefCount blk.
Proof.
  unfold blockRepository.DecrementBlockRefCount, bind, wrapf, blockRepository.First.
  destruct (blockRepository.rows db !! hash) as [row|] eqn:Hrow; simpl.
  - destruct (Z.gtb_spec (Block.RefCount row) 0) as [Hpos|Hle]; simpl.
    + destruct (decide (hash = d)) as [->|Hne].
      * rewrite lookup_insert_eq. intros [= <-] Hall. simpl.
        destruct (Hall row Hrow). rewrite wrap64_id; [lia|unfold is_int, min_int; lia].
      * rewrite lookup_insert_ne by done. intros Hd Hall. by destruct (Hall blk Hd).
    + intros Hd Hall. by destruct (Hall blk Hd).
  - intros Hd Hall. by destruct (Hall blk Hd).
Qed.

(** The GORM repository leaves a ref_count of 0 at 0. *)
Lemma DecrementBlockRefCount_at_zero (db : blockRepository.t) (hash : string) row :
  blockRepository.rows db !! hash = Some row → Block.RefCount row = 0 →
  blockRepository.DecrementBlockRefCount hash db = (Ok (), db).
Proof.
  intros Hrow Hrc.
  unfold blockRepository.DecrementBlockRefCount, bind, wrapf, blockRepository.First.
  rewrite Hrow. simpl. by rewrite Hrc.
Qed.

(** ** The cache layer *)

(** C6 (the code diverges from the claim). When the cache cannot be
    reached, [cachedBlockStore.Exists] returns the cache's error and does
    not ask the inner store, whatever the inner store holds. *)
Theorem cachedBlockStore_Exists_cache_failure {S : Type} {BS : BlockStore.t S}
    (c : cachedBlockStore.t S) (hash : string) :
  redis.reachable (cachedBlockStore.redisClient c) = false →
  cachedBlockStore.Exists hash c = (Err redis.unreachable, c).
Proof.
  intros Hdown. unfold cachedBlockStore.Exists, redis.Exists. by rewrite Hdown.
Qed.

(** The sibling [RedisBlockCache.Exists] does fall through on a failure. *)
Lemma RedisBlockCache_Exists_cache_failure {S : Type} {BS : BlockStore.t S}
    (c : RedisBlockCache.t S) (hash : string) :
  redis.reachable (RedisBlockCache.client c) = false →
  RedisBlockCache.Exists hash c = RedisBlockCache.on_blockStore (BlockStore.Exists hash) c.
Proof.
  intros Hdown. unfold RedisBlockCache.Exists, redis.Exists. by rewrite Hdown.
Qed.

(** Both fall through to the inner store when the cache has no entry. *)
Lemma cachedBlockStore_Exists_miss {S : Type} {BS : BlockStore.t S}
    (c : cachedBlockStore.t S) (hash : string) :
  redis.Exists (cachedBlockStore.cacheKeyPrefix c +:+ hash) (cachedBlockStore.redisClient c)
    = (Ok 0, cachedBlockStore.redisClient c) →
  cachedBlockStore.Exists hash c = cachedBlockStore.on_local (BlockStore.Exists hash) c.
Proof. intros Hmiss. unfold cachedBlockStore.Exists. by rewrite Hmiss. Qed.

Lemma RedisBlockCache_Exists_miss {S : Type} {BS : BlockStore.t S}
    (c : RedisBlockCache.t S) (hash : string) :
  redis.Exists (RedisBlockCache.getCacheKey c hash) (RedisBlockCache.client c)
    = (Ok 0, RedisBlockCache.client c) →
  RedisBlockCache.Exists hash c = RedisBlockCache.on_blockStore (BlockStore.Exists hash) c.
Proof. intros Hmiss. unfold RedisBlockCache.Exists. by rewrite Hmiss. Qed.

(** ** Upload sessions *)

Lemma Sscanf_chunk_0 : Sscanf_chunk (chunkField 0) 0 = 0.
Proof. by vm_compute. Qed.

(** C3 (the code diverges from the claim). [GetMissingChunks] takes the
    number of chunks from the name of the first received field it meets.
    Once chunk 0 alone has been recorded for a session it therefore returns
    the empty list, whatever the total number of chunks is. *)
Theorem GetMissingChunks_after_chunk_0 {S R B : Type}
    (s : FileService.t S R B) (r : redis.t)
    (range_fields : gmap string string → list string)
    (uploadID : string) (totalChunks : Z) :
  FileService.redisClient s = Some r →
  redis.reachable r = true →
  redis.hashes r !! ("upload:" +:+ uploadID +:+ ":chunks") = None →
  valid_range range_fields →
  (FileService.GetMissingChunks range_fields uploadID
     (FileService.RecordChunkReceived uploadID 0 totalChunks s).2).1 = Ok [].
Proof.
  intros Hr Hup Hkey Hrange.
  unfold FileService.GetMissingChunks, FileService.RecordChunkReceived, bind,
    FileService.on_redisClient, redis.HSet, redis.Expire, redis.HGetAll.
  rewrite Hr. simpl. rewrite Hup. simpl.
  rewrite Hkey. simpl. rewrite !lookup_insert_eq. simpl.
  rewrite insert_empty, map_size_singleton. simpl.
  pose proof (Hrange {[chunkField 0 := "received"]}) as Hp.
  rewrite map_to_list_singleton in Hp. simpl in Hp.
  apply Permutation_singleton_r in Hp. rewrite Hp.
  by rewrite Sscanf_chunk_0.
Qed.

(** *** [Sscanf] reads back what [Sprintf] wrote *)

Lemma digit_of_pretty_N_char (d : N) :
  (d < 10)%N → digit_of (pretty_N_char d) = Some (Z.of_N d).
Proof.
  intros Hd.
  assert (d = 0 ∨ d = 1 ∨ d = 2 ∨ d = 3 ∨ d = 4 ∨ d = 5 ∨ d = 6 ∨ d = 7 ∨ d = 8 ∨ d = 9)%N
    as Hcases by lia.
  repeat (destruct Hcases as [->|Hcases]; [by vm_compute|]). subst. by vm_compute.
Qed.

Lemma scan_digits_pretty_N_go (x : N) (s : string) :
  scan_digits (pretty_N_go x s) None =
  scan_digits s (if decide (x = 0)%N then None else Some (Z.of_N x)).
Proof.
  revert s. induction (N.lt_wf_0 x) as [x _ IH]. intros s.
  destruct (decide (x = 0)%N) as [->|Hx]; [by rewrite pretty_N_go_0|].
  rewrite pretty_N_go_step by lia.
  rewrite IH by (apply N.div_lt; lia). simpl.
  rewrite digit_of_pretty_N_char by (apply N.mod_lt; lia).
  f_equal. f_equal.
  pose proof (N.div_mod x 10 ltac:(lia)) as Hdm.
  pose proof (N.mod_lt x 10 ltac:(lia)) as Hm.
  clear IH. destruct (decide (x `div` 10 = 0)%N) as [E|E]; simpl; lia.
Qed.

Lemma digit_not_sign (a : Ascii.ascii) (d : Z) :
  digit_of a = Some d →
  Ascii.eqb a (Ascii.ascii_of_nat 45) = false ∧ Ascii.eqb a (Ascii.ascii_of_nat 43) = false.
Proof.
  destruct a as [[] [] [] [] [] [] [] []]; vm_compute; intros Hd; try done.
Qed.

Lemma pretty_N_go_head (x : N) (s : string) :
  (0 < x)%N → ∃ a rest d, pretty_N_go x s = String a rest ∧ digit_of a = Some d.
Proof.
  revert s. induction (N.lt_wf_0 x) as [x _ IH]. intros s Hx.
  rewrite pretty_N_go_step by done.
  destruct (decide (x `div` 10 = 0)%N) as [E|E].
  - rewrite E, pretty_N_go_0. eexists _, _, _. split; [done|].
    apply digit_of_pretty_N_char, N.mod_lt. lia.
  - apply IH; [apply N.div_lt; lia|by apply N.neq_0_lt_0].
Qed.

Lemma scan_int_pretty (k : Z) : 0 <= k → scan_int (pretty k) = Some k.
Proof.
  intros Hk. destruct k as [|p|p]; [by vm_compute| |lia].
  change (pretty (Z.pos p)) with (pretty_N_go (N.pos p) "").
  destruct (pretty_N_go_head (N.pos p) "") as (a & rest & d & Heq & Hd); [lia|].
  pose proof (scan_digits_pretty_N_go (N.pos p) "") as Hscan.
  rewrite Heq in *. unfold scan_int.
  destruct (digit_not_sign a d Hd) as [-> ->]. rewrite Hscan. done.
Qed.

Lemma SkipSpace_digit (a : Ascii.ascii) (rest : string) (d : Z) :
  digit_of a = Some d → SkipSpace (String a rest) = Some (String a rest).
Proof.
  destruct a as [[] [] [] [] [] [] [] []]; vm_compute; intros Hd; try done.
Qed.

Lemma SkipSpace_pretty (k : Z) : 0 <= k → SkipSpace (pretty k) = Some (pretty k).
Proof.
  intros Hk. destruct k as [|p|p]; [by vm_compute| |lia].
  change (pretty (Z.pos p)) with (pretty_N_go (N.pos p) "").
  destruct (pretty_N_go_head (N.pos p) "") as (a & rest & d & -> & Hd); [lia|].
  by apply (SkipSpace_digit a rest d).
Qed.

Lemma Sscanf_chunk_chunkField (k v : Z) :
  0 <= k → k <= max_int → Sscanf_chunk (chunkField k) v = k.
Proof.
  intros Hk Hmax. unfold Sscanf_chunk, chunkField.
  change (strip_prefix "chunk:" ("chunk:" +:+ pretty k)) with (Some (pretty k)).
  cbv beta iota. rewrite SkipSpace_pretty by done. rewrite scan_int_pretty by done.
  destruct (Z.leb_spec min_int k), (Z.leb_spec k max_int); unfold min_int in *; simpl; lia.
Qed.

Lemma chunkField_inj (i j : Z) : chunkField i = chunkField j → i = j.
Proof. unfold chunkField. simpl. intros [= Heq]. by apply (inj pretty). Qed.

(** *** What [GetMissingChunks] returns *)

Lemma session_fields_lookup (R : list Z) (i : Z) :
  session_fields R !! chunkField i = if decide (i ∈ R) then Some "received" else None.
Proof.
  unfold session_fields. induction R as [|j R IH] using rev_ind.
  - cbn [foldl]. rewrite lookup_empty.
    destruct (decide (i ∈ [])) as [Hin|]; [by apply elem_of_nil in Hin|done].
  - rewrite foldl_app. cbn [foldl]. destruct (decide (j = i)) as [->|Hne].
    + rewrite lookup_insert_eq, decide_True; [done|].
      apply elem_of_app. right. by apply list_elem_of_singleton.
    + rewrite lookup_insert_ne by (intros Heq; by apply chunkField_inj in Heq).
      rewrite IH. destruct (decide (i ∈ R)) as [Hin|Hnin].
      * rewrite decide_True; [done|]. apply elem_of_app. by left.
      * rewrite decide_False; [done|]. intros [?|Hs%list_elem_of_singleton]%elem_of_app; done.
Qed.

Lemma session_fields_keys (R : list Z) (field : string) :
  is_Some (session_fields R !! field) → ∃ k, k ∈ R ∧ field = chunkField k.
Proof.
  unfold session_fields. induction R as [|j R IH] using rev_ind.
  - cbn [foldl]. rewrite lookup_empty. by intros [? ?].
  - rewrite foldl_app. cbn [foldl]. destruct (decide (chunkField j = field)) as [<-|Hne].
    + intros _. exists j. split; [|done]. apply elem_of_app. right.
      by apply list_elem_of_singleton.
    + rewrite lookup_insert_ne by done. intros Hsome.
      destruct (IH Hsome) as (k & Hk & ->). exists k. split; [|done].
      apply elem_of_app. by left.
Qed.

Lemma recorded_redis {S R B : Type} (uploadID : string) (totalChunks : Z) (R' : list Z)
    (s : FileService.t S R B) (r : redis.t) :
  FileService.redisClient s = Some r → redis.reachable r = true →
  redis.hashes r !! ("upload:" +:+ uploadID +:+ ":chunks") = None →
  R' ≠ [] →
  ∃ r', FileService.redisClient (recorded uploadID totalChunks R' s) = Some r' ∧
        redis.reachable r' = true ∧
        redis.hashes r' !! ("upload:" +:+ uploadID +:+ ":chunks") = Some (session_fields R').
Proof.
  intros Hr Hup Hkey. unfold recorded, session_fields.
  induction R' as [|j R' IH] using rev_ind; [done|]. intros _.
  rewrite !foldl_app. cbn [foldl].
  set (s1 := foldl _ s R') in *.
  assert (∃ r1, FileService.redisClient s1 = Some r1 ∧ redis.reachable r1 = true ∧
                default ∅ (redis.hashes r1 !! ("upload:" +:+ uploadID +:+ ":chunks"))
                = foldl (λ m i, <[chunkField i := "received"]> m) ∅ R')
    as (r1 & Hr1 & Hup1 & Hkey1).
  { destruct R' as [|j0 R0].
    - exists r. subst s1. simpl. by rewrite Hkey.
    - destruct IH as (r' & Hr' & Hup' & Hkey'); [done|].
      exists r'. by rewrite Hkey'. }
  unfold FileService.RecordChunkReceived, bind, FileService.on_redisClient,
    redis.HSet, redis.Expire.
  rewrite Hr1. simpl. rewrite Hup1. simpl. rewrite Hkey1.
  eexists. split; [done|]. split; [done|]. apply lookup_insert_eq.
Qed.

(** Once the chunks [R] of a session are recorded, [GetMissingChunks]
    returns the indices below [k] that are not in [R], where [k] is the
    index of some received chunk: the one whose field the range meets first.
    No index from [k] on is ever reported. *)
Lemma GetMissingChunks_returns {S R B : Type}
    (s : FileService.t S R B) (r : redis.t)
    (range_fields : gmap string string → list string)
    (uploadID : string) (totalChunks : Z) (R' : list Z) :
  FileService.redisClient s = Some r →
  redis.reachable r = true →
  redis.hashes r !! ("upload:" +:+ uploadID +:+ ":chunks") = None →
  valid_range range_fields →
  R' ≠ [] → Forall (λ i, 0 <= i ∧ i <= max_int) R' →
  ∃ k, k ∈ R' ∧
    (FileService.GetMissingChunks range_fields uploadID
       (recorded uploadID totalChunks R' s)).1
    = Ok (filter (λ i, i ∉ R') (seqZ 0 k)).
Proof.
  intros Hr Hup Hkey Hrange Hne Hall.
  destruct (recorded_redis uploadID totalChunks R' s r Hr Hup Hkey Hne)
    as (r' & Hr' & Hup' & Hkey').
  unfold FileService.GetMissingChunks, FileService.on_redisClient, redis.HGetAll.
  rewrite Hr', Hup'. simpl. rewrite Hkey'. simpl.
  assert (session_fields R' ≠ ∅) as Hnonempty.
  { destruct R' as [|j R0]; [done|]. intros Hem.
    pose proof (session_fields_lookup (j :: R0) j) as Hl.
    rewrite Hem, lookup_empty, decide_True in Hl by (apply elem_of_cons; by left). done. }
  rewrite bool_decide_eq_false_2 by (intros Hsz; by apply map_size_empty_iff in Hsz).
  pose proof (Hrange (session_fields R')) as Hperm.
  destruct (range_fields (session_fields R')) as [|field rest] eqn:Hrf.
  { symmetry in Hperm. apply Permutation_nil_r in Hperm.
    apply fmap_nil_inv in Hperm. by apply map_to_list_empty_iff in Hperm. }
  assert (field ∈ (map_to_list (session_fields R')).*1) as Hfield.
  { rewrite <- Hperm. apply elem_of_cons. by left. }
  apply list_elem_of_fmap in Hfield as ([f v] & -> & Hfv). simpl.
  apply elem_of_map_to_list in Hfv.
  destruct (session_fields_keys R' f) as (k & Hk & ->); [eauto|].
  exists k. split; [done|]. simpl.
  rewrite Forall_forall in Hall. destruct (Hall k Hk) as [Hk0 Hkmax].
  rewrite Sscanf_chunk_chunkField by done. f_equal.
  apply list_filter_iff. intros i. rewrite session_fields_lookup.
  destruct (decide (i ∈ R')); split; done.
Qed.

(** With chunks 0 and 2 of three received the answer depends on the field
    the range meets first: [1] when it is [chunk:2], nothing when it is
    [chunk:0]. *)
Lemma GetMissingChunks_chunks_0_2_first_2 :
  (FileService.GetMissingChunks (λ _, ["chunk:2"; "chunk:0"]) "u1"
     (FileService.RecordChunkReceived "u1" 2 3
        (FileService.RecordChunkReceived "u1" 0 3 (test_service_with_redis 8192)).2).2).1
  = Ok [1].
Proof. by vm_compute. Qed.

Lemma GetMissingChunks_chunks_0_2_first_0 :
  (FileService.GetMissingChunks (λ _, ["chunk:0"; "chunk:2"]) "u1"
     (FileService.RecordChunkReceived "u1" 2 3
        (FileService.RecordChunkReceived "u1" 0 3 (test_service_with_redis 8192)).2).2).1
  = Ok [].
Proof. by vm_compute. Qed.

(** With no chunk received nothing is reported missing. *)
Lemma GetMissingChunks_nothing_received :
  (FileService.GetMissingChunks listed_fields "u1" (test_service_with_redis 8192)).1 = Ok [].
Proof. by vm_compute. Qed.

(** ** Deleting a file *)





(** The frame holds for every repository and every outcome: whatever
    [DeleteFile] returns, the block store is the one it started with. *)
Lemma DeleteFile_blockStore_unchanged {S R B : Type}
    {FR : FileRepository.t R} {BR : BlockRepository.t B}
    (fileHash : string) (s : FileService.t S R B) :
  FileService.blockStore (FileService.DeleteFile fileHash s).2 = FileService.blockStore s.
Proof.
  assert (∀ hs (s : FileService.t S R B),
    FileService.blockStore (FileService.DeleteFile_loop hs s).2 = FileService.blockStore s)
    as Hloop.
  { induction hs as [|h hs IH]; intros s0; simpl; [done|].
    unfold bind, ignore_error, FileService.on_blockRepo.
    destruct (BlockRepository.DecrementBlockRefCount h (FileService.blockRepo s0)) as [[]]
      eqn:E; simpl; try done; by rewrite IH. }
  unfold FileService.DeleteFile, bind, wrapf, FileService.on_fileRepo, FileService.panic.
  destruct (FileRepository.GetFileByHash fileHash (FileService.fileRepo s)) as [[[f|]| | |] r];
    simpl; try done.
  destruct (json_Unmarshal (File.BlockIDs f)); simpl; try done.
  match goal with |- context [FileService.DeleteFile_loop ?hs ?s0] =>
    pose proof (Hloop hs s0) as Hl;
    destruct (FileService.DeleteFile_loop hs s0) as [[] s1] end; simpl in *; try done.
  by destruct (FileRepository.DeleteFile (File.ID f) (FileService.fileRepo s1)) as [[]].
Qed.

(** ** The statements at sample inputs *)

Section Samples.
#[local] Existing Instance spelled_digest.
#[local] Existing Instance listed_range.

(** [calculateFileHash] depends on the length alone: a second file of the
    same length takes the place of the first in the mock file repository,
    and the hash of the first then downloads the second. *)
Lemma UploadFile_same_length_replaces :
  let s1 := (FileService.UploadFile "a.txt" abc (test_service 2)).2 in
  let s2 := (FileService.UploadFile "b.txt" [Byte.x78; Byte.x79; Byte.x7a] s1).2 in
  (FileService.DownloadFile (calculateFileHash abc) s2).1 = Ok [Byte.x78; Byte.x79; Byte.x7a].
Proof. by vm_compute. Qed.

Lemma UploadFile_DownloadFile_roundtrip_witness :
  let s' := (FileService.UploadFile "a.txt" abc (test_service 2)).2 in
  FileService.DownloadFile (File.Hash (uploaded_file "a.txt" abc [[Byte.x61; Byte.x62]; [Byte.x63]])) s'
  = (Ok abc, s').
Proof.
  cbv zeta.
  apply (UploadFile_DownloadFile_roundtrip 2 "a.txt" abc (test_service 2)).
  - unfold max_int. lia.
  - unfold len, max_int. simpl. lia.
  - reflexivity.
  - intros bl Hbl. vm_compute in Hbl. injection Hbl as <-.
    unfold collision_free. repeat constructor; intros E; vm_compute in E; congruence.
  - discriminate.
  - vm_compute. reflexivity.
Defined.

(** C2, as stated, fails when a block occurs twice in [X]: two zero bytes
    cut into one-byte blocks are two occurrences of one block, and one
    upload raises the ref_count of its row from 0 to 2, not to [n = 1]. *)
Lemma UploadFile_repeated_block_counts_twice :
  let X := [Byte.x00; Byte.x00] in
  let s := test_service_with_row 1 [Byte.x00] in
  FixedSizeChunker.Chunk_blocks (FixedSizeChunker.NewFixedSizeChunker 1) X
    = Ok [[Byte.x00]; [Byte.x00]] ∧
  Block.RefCount <$>
    (MockBlockRepository.blocks (FileService.blockRepo (uploads 1 "zeros" X s))
       !! sha256_hex [Byte.x00]) = Some 2 ∧
  2 ≠ Z.of_nat 1.
Proof. cbv zeta. split_and!; [by vm_compute|by vm_compute|lia]. Qed.

Lemma UploadFile_n_times_witness :
  ∃ bl,
    FixedSizeChunker.Chunk_blocks (FixedSizeChunker.NewFixedSizeChunker 2) abc = Ok bl ∧
    let s := test_service_with_row 2 [Byte.x63] in
    let s' := uploads 3 "a.txt" abc s in
    (∀ k, (k < 3)%nat →
       ∃ F, (FileService.UploadFile "a.txt" abc (uploads k "a.txt" abc s)).1 = Ok F) ∧
    ((0 < 3)%nat → ∀ b, b ∈ bl →
       ∃ b', b' ∈ bl ∧ sha256_hex b' = sha256_hex b ∧
             LocalBlockStore.blocks (FileService.blockStore s') !! sha256_hex b = Some b') ∧
    dom (LocalBlockStore.blocks (FileService.blockStore s')) =
      dom (LocalBlockStore.blocks (FileService.blockStore s)) ∪
      list_to_set (map sha256_hex bl) ∧
    (∀ d blk,
       MockBlockRepository.blocks (FileService.blockRepo s) !! d = Some blk →
       is_int (Block.RefCount blk) →
       MockBlockRepository.blocks (FileService.blockRepo s') !! d =
       Some (Block.with_RefCount blk
               (wrap64 (Block.RefCount blk
                        + Z.of_nat 3 * occurrences d (map sha256_hex bl))))).
Proof.
  apply (UploadFile_n_times 2 "a.txt" abc 3 (test_service_with_row 2 [Byte.x63])).
  - unfold max_int. lia.
  - unfold len, max_int. simpl. lia.
  - discriminate.
  - reflexivity.
Defined.

Lemma GetMissingChunks_after_chunk_0_witness :
  (FileService.GetMissingChunks listed_fields "u1"
     (FileService.RecordChunkReceived "u1" 0 3 (test_service_with_redis 8192)).2).1 = Ok [].
Proof.
  apply (GetMissingChunks_after_chunk_0 (test_service_with_redis 8192) empty_redis
           listed_fields "u1" 3).
  - reflexivity.
  - reflexivity.
  - reflexivity.
  - intros m. reflexivity.
Defined.

Lemma CheckFileHandler_never_exists_witness :
  let s := (FileService.UploadFile "a.txt" abc (test_service 2)).2 in
  is_Some (MockFileRepository.files (FileService.fileRepo s) !! "hash_3") ∧
  UploadHandler.CheckFileHandler "6f1c" "hash_3" s = StatusOK_upload "6f1c" [].
Proof.
  cbv zeta. split.
  - vm_compute. eauto.
  - apply (CheckFileHandler_never_exists "6f1c" "hash_3"). discriminate.
Defined.

Lemma SaveBlockMetadata_existing_row_fails_witness :
  blockRepository.SaveBlockMetadata (Block.with_RefCount (NewBlock abc) 1) one_row_table =
  (Err "failed to save block metadata: duplicate key value violates unique constraint idx_blocks_hash",
   one_row_table).
Proof.
  apply (SaveBlockMetadata_existing_row_fails one_row_table
           (Block.with_RefCount (NewBlock abc) 1)
           (Block.with_RefCount (Block.with_ID (NewBlock abc) 1%N) 1)).
  vm_compute. reflexivity.
Defined.

Lemma cachedBlockStore_Exists_cache_failure_witness :
  (LocalBlockStore.Exists (sha256_hex abc) (cachedBlockStore.local cache_down)).1 = Ok true ∧
  cachedBlockStore.Exists (sha256_hex abc) cache_down = (Err redis.unreachable, cache_down).
Proof.
  split.
  - vm_compute. reflexivity.
  - apply (cachedBlockStore_Exists_cache_failure cache_down (sha256_hex abc)). reflexivity.
Defined.

Lemma Mock_DecrementBlockRefCount_below_zero_witness :
  let m := (MockBlockRepository.SaveBlockMetadata (NewBlock abc)
              MockBlockRepository.NewMockBlockRepository).2 in
  MockBlockRepository.blocks (MockBlockRepository.DecrementBlockRefCount (sha256_hex abc) m).2
    !! sha256_hex abc
  = Some (Block.with_RefCount (NewBlock abc) (-1)).
Proof.
  cbv zeta.
  apply (Mock_DecrementBlockRefCount_below_zero _ (sha256_hex abc) (NewBlock abc)).
  - vm_compute. reflexivity.
  - reflexivity.
Defined.

Lemma CDC_block_lengths_witness :
  let c := CDCChunker.NewCDCChunker 1 2 5 in
  0 < len [Byte.x01; Byte.x02] ∧ len [Byte.x01; Byte.x02] <= CDCChunker.maxSize c ∧
  ((1 + 1 < 4)%nat → CDCChunker.minSize c <= len [Byte.x01; Byte.x02]).
Proof.
  apply (CDC_block_lengths 1 2 5 seven
           [[Byte.x00]; [Byte.x01; Byte.x02]; [Byte.x03; Byte.x04]; [Byte.x05; Byte.x06]]
           ltac:(unfold max_int; lia) ltac:(unfold len, max_int; simpl; lia)
           ltac:(vm_compute; reflexivity) 1%nat [Byte.x01; Byte.x02]).
  reflexivity.
Defined.

Lemma NewCDCChunker_Chunk_terminates_witness :
  let c := CDCChunker.NewCDCChunker 1 2 5 in
  (0 < CDCChunker.minSize c ∧ CDCChunker.minSize c < CDCChunker.avgSize c ∧
   CDCChunker.avgSize c < CDCChunker.maxSize c) ∧
  (∀ pos chunk chunkEnd, 0 <= pos → pos < len seven →
     CDCChunker.Chunk_iter c seven pos = Ok (chunk, chunkEnd) →
     pos < chunkEnd ∧ chunkEnd <= len seven) ∧
  ((∃ hashes, CDCChunker.Chunk c seven = Ok hashes) ∨
   (CDCChunker.Chunk c seven = Panic ∧ max_int < len seven + CDCChunker.maxSize c)) ∧
  (len seven + CDCChunker.maxSize c <= max_int →
   ∃ blocks, CDCChunker.Chunk_blocks c seven = Ok blocks ∧ concat blocks = seven).
Proof.
  apply (NewCDCChunker_Chunk_terminates 1 2 5 seven).
  - unfold max_int. lia.
  - unfold len, max_int. simpl. lia.
Defined.


End Samples.

(** * Further properties of the code *)

(** ** The fixed-size chunker *)

Lemma Fixed_Chunk_loop_shape (c : FixedSizeChunker.t) (data : bytes) fuel i acc r :
  0 < FixedSizeChunker.blockSize c → FixedSizeChunker.blockSize c <= max_int →
  len data <= max_int → 0 <= i →
  FixedSizeChunker.Chunk_loop c data fuel i acc = Ok r →
  ∃ bl, r = acc ++ bl ∧
    cut_from data i (FixedSizeChunker.blockSize c) (FixedSizeChunker.blockSize c) bl ∧
    len bl = (Z.max 0 (len data - i) + FixedSizeChunker.blockSize c - 1)
             / FixedSizeChunker.blockSize c.
Proof.
  intros Hbs Hbsmax Hlen. revert i acc.
  set (bsz := FixedSizeChunker.blockSize c) in *.
  assert (∀ i acc r', len data <= i → Ok acc = Ok r' →
    ∃ bl : list bytes, r' = acc ++ bl ∧ cut_from data i bsz bsz bl ∧
      len bl = (Z.max 0 (len data - i) + bsz - 1) / bsz) as Hend.
  { intros i acc r' Hi [= <-]. exists []. rewrite app_nil_r. split_and!; [done| |].
    - split_and!; [|done|by intros ? ? [=]].
      simpl. rewrite drop_ge; [done|]. unfold len in Hi. lia.
    - rewrite Z.max_l by lia. rewrite Z.div_small by lia. done. }
  induction fuel as [|fuel IH]; intros i acc Hi; simpl.
  - destruct (Z.ltb_spec i (len data)); [done|]. by apply Hend.
  - destruct (Z.ltb_spec i (len data)) as [Hlt|Hge]; [|by apply Hend].
    fold bsz.
    set (e := if wrap64 (i + bsz) >? len data then len data else wrap64 (i + bsz)).
    destruct (slice data i e) as [chunk|] eqn:Hs; [|done].
    intros Hr. pose proof Hs as Hs'.
    apply slice_Some in Hs' as (_ & Hie & Hel & Hchunk & Hclen).
    assert (i + bsz <= max_int) as Hno.
    { destruct (Z_le_gt_dec (i + bsz) max_int); [done|].
      exfalso. unfold e in Hie. rewrite wrap64_overflow in Hie by lia.
      rewrite Z.gtb_ltb in Hie. pose proof (len_nonneg data).
      destruct (Z.ltb_spec (len data) (i + bsz - 18446744073709551616));
        unfold max_int in *; lia. }
    subst e.
    assert (wrap64 (i + bsz) = i + bsz) as Hw
      by (apply wrap64_id; unfold is_int, min_int; lia).
    rewrite Hw in *.
    set (e := if i + bsz >? len data then len data else i + bsz) in *.
    destruct (Z_lt_ge_dec (i + bsz) (len data)) as [Hin|Hout].
    + assert (e = i + bsz) as He.
      { unfold e. rewrite Z.gtb_ltb. destruct (Z.ltb_spec (len data) (i + bsz)); lia. }
      apply IH in Hr as (bl & -> & (Hc & Hf & Hl) & Hn); [|lia].
      exists (chunk :: bl). split_and!.
      * by rewrite <- app_assoc.
      * split_and!.
        -- simpl. rewrite Hc, Hchunk, He.
           replace (Z.to_nat (i + bsz)) with (Z.to_nat i + Z.to_nat (i + bsz - i))%nat by lia.
           rewrite <- drop_drop. apply take_drop.
        -- constructor; [lia|done].
        -- intros [|k] b Hb Hk; simpl in *.
           ++ injection Hb as <-. lia.
           ++ apply (Hl k b Hb). lia.
      * unfold len in *. cbn [length]. rewrite Nat2Z.inj_succ, Hn.
        rewrite !Z.max_r by lia.
        replace (Z.of_nat (length data) - i + bsz - 1)
          with (Z.of_nat (length data) - (i + bsz) + bsz - 1 + 1 * bsz) by lia.
        rewrite Z.div_add by lia. lia.
    + assert (e = len data) as He.
      { unfold e. rewrite Z.gtb_ltb. destruct (Z.ltb_spec (len data) (i + bsz)); lia. }
      assert (r = acc ++ [chunk]) as ->.
      { destruct fuel; simpl in Hr;
          (destruct (Z.ltb_spec (i + bsz) (len data)); [lia|]); by injection Hr as <-. }
      exists [chunk]. split_and!; [done| |].
      * split_and!.
        -- simpl. rewrite app_nil_r, Hchunk, He. apply take_ge.
           rewrite length_drop. unfold len. lia.
        -- repeat constructor; lia.
        -- intros [|k] b Hb Hk; simpl in *; lia.
      * rewrite Z.max_r by lia.
        apply Z.div_unique with (r := len data - i - 1); [lia|].
        unfold len. simpl. lia.
Qed.

(** X1. [FixedSizeChunker.Chunk] of a chunker made by [NewFixedSizeChunker]
    returns for data of up to [max_int / 2] bytes, and the blocks it hashes
    are the data cut in order: their concatenation is the data, there are
    [ceil (len data / blockSize)] of them, none is empty, and each one but
    the last is exactly [blockSize] bytes long. *)
Theorem Fixed_Chunk_blocks_shape `{Digest} (blockSize : Z) (data : bytes) :
  blockSize <= max_int → 2 * len data <= max_int →
  let c := FixedSizeChunker.NewFixedSizeChunker blockSize in
  ∃ blocks,
    FixedSizeChunker.Chunk_blocks c data = Ok blocks ∧
    FixedSizeChunker.Chunk c data = Ok (map sha256_hex blocks) ∧
    concat blocks = data ∧
    len blocks = (len data + FixedSizeChunker.ChunkSize c - 1) / FixedSizeChunker.ChunkSize c ∧
    ∀ (i : nat) (b : bytes), blocks !! i = Some b →
      0 < len b ∧ len b <= FixedSizeChunker.ChunkSize c ∧
      ((i + 1 < length blocks)%nat → len b = FixedSizeChunker.ChunkSize c).
Proof.
  intros Hb Hlen c.
  destruct (NewFixedSizeChunker_blockSize blockSize Hb) as [Hpos Hmax]. fold c in Hpos, Hmax.
  pose proof (len_nonneg data) as Hnn.
  destruct (Fixed_Chunk_blocks_total c data Hpos Hmax Hlen) as [blocks Hblocks].
  exists blocks. split; [done|]. split.
  { unfold FixedSizeChunker.Chunk. by rewrite Hblocks. }
  unfold FixedSizeChunker.ChunkSize.
  unfold FixedSizeChunker.Chunk_blocks in Hblocks.
  destruct (Z.eqb_spec (len data) 0) as [H0|H0].
  - injection Hblocks as <-. split_and!.
    + symmetry. apply nil_length_inv. unfold len in H0. lia.
    + rewrite H0. rewrite Z.div_small by lia. done.
    + by intros ? ? [=].
  - apply Fixed_Chunk_loop_shape in Hblocks as (bl & -> & (Hc & Hf & Hl) & Hn);
      [|done|done|lia|lia].
    simpl in *. split_and!.
    + by rewrite Hc.
    + rewrite Hn. rewrite Z.max_r by lia. by rewrite Z.sub_0_r.
    + intros i b Hib.
      pose proof (proj1 (Forall_lookup _ _) Hf i b Hib) as [? ?].
      split_and!; [done|done|]. intros Hi. pose proof (Hl i b Hib Hi). lia.
Qed.

(** ** The content-defined chunker: where it cuts *)

Section CDC_cuts.
Variable c : CDCChunker.t.
Variable data : bytes.
Hypothesis Hmin : 0 < CDCChunker.minSize c.
Hypothesis Hminavg : CDCChunker.minSize c < CDCChunker.avgSize c.
Hypothesis Havgmax : CDCChunker.avgSize c < CDCChunker.maxSize c.
Hypothesis Hroom : len data + CDCChunker.maxSize c <= max_int.

(** The scan stops at the first position [target] at or after [chunkEnd]
    that [isChunkBoundary] accepts, or at the end of the data. *)
Lemma scan_to_boundary fuel pos target ce :
  0 <= pos → pos <= len data →
  pos + CDCChunker.minSize c <= ce → ce <= target →
  target < pos + CDCChunker.maxSize c →
  (target - CDCChunker.minSize c) mod CDCChunker.avgSize c = 0 →
  (∀ x, pos + CDCChunker.minSize c <= x → x < target →
        (x - CDCChunker.minSize c) mod CDCChunker.avgSize c ≠ 0) →
  len data - ce <= Z.of_nat fuel →
  CDCChunker.scan c data fuel pos ce =
  Ok (if ce <? len data then Z.min target (len data) else ce).
Proof.
  intros Hpos Hposle. revert ce.
  assert (wrap64 (pos + CDCChunker.maxSize c) = pos + CDCChunker.maxSize c) as Hw.
  { apply wrap64_id. unfold is_int, min_int. lia. }
  induction fuel as [|fuel IH]; intros ce Hce1 Hce2 Htgt Hal Hmid Hfuel;
    simpl; rewrite Hw.
  - destruct (Z.ltb_spec ce (len data)); [lia|]. by rewrite andb_false_r.
  - destruct (Z.ltb_spec ce (len data)) as [Hlt|Hge]; [|by rewrite andb_false_r].
    destruct (Z.ltb_spec ce (pos + CDCChunker.maxSize c)); [|lia]. simpl.
    unfold CDCChunker.isChunkBoundary.
    destruct (Z.ltb_spec ce (CDCChunker.minSize c)); [lia|].
    rewrite Z.gtb_ltb. destruct (Z.ltb_spec (len data) ce); [lia|]. simpl.
    destruct (Z.eqb_spec (CDCChunker.avgSize c) 0); [lia|].
    rewrite (wrap64_id (ce - CDCChunker.minSize c)) by (unfold is_int, min_int; lia).
    rewrite Z.rem_mod_nonneg by lia.
    destruct (Z.eqb_spec ((ce - CDCChunker.minSize c) mod CDCChunker.avgSize c) 0)
      as [Hb|Hb].
    + assert (ce = target) as ->.
      { destruct (Z.eq_dec ce target); [done|]. exfalso. apply (Hmid ce); [lia..|done]. }
      f_equal. lia.
    + assert (ce < target) as Hct.
      { destruct (Z.eq_dec ce target) as [->|]; [done|lia]. }
      rewrite (wrap64_id (ce + 1)) by (unfold is_int, min_int; lia).
      rewrite IH by (try done; lia).
      destruct (Z.ltb_spec (ce + 1) (len data)); [done|]. f_equal. lia.
Qed.

Lemma Chunk_iter_aligned pos :
  0 <= pos → pos < len data → CDC_aligned c pos →
  ∃ chunk, CDCChunker.Chunk_iter c data pos =
             Ok (chunk, Z.min (pos + CDC_stride c pos) (len data)) ∧
           len chunk = Z.min (pos + CDC_stride c pos) (len data) - pos ∧
           concat [chunk] ++ drop (Z.to_nat (Z.min (pos + CDC_stride c pos) (len data))) data
             = drop (Z.to_nat pos) data ∧
           CDC_aligned c (pos + CDC_stride c pos).
Proof.
  intros Hpos Hlt Hal. unfold CDCChunker.Chunk_iter.
  set (target := pos + CDC_stride c pos).
  assert (wrap64 (pos + CDCChunker.maxSize c) = pos + CDCChunker.maxSize c) as Hw.
  { apply wrap64_id. unfold is_int, min_int. lia. }
  rewrite (wrap64_id (pos + CDCChunker.minSize c)) by (unfold is_int, min_int; lia).
  assert (pos + CDCChunker.minSize c <= target ∧ target < pos + CDCChunker.maxSize c ∧
          (target - CDCChunker.minSize c) mod CDCChunker.avgSize c = 0 ∧
          (∀ x, pos + CDCChunker.minSize c <= x → x < target →
                (x - CDCChunker.minSize c) mod CDCChunker.avgSize c ≠ 0) ∧
          CDCChunker.minSize c <= target) as (Ht1 & Ht2 & Ht3 & Ht4 & Ht5).
  { unfold target, CDC_stride. destruct Hal as [->|[Hal1 Hal2]].
    - simpl. rewrite Z.sub_diag. split_and!; [lia|lia|by rewrite Z.mod_0_l by lia| |lia].
      intros x ? ?. lia.
    - destruct (Z.eqb_spec pos 0) as [->|Hne]; [lia|]. split_and!; [lia|lia| | |lia].
      + replace (pos + CDCChunker.avgSize c - CDCChunker.minSize c)
          with (pos - CDCChunker.minSize c + 1 * CDCChunker.avgSize c) by lia.
        by rewrite Z_mod_plus_full.
      + intros x Hx1 Hx2.
        apply Z.mod_divide in Hal2 as [k Hk]; [|lia].
        replace (x - CDCChunker.minSize c)
          with ((x - pos) + k * CDCChunker.avgSize c) by lia.
        rewrite Z_mod_plus_full, Z.mod_small; lia. }
  rewrite (scan_to_boundary _ pos target) by (try done; lia).
  set (e := if pos + CDCChunker.minSize c <? len data then Z.min target (len data)
            else pos + CDCChunker.minSize c).
  rewrite Hw.
  assert ((e >? pos + CDCChunker.maxSize c) = false) as ->.
  { rewrite Z.gtb_ltb. apply Z.ltb_ge. unfold e. destruct (_ <? _); lia. }
  assert ((if e >? len data then len data else e) = Z.min target (len data)) as ->.
  { unfold e. rewrite Z.gtb_ltb.
    destruct (Z.ltb_spec (pos + CDCChunker.minSize c) (len data)).
    - destruct (Z.ltb_spec (len data) (Z.min target (len data))); lia.
    - destruct (Z.ltb_spec (len data) (pos + CDCChunker.minSize c)); lia. }
  destruct (slice_is_Some data pos (Z.min target (len data))) as [chunk Hs]; [lia..|].
  rewrite Hs. exists chunk. apply slice_Some in Hs as (_ & _ & _ & Hchunk & Hclen).
  split_and!; [done|done| |].
  - simpl. rewrite app_nil_r, Hchunk.
    assert (drop (Z.to_nat (Z.min target (len data))) data =
            drop (Z.to_nat (Z.min target (len data) - pos)) (drop (Z.to_nat pos) data)) as ->.
    { rewrite drop_drop. f_equal. lia. }
    apply take_drop.
  - right. fold target. split; [lia|done].
Qed.

Lemma Chunk_loop_aligned fuel pos acc :
  0 <= pos → pos <= len data → (pos < len data → CDC_aligned c pos) →
  len data - pos <= Z.of_nat fuel →
  ∃ bs, CDCChunker.Chunk_loop c data fuel pos acc = Ok (acc ++ bs) ∧
        concat bs = drop (Z.to_nat pos) data ∧
        (pos = len data → bs = []) ∧
        ∀ (i : nat) (b : bytes), bs !! i = Some b → (i + 1 < length bs)%nat →
          len b = match i with O => CDC_stride c pos | S _ => CDCChunker.avgSize c end.
Proof.
  revert pos acc.
  assert (∀ acc, ∃ bs : list bytes, Ok acc = Ok (acc ++ bs) ∧
            concat bs = drop (Z.to_nat (len data)) data ∧ (len data = len data → bs = []) ∧
            ∀ (i : nat) (b : bytes), bs !! i = Some b → (i + 1 < length bs)%nat →
              len b = match i with O => CDC_stride c (len data)
                      | S _ => CDCChunker.avgSize c end) as Hend.
  { intros acc. exists []. rewrite app_nil_r. unfold len. rewrite Nat2Z.id, drop_all.
    split_and!; try done. }
  induction fuel as [|fuel IH]; intros pos acc Hpos Hle Hal Hfuel; simpl.
  - destruct (Z.ltb_spec pos (len data)); [lia|].
    assert (pos = len data) as -> by lia. apply Hend.
  - destruct (Z.ltb_spec pos (len data)) as [Hlt|Hge];
      [|assert (pos = len data) as -> by lia; apply Hend].
    destruct (Chunk_iter_aligned pos Hpos Hlt (Hal Hlt)) as (chunk & -> & Hclen & Hcat & Hal').
    set (e := Z.min (pos + CDC_stride c pos) (len data)) in *.
    assert (0 < CDC_stride c pos) as Hst by (unfold CDC_stride; destruct (_ =? _); lia).
    destruct (IH e (acc ++ [chunk])) as (bs & -> & Hc & Hnil & Hl); [lia|lia| |lia|].
    { intros He. replace e with (pos + CDC_stride c pos) by lia. done. }
    exists (chunk :: bs). split_and!.
    + by rewrite <- app_assoc.
    + simpl in *. rewrite Hc. by rewrite app_nil_r in Hcat.
    + lia.
    + intros [|k] b Hb Hk; simpl in *.
      * injection Hb as <-.
        assert (e ≠ len data) as Hne.
        { intros He. rewrite (Hnil He) in Hk. simpl in Hk. lia. }
        lia.
      * rewrite (Hl k b Hb) by lia. destruct k; [|done].
        unfold CDC_stride. destruct (Z.eqb_spec e 0); [lia|done].
Qed.

End CDC_cuts.

(** X2. [CDCChunker.Chunk] does not look at the content: whenever
    [len(data) + maxSize] stays within [int], a chunker made by
    [NewCDCChunker] returns, its blocks concatenate to the data, the first
    cut falls after exactly [minSize] bytes and every later cut exactly
    [avgSize] bytes after the one before; only the last block may be
    shorter. *)
Theorem CDC_Chunk_cuts_by_position `{Digest} (minSize avgSize maxSize : Z) (data : bytes) :
  maxSize <= max_int →
  let c := CDCChunker.NewCDCChunker minSize avgSize maxSize in
  len data + CDCChunker.maxSize c <= max_int →
  ∃ blocks,
    CDCChunker.Chunk_blocks c data = Ok blocks ∧
    CDCChunker.Chunk c data = Ok (map sha256_hex blocks) ∧
    concat blocks = data ∧
    ∀ (i : nat) (b : bytes), blocks !! i = Some b → (i + 1 < length blocks)%nat →
      len b = match i with O => CDCChunker.minSize c | S _ => CDCChunker.avgSize c end.
Proof.
  intros Hm c Hroom.
  destruct (NewCDCChunker_ordered minSize avgSize maxSize Hm) as (H1 & H2 & H3 & H4).
  fold c in H1, H2, H3, H4.
  assert (∃ blocks, CDCChunker.Chunk_blocks c data = Ok blocks ∧ concat blocks = data ∧
    ∀ (i : nat) (b : bytes), blocks !! i = Some b → (i + 1 < length blocks)%nat →
      len b = match i with O => CDCChunker.minSize c | S _ => CDCChunker.avgSize c end)
    as (blocks & Hb & Hc & Hl).
  { unfold CDCChunker.Chunk_blocks. destruct (Z.eqb_spec (len data) 0) as [H0|H0].
    - exists []. split_and!; [done| |done].
      symmetry. apply nil_length_inv. unfold len in H0. lia.
    - pose proof (len_nonneg data).
      destruct (Chunk_loop_aligned c data H1 H2 H3 Hroom (length data) 0 [])
        as (bs & Hr & Hc & _ & Hl); [lia|lia|by left|unfold len; lia|].
      exists bs. split_and!; [done|done|done]. }
  exists blocks. split_and!; try done.
  unfold CDCChunker.Chunk. by rewrite Hb.
Qed.

(** ** The two file fingerprints *)

Lemma string_app_cons (a : Ascii.ascii) (s1 s2 : string) :
  String a s1 +:+ s2 = String a (s1 +:+ s2).
Proof. reflexivity. Qed.

Lemma string_app_assoc (s1 s2 s3 : string) : (s1 +:+ s2) +:+ s3 = s1 +:+ (s2 +:+ s3).
Proof. induction s1 as [|a s1 IH]; [done|]. by rewrite !string_app_cons, IH. Qed.

Lemma string_app_nil_r (s : string) : s +:+ "" = s.
Proof. induction s as [|a s IH]; [done|]. by rewrite string_app_cons, IH. Qed.

Lemma foldl_string_app (l : list string) (acc : string) :
  foldl (λ concatenated hash, concatenated +:+ hash) acc l =
  acc +:+ foldl (λ concatenated hash, concatenated +:+ hash) "" l.
Proof.
  revert acc. induction l as [|h l IH]; intros acc; cbn [foldl].
  - by rewrite string_app_nil_r.
  - rewrite (IH (acc +:+ h)), (IH ("" +:+ h)). by rewrite string_app_assoc.
Qed.

Lemma foldl_string_app_app (l1 l2 : list string) :
  foldl (λ concatenated hash, concatenated +:+ hash) "" (l1 ++ l2) =
  foldl (λ concatenated hash, concatenated +:+ hash) "" l1 +:+
  foldl (λ concatenated hash, concatenated +:+ hash) "" l2.
Proof. rewrite foldl_app. apply foldl_string_app. Qed.

(** X3. [ReconstructFileHash] of the upload service and
    [ComputeFileMerkleHash] of the chunker package compute the same
    fingerprint for every list of block hashes, the empty one included, and
    neither fails.  The fingerprint is that of the hashes run together: it
    does not tell where one hash ends and the next begins. *)
Theorem ReconstructFileHash_ComputeFileMerkleHash {S R B : Type} `{Digest}
    (uploadID : string) (hashes l1 l2 : list string) (a b : string)
    (s : FileService.t S R B) :
  FileService.ReconstructFileHash uploadID hashes s = (ComputeFileMerkleHash hashes, s) ∧
  ComputeFileMerkleHash (l1 ++ [a; b] ++ l2) = ComputeFileMerkleHash (l1 ++ [a +:+ b] ++ l2).
Proof.
  assert (∀ l, ComputeFileMerkleHash l =
               Ok (sha256_hex (String.list_byte_of_string
                     (foldl (λ concatenated hash, concatenated +:+ hash) "" l)))) as Hc.
  { intros [|h l]; [done|]. unfold ComputeFileMerkleHash.
    destruct (Z.eqb_spec (len (h :: l)) 0) as [H0|]; [|done].
    unfold len in H0. simpl in H0. lia. }
  split.
  - by rewrite Hc.
  - rewrite !Hc. do 2 f_equal.
    rewrite !foldl_string_app_app. by do 2 f_equal.
Qed.

(** ** The in-memory block store *)

Lemma LocalBlockStore_eta (s : LocalBlockStore.t) :
  {| LocalBlockStore.blocks := LocalBlockStore.blocks s |} = s.
Proof. by destruct s. Qed.

Lemma len_eq_0 {A} (l : list A) : len l = 0 ↔ l = [].
Proof.
  unfold len. split; [|by intros ->].
  intros Hl. apply nil_length_inv. lia.
Qed.

Lemma LocalBlockStore_Put_Ok `{Digest} (data : bytes) (s : LocalBlockStore.t) :
  data ≠ [] →
  LocalBlockStore.Put data s =
  (Ok (sha256_hex data),
   {| LocalBlockStore.blocks := <[sha256_hex data := data]> (LocalBlockStore.blocks s) |}).
Proof.
  intros Hne. unfold LocalBlockStore.Put.
  destruct (Z.eqb_spec (len data) 0) as [H0|]; [|done]. by apply len_eq_0 in H0.
Qed.

(** X4. [LocalBlockStore.Put] refuses empty data and leaves the store as it
    was.  For any other data it returns the digest of the data; after it
    [Get] of that digest returns the data, [Exists] answers true and
    [GetSize] is the length of the data; a second [Put] of the same data
    changes nothing; and no other key of the store is touched. *)
Theorem LocalBlockStore_Put_Get_roundtrip `{Digest} (data : bytes) (s : LocalBlockStore.t) :
  LocalBlockStore.Put [] s = (Err "empty data", s) ∧
  (data ≠ [] →
   ∃ s', LocalBlockStore.Put data s = (Ok (sha256_hex data), s') ∧
     LocalBlockStore.Get (sha256_hex data) s' = (Ok data, s') ∧
     LocalBlockStore.Exists (sha256_hex data) s' = (Ok true, s') ∧
     LocalBlockStore.GetSize (sha256_hex data) s' = (Ok (len data), s') ∧
     LocalBlockStore.Put data s' = (Ok (sha256_hex data), s') ∧
     ∀ h, h ≠ sha256_hex data →
          LocalBlockStore.blocks s' !! h = LocalBlockStore.blocks s !! h).
Proof.
  split; [done|]. intros Hne. eexists. split; [by apply LocalBlockStore_Put_Ok|].
  unfold LocalBlockStore.Get, LocalBlockStore.Exists, LocalBlockStore.GetSize. simpl.
  rewrite lookup_insert_eq. split_and!; try done.
  - rewrite LocalBlockStore_Put_Ok by done. simpl. by rewrite insert_insert_eq.
  - intros h Hh. by rewrite lookup_insert_ne.
Qed.

(** X5. [LocalBlockStore.Delete] of a digest the store does not hold fails
    with "block not found" and changes nothing.  [Delete] of a digest the
    store holds removes that block and no other: afterwards [Exists]
    answers false and [Get] fails for it.  [Delete] undoes [Put]: putting
    data whose digest the store did not hold and deleting that digest gives
    back the very store. *)
Theorem LocalBlockStore_Delete_undoes_Put `{Digest} (data : bytes) (hash : string)
    (s : LocalBlockStore.t) :
  (LocalBlockStore.blocks s !! hash = None →
   LocalBlockStore.Delete hash s = (Err ("block not found: " +:+ hash), s)) ∧
  (is_Some (LocalBlockStore.blocks s !! hash) →
   ∃ s', LocalBlockStore.Delete hash s = (Ok (), s') ∧
     LocalBlockStore.Exists hash s' = (Ok false, s') ∧
     LocalBlockStore.Get hash s' = (Err ("block not found: " +:+ hash), s') ∧
     ∀ h, h ≠ hash → LocalBlockStore.blocks s' !! h = LocalBlockStore.blocks s !! h) ∧
  (data ≠ [] → LocalBlockStore.blocks s !! sha256_hex data = None →
   LocalBlockStore.Delete (sha256_hex data) (LocalBlockStore.Put data s).2 = (Ok (), s)).
Proof.
  split_and!.
  - intros Hn. unfold LocalBlockStore.Delete. by rewrite Hn.
  - intros [d Hd]. eexists. unfold LocalBlockStore.Delete. rewrite Hd. split; [done|].
    unfold LocalBlockStore.Exists, LocalBlockStore.Get. simpl.
    rewrite lookup_delete_eq. split_and!; try done.
    intros h Hh. by rewrite lookup_delete_ne.
  - intros Hne Hn. rewrite LocalBlockStore_Put_Ok by done.
    unfold LocalBlockStore.Delete. simpl. rewrite lookup_insert_eq.
    rewrite delete_insert_eq, delete_id by done. by rewrite LocalBlockStore_eta.
Qed.

Lemma foldl_wrap64_sum {A} (f : A → Z) (l : list A) (a : Z) :
  wrap64 (foldl (λ total x, wrap64 (total + f x)) a l) =
  wrap64 (a + foldr (λ x total, f x + total) 0 l).
Proof.
  revert a. induction l as [|x l IH]; intros a; simpl.
  - by rewrite Z.add_0_r.
  - rewrite IH, wrap64_add_l. f_equal. lia.
Qed.

Lemma foldl_wrap64_is_int {A} (f : A → Z) (l : list A) (a : Z) :
  is_int a → is_int (foldl (λ total x, wrap64 (total + f x)) a l).
Proof.
  revert a. induction l as [|x l IH]; intros a Ha; simpl; [done|].
  apply IH, wrap64_is_int.
Qed.

Lemma foldr_sum_Permutation {A} (f : A → Z) (l1 l2 : list A) :
  l1 ≡ₚ l2 →
  foldr (λ x total, f x + total) 0 l1 = foldr (λ x total, f x + total) 0 l2.
Proof. induction 1; simpl; lia. Qed.

Lemma Stats_total (range_blocks : gmap string bytes → list (string * bytes))
    (s : LocalBlockStore.t) :
  valid_map_range range_blocks →
  LocalBlockStore.Stats range_blocks s =
  (Z.of_nat (size (LocalBlockStore.blocks s)),
   wrap64 (foldr (λ kv total, len kv.2 + total) 0
             (map_to_list (LocalBlockStore.blocks s)))).
Proof.
  intros Hv. unfold LocalBlockStore.Stats. f_equal.
  rewrite <- (wrap64_id (foldl _ _ _)).
  - rewrite (foldl_wrap64_sum (λ kv : string * bytes, len kv.2)). simpl.
    f_equal. apply foldr_sum_Permutation, Hv.
  - apply (foldl_wrap64_is_int (λ kv : string * bytes, len kv.2)).
    unfold is_int, min_int, max_int. lia.
Qed.

(** X6. [LocalBlockStore.Stats] does not depend on the order in which the
    Go map is ranged over.  [Put] of data whose digest the store does not
    hold raises ["block_count"] by one and ["total_size"] by the length of
    the data (within [int64]); [Put] of data the store holds under its
    digest changes neither. *)
Theorem LocalBlockStore_Stats_Put `{Digest}
    (range1 range2 : gmap string bytes → list (string * bytes))
    (data : bytes) (s : LocalBlockStore.t) :
  valid_map_range range1 → valid_map_range range2 →
  LocalBlockStore.Stats range1 s = LocalBlockStore.Stats range2 s ∧
  (data ≠ [] → LocalBlockStore.blocks s !! sha256_hex data = None →
   LocalBlockStore.Stats range1 (LocalBlockStore.Put data s).2 =
   ((LocalBlockStore.Stats range1 s).1 + 1,
    wrap64 ((LocalBlockStore.Stats range1 s).2 + len data))) ∧
  (LocalBlockStore.blocks s !! sha256_hex data = Some data →
   LocalBlockStore.Stats range1 (LocalBlockStore.Put data s).2 =
   LocalBlockStore.Stats range1 s).
Proof.
  intros Hv1 Hv2. split_and!.
  - by rewrite !Stats_total.
  - intros Hne Hn. rewrite LocalBlockStore_Put_Ok by done.
    rewrite !Stats_total by done. simpl. f_equal.
    + rewrite map_size_insert_None by done. lia.
    + rewrite wrap64_add_l.
      rewrite (foldr_sum_Permutation _ _ _ (map_to_list_insert _ _ _ Hn)). simpl.
      f_equal. lia.
  - intros Hs. destruct data as [|b data].
    + done.
    + rewrite LocalBlockStore_Put_Ok by done. simpl.
      rewrite insert_id by done. by rewrite LocalBlockStore_eta.
Qed.

(** ** The Redis cache in front of a block store *)

Section RedisCache.
Context `{Digest}.

Ltac cache_ops :=
  unfold RedisBlockCache.Put, RedisBlockCache.Get, RedisBlockCache.Delete,
    RedisBlockCache.Exists, RedisBlockCache.GetSize, RedisBlockCache.InvalidateCache,
    RedisBlockCache.on_blockStore, RedisBlockCache.on_client, RedisBlockCache.getCacheKey,
    bind, wrapf, ignore_error, ret,
    redis.Get, redis.Set_, redis.Del, redis.Exists; cbn;
  unfold LocalBlockStore.Put, LocalBlockStore.Get, LocalBlockStore.Delete,
    LocalBlockStore.Exists, LocalBlockStore.GetSize; cbn.

Lemma getCacheKey_inj (c : RedisBlockCache.t LocalBlockStore.t) (h1 h2 : string) :
  RedisBlockCache.getCacheKey c h1 = RedisBlockCache.getCacheKey c h2 → h1 = h2.
Proof. unfold RedisBlockCache.getCacheKey. apply String.app_inj. Qed.

(** X7. While the Redis server is reachable, every operation of
    [RedisBlockCache] over a [LocalBlockStore] keeps the cache coherent
    with the store (a cached block is the block the store holds under that
    digest) and leaves the server reachable. *)
Theorem RedisBlockCache_keeps_coherence
    (c : RedisBlockCache.t LocalBlockStore.t) (data : bytes) (hash : string) :
  redis.reachable (RedisBlockCache.client c) = true → cache_coherent c →
  ∀ c', c' = (RedisBlockCache.Put data c).2 ∨ c' = (RedisBlockCache.Get hash c).2 ∨
        c' = (RedisBlockCache.Exists hash c).2 ∨ c' = (RedisBlockCache.Delete hash c).2 ∨
        c' = (RedisBlockCache.GetSize hash c).2 ∨
        c' = (RedisBlockCache.InvalidateCache hash c).2 →
    cache_coherent c' ∧ redis.reachable (RedisBlockCache.client c') = true.
Proof.
  destruct c as [[reach strs hs] [blks] pre]. simpl. intros -> Hco c' Hc'.
  unfold cache_coherent in *. unfold RedisBlockCache.getCacheKey in *. simpl in *.
  destruct Hc' as [->|[->|[->|[->|[->| ->]]]]].
  - cache_ops. destruct (len data =? 0); cbn; [by split|]. split; [|done].
    intros h d. destruct (decide (h = sha256_hex data)) as [->|Hne].
    + rewrite !lookup_insert_eq. done.
    + rewrite lookup_insert_ne by (intros Heq; by apply String.app_inj in Heq).
      rewrite lookup_insert_ne by done. apply Hco.
  - cache_ops. destruct (strs !! (pre +:+ hash)) as [v|] eqn:Hhit; cbn; [by split|].
    destruct (bool_decide _); cbn; destruct (blks !! hash) as [d|] eqn:Hb; cbn;
      (split; [|done]); try done.
    all: intros h d'; destruct (decide (h = hash)) as [->|Hne];
      [rewrite lookup_insert_eq; by intros [= <-]
      |rewrite lookup_insert_ne by (intros Heq; by apply String.app_inj in Heq); apply Hco].
  - cache_ops. destruct (_ || _); cbn; by split.
  - cache_ops. destruct (blks !! hash) as [d|] eqn:Hb; cbn; (split; [|done]); [|done].
    intros h d'. destruct (decide (h = hash)) as [->|Hne].
    + by rewrite lookup_delete_eq.
    + rewrite !lookup_delete_ne by
        (try done; intros Heq; by apply String.app_inj in Heq). apply Hco.
  - cache_ops. destruct (blks !! hash); cbn; by split.
  - cache_ops. split; [|done]. intros h d'.
    destruct (decide (h = hash)) as [->|Hne].
    + by rewrite lookup_delete_eq.
    + rewrite lookup_delete_ne by (intros Heq; by apply String.app_inj in Heq). apply Hco.
Qed.

(** X8. On a coherent cache [RedisBlockCache.Get] answers as the inner
    store does, whether the server is reachable or not and whether the
    block is cached or not: the block the store holds under the digest, or
    the wrapped "block not found" error when it holds none.  The inner
    store is not changed. *)
Theorem RedisBlockCache_Get_agrees_with_store
    (c : RedisBlockCache.t LocalBlockStore.t) (hash : string) :
  cache_coherent c →
  (RedisBlockCache.Get hash c).1 =
    match LocalBlockStore.blocks (RedisBlockCache.blockStore c) !! hash with
    | Some data => Ok data
    | None => Err ("block not found: block not found: " +:+ hash)
    end ∧
  RedisBlockCache.blockStore (RedisBlockCache.Get hash c).2 = RedisBlockCache.blockStore c.
Proof.
  destruct c as [[reach strs hs] [blks] pre]. intros Hco.
  unfold cache_coherent, RedisBlockCache.getCacheKey in Hco. simpl in Hco.
  cache_ops. destruct reach; cbn.
  - destruct (strs !! (pre +:+ hash)) as [v|] eqn:Hhit; cbn.
    + by rewrite (Hco _ _ Hhit).
    + destruct (bool_decide _); cbn; by destruct (blks !! hash).
  - by destruct (blks !! hash).
Qed.

(** X9. [RedisBlockCache.Delete] during an outage of the Redis server
    removes the block from the inner store, reports success and leaves the
    cached copy behind: once the server is reachable again, [Exists] and
    [Get] still serve the deleted block from the cache. *)
Theorem RedisBlockCache_Delete_during_outage
    (c : RedisBlockCache.t LocalBlockStore.t) (hash : string) (data : bytes) :
  redis.reachable (RedisBlockCache.client c) = false →
  cache_coherent c →
  redis.strings (RedisBlockCache.client c) !! RedisBlockCache.getCacheKey c hash = Some data →
  ∃ c', RedisBlockCache.Delete hash c = (Ok (), c') ∧
    LocalBlockStore.blocks (RedisBlockCache.blockStore c') !! hash = None ∧
    RedisBlockCache.Get hash (cache_restored c') = (Ok data, cache_restored c') ∧
    RedisBlockCache.Exists hash (cache_restored c') = (Ok true, cache_restored c').
Proof.
  destruct c as [[reach strs hs] [blks] pre]. simpl. intros -> Hco Hhit.
  pose proof (Hco _ _ Hhit) as Hb. unfold RedisBlockCache.getCacheKey in Hhit.
  simpl in Hb, Hhit. eexists. split.
  { cache_ops. rewrite Hb. cbn. reflexivity. }
  unfold cache_restored. cbn. rewrite lookup_delete_eq. split; [done|].
  cache_ops. rewrite Hhit. cbn. done.
Qed.

End RedisCache.

Section CachedStore.
Context {S : Type} {BS : BlockStore.t S}.

Lemma cachedBlockStore_eta (c : cachedBlockStore.t S) :
  {| cachedBlockStore.local := cachedBlockStore.local c;
     cachedBlockStore.redisClient := cachedBlockStore.redisClient c;
     cachedBlockStore.cacheKeyPrefix := cachedBlockStore.cacheKeyPrefix c |} = c.
Proof. by destruct c. Qed.

(** X10. While the Redis server is unreachable, [Put], [Get], [Delete] and
    [GetSize] of [cachedBlockStore] behave exactly as the inner store's:
    the same result, the same change of the inner store, no error from the
    cache (whereas [Exists] fails). *)
Theorem cachedBlockStore_outage_falls_through
    (c : cachedBlockStore.t S) (data : bytes) (hash : string) :
  redis.reachable (cachedBlockStore.redisClient c) = false →
  cachedBlockStore.Put data c = cachedBlockStore.on_local (BlockStore.Put data) c ∧
  cachedBlockStore.Get hash c = cachedBlockStore.on_local (BlockStore.Get hash) c ∧
  cachedBlockStore.Delete hash c = cachedBlockStore.on_local (BlockStore.Delete hash) c ∧
  cachedBlockStore.GetSize hash c = cachedBlockStore.on_local (BlockStore.GetSize hash) c ∧
  cachedBlockStore.Exists hash c = (Err redis.unreachable, c).
Proof.
  destruct c as [l [reach strs hs] pre]. simpl. intros ->.
  unfold cachedBlockStore.Put, cachedBlockStore.Get, cachedBlockStore.Delete,
    cachedBlockStore.GetSize, cachedBlockStore.Exists, cachedBlockStore.on_local,
    cachedBlockStore.on_redisClient, bind, ignore_error, ret,
    redis.SetEx, redis.Set_, redis.Get, redis.Del, redis.Exists. cbn.
  split_and!; try done.
  - by destruct (BlockStore.Put data l) as [[]].
  - by destruct (BlockStore.Get hash l) as [[]].
Qed.

End CachedStore.

(** ** Integrity checks and downloads *)

Section Integrity.
Context {R B : Type} `{Digest} {FR : FileRepository.t R} {BR : BlockRepository.t B}.

Lemma FileService_eta {S : Type} (s : FileService.t S R B) :
  {| FileService.blockStore := FileService.blockStore s;
     FileService.fileRepo := FileService.fileRepo s;
     FileService.blockRepo := FileService.blockRepo s;
     FileService.chunker := FileService.chunker s;
     FileService.redisClient := FileService.redisClient s |} = s.
Proof. by destruct s. Qed.

Lemma CheckIntegrity_loop_local (hs : list string) (s : FileService.t LocalBlockStore.t R B) :
  FileService.CheckIntegrity_loop hs s =
  (Ok (forallb (λ h, bool_decide
                      (is_Some (LocalBlockStore.blocks (FileService.blockStore s) !! h))) hs),
   s).
Proof.
  induction hs as [|h hs IH]; [done|]. cbn [FileService.CheckIntegrity_loop forallb].
  unfold FileService.on_blockStore. cbn. unfold LocalBlockStore.Exists. cbn.
  rewrite FileService_eta. destruct (bool_decide _); [apply IH|done].
Qed.

Lemma DownloadFile_loop_local (hs : list string) (acc : bytes)
    (s : FileService.t LocalBlockStore.t R B) :
  (∃ data, FileService.DownloadFile_loop hs acc s = (Ok data, s)) ↔
  Forall (λ h, is_Some (LocalBlockStore.blocks (FileService.blockStore s) !! h)) hs.
Proof.
  revert acc. induction hs as [|h hs IH]; intros acc.
  - split; [done|]. intros _. by exists acc.
  - cbn [FileService.DownloadFile_loop].
    unfold bind, wrapf, FileService.on_blockStore. cbn. unfold LocalBlockStore.Get.
    destruct (LocalBlockStore.blocks (FileService.blockStore s) !! h) as [d|] eqn:Hd;
      rewrite FileService_eta.
    + rewrite IH. split; [by constructor; eauto|]. by intros [_ ?]%Forall_cons.
    + split; [by intros [? [=]]|]. intros [[x Hx] _]%Forall_cons. congruence.
Qed.

Lemma CheckIntegrity_local
    (s : FileService.t LocalBlockStore.t R B) (fileHash : string) (F : File.t)
    (blockHashes : list string) :
  FileRepository.GetFileByHash fileHash (FileService.fileRepo s)
    = (Ok (Some F), FileService.fileRepo s) →
  File.BlockIDs F = JSONStrings blockHashes →
  FileService.CheckIntegrity fileHash s =
    (Ok (bool_decide
           (Forall (λ h, is_Some (LocalBlockStore.blocks (FileService.blockStore s) !! h))
                   blockHashes)), s).
Proof.
  intros Hget Hids.
  unfold FileService.CheckIntegrity, bind, wrapf, FileService.on_fileRepo.
  rewrite Hget, FileService_eta, Hids. cbn. rewrite CheckIntegrity_loop_local.
  do 2 f_equal. clear. induction blockHashes as [|h hs IH]; [done|].
  cbn [forallb]. rewrite IH. apply eq_true_iff_eq.
  by rewrite andb_true_iff, !bool_decide_eq_true, Forall_cons.
Qed.

(** X11. On a [LocalBlockStore], for a file record [F] that the file
    repository returns, [CheckIntegrity] answers true exactly when every
    block hash listed in [F.BlockIDs] is a key of the block store, and it
    answers true exactly when [DownloadFile] of the same hash succeeds.
    [CheckIntegrity] leaves the service as it was, and so does a
    [DownloadFile] that succeeds. *)
Theorem CheckIntegrity_iff_DownloadFile
    (s : FileService.t LocalBlockStore.t R B) (fileHash : string) (F : File.t)
    (blockHashes : list string) :
  FileRepository.GetFileByHash fileHash (FileService.fileRepo s)
    = (Ok (Some F), FileService.fileRepo s) →
  File.BlockIDs F = JSONStrings blockHashes →
  FileService.CheckIntegrity fileHash s =
    (Ok (bool_decide
           (Forall (λ h, is_Some (LocalBlockStore.blocks (FileService.blockStore s) !! h))
                   blockHashes)), s) ∧
  (FileService.CheckIntegrity fileHash s = (Ok true, s) ↔
   ∃ data, FileService.DownloadFile fileHash s = (Ok data, s)).
Proof.
  intros Hget Hids. pose proof (CheckIntegrity_local s fileHash F blockHashes Hget Hids) as Hci.
  split; [done|]. rewrite Hci.
  unfold FileService.DownloadFile, bind, wrapf, FileService.on_fileRepo.
  rewrite Hget, FileService_eta, Hids. cbn.
  rewrite (DownloadFile_loop_local blockHashes [] s).
  split.
  - intros [= Hb]. by apply bool_decide_eq_true in Hb.
  - intros Hall. by rewrite bool_decide_eq_true_2.
Qed.

(** X15. [CheckIntegrity] turns an error of the block store into the
    answer "not intact": over a [cachedBlockStore] whose Redis server is
    unreachable it answers [false] without an error for every file that
    lists a block, whatever the inner store holds. *)
Theorem CheckIntegrity_during_cache_outage {S : Type} {BS : BlockStore.t S}
    (s : FileService.t (cachedBlockStore.t S) R B) (fileHash : string) (F : File.t)
    (blockHash : string) (rest : list string) :
  redis.reachable (cachedBlockStore.redisClient (FileService.blockStore s)) = false →
  (FileRepository.GetFileByHash fileHash (FileService.fileRepo s)).1 = Ok (Some F) →
  File.BlockIDs F = JSONStrings (blockHash :: rest) →
  (FileService.CheckIntegrity fileHash s).1 = Ok false.
Proof.
  intros Hdown Hget Hids.
  unfold FileService.CheckIntegrity, bind, wrapf, FileService.on_fileRepo.
  destruct (FileRepository.GetFileByHash fileHash (FileService.fileRepo s)) as [r fr].
  simpl in Hget. subst r. rewrite Hids. cbn.
  unfold FileService.on_blockStore. cbn.
  unfold cachedBlockStore.Exists, redis.Exists. by rewrite Hdown.
Qed.

End Integrity.

Section MemIntegrity.
Context `{Digest} `{MockFileRepository.MapRange}.

(** X12. On the in-memory stack [UploadFile] of non-empty data of up to
    [max_int / 2] bytes succeeds, and [CheckIntegrity] of the hash of the
    record it returns answers true on the state it leaves: every block it
    lists has been stored.  No assumption on the digest is needed. *)
Theorem UploadFile_then_CheckIntegrity
    (blockSize : Z) (fileName : string) (X : bytes) (s : MemService) :
  blockSize <= max_int → 2 * len X <= max_int → X ≠ [] →
  FileService.chunker s = FixedSize (FixedSizeChunker.NewFixedSizeChunker blockSize) →
  ∃ F s', FileService.UploadFile fileName X s = (Ok F, s') ∧
          FileService.CheckIntegrity (File.Hash F) s' = (Ok true, s').
Proof.
  intros Hb Hlen Hne Hc. pose proof (len_nonneg X) as Hnn.
  destruct (NewFixedSizeChunker_blockSize blockSize Hb) as [Hpos Hmax].
  destruct (Fixed_Chunk_blocks_total _ X Hpos Hmax Hlen) as [bl Hbl].
  destruct (UploadFile_spec _ fileName X bl s Hpos Hmax ltac:(lia) Hc Hne Hbl)
    as (Hcat & Hf & Hup).
  eexists _, _. split; [exact Hup|].
  rewrite (CheckIntegrity_local _ _ (uploaded_file fileName X bl) (map sha256_hex bl)).
  - do 2 f_equal. apply bool_decide_eq_true_2, Forall_forall. intros h Hh.
    apply list_elem_of_fmap in Hh as (b & -> & Hb'). simpl.
    destruct (put_all_lookup_elem bl
                (LocalBlockStore.blocks (FileService.blockStore s)) b Hb')
      as (b' & _ & _ & ->). eauto.
  - simpl. unfold MockFileRepository.GetFileByHash. simpl. by rewrite lookup_insert_eq.
  - done.
Qed.

(** X17. The record that a successful [UploadFile] returns on the
    in-memory stack has the name given, the length of the data as its size,
    the primary key 0, the hash ["hash_<length>"], and as its block list
    exactly the hashes that the chunker's [Chunk] returns for the data:
    the service, which cuts the data a second time, agrees with it. *)
Theorem UploadFile_record
    (blockSize : Z) (fileName : string) (X : bytes) (s s' : MemService) (F : File.t) :
  blockSize <= max_int → len X <= max_int →
  FileService.chunker s = FixedSize (FixedSizeChunker.NewFixedSizeChunker blockSize) →
  FileService.UploadFile fileName X s = (Ok F, s') →
  File.Name F = fileName ∧ File.Size F = len X ∧ File.ID F = 0%N ∧
  File.Hash F = "hash_" +:+ pretty (len X) ∧
  ∃ hashes,
    FixedSizeChunker.Chunk (FixedSizeChunker.NewFixedSizeChunker blockSize) X = Ok hashes ∧
    File.BlockIDs F = json_Marshal hashes ∧
    MockFileRepository.files (FileService.fileRepo s') !! File.Hash F = Some F.
Proof.
  intros Hb Hlen Hc Hup.
  apply (UploadFile_Ok_inv blockSize) in Hup as (bl & Hbl & Hcat & Hne & -> & ->); [|done..].
  split_and!; try done. exists (map sha256_hex bl). split_and!.
  - unfold FixedSizeChunker.Chunk. by rewrite Hbl.
  - done.
  - simpl. by rewrite lookup_insert_eq.
Qed.

(** X18. The file hash is the length of the data and nothing else: when a
    second file of the same length is uploaded on the in-memory stack, it
    takes the place of the first under the same hash, and [DownloadFile] of
    the hash of the first file returns the content of the second (the
    digest having no collision among the blocks of the second). *)
Theorem UploadFile_same_length_shadows
    (blockSize : Z) (name1 name2 : string) (X Y : bytes) (s : MemService) :
  blockSize <= max_int → 2 * len X <= max_int → X ≠ [] → len Y = len X →
  FileService.chunker s = FixedSize (FixedSizeChunker.NewFixedSizeChunker blockSize) →
  (∀ bl, FixedSizeChunker.Chunk_blocks (FixedSizeChunker.NewFixedSizeChunker blockSize) Y
         = Ok bl → collision_free bl) →
  ∃ F1 s1 F2 s2,
    FileService.UploadFile name1 X s = (Ok F1, s1) ∧
    FileService.UploadFile name2 Y s1 = (Ok F2, s2) ∧
    File.Hash F2 = File.Hash F1 ∧
    MockFileRepository.files (FileService.fileRepo s2) !! File.Hash F1 = Some F2 ∧
    FileService.DownloadFile (File.Hash F1) s2 = (Ok Y, s2).
Proof.
  intros Hb Hlen Hne HY Hc Hcf. pose proof (len_nonneg X) as Hnn.
  destruct (NewFixedSizeChunker_blockSize blockSize Hb) as [Hpos Hmax].
  destruct (Fixed_Chunk_blocks_total _ X Hpos Hmax Hlen) as [blX HblX].
  destruct (UploadFile_spec _ name1 X blX s Hpos Hmax ltac:(lia) Hc Hne HblX)
    as (HcatX & HfX & HupX).
  assert (Y ≠ []) as HneY.
  { intros ->. apply Hne. apply len_eq_0. by rewrite <- HY. }
  destruct (Fixed_Chunk_blocks_total _ Y Hpos Hmax ltac:(lia)) as [blY HblY].
  set (s1 := after_create (uploaded_file name1 X blX) (after_upload blX s)) in *.
  destruct (UploadFile_spec _ name2 Y blY s1 Hpos Hmax ltac:(lia) Hc HneY HblY)
    as (HcatY & HfY & HupY).
  eexists _, _, _, _. split; [exact HupX|]. split; [exact HupY|].
  assert (File.Hash (uploaded_file name2 Y blY) = File.Hash (uploaded_file name1 X blX))
    as Hh by (simpl; unfold calculateFileHash; by rewrite HY).
  split; [done|]. rewrite <- Hh. split.
  - simpl. by rewrite lookup_insert_eq.
  - unfold FileService.DownloadFile, bind, wrapf, FileService.on_fileRepo. simpl.
    rewrite lookup_insert_eq. simpl.
    rewrite DownloadFile_loop_spec.
    + by rewrite HcatY.
    + intros b Hbin. simpl. apply put_all_lookup; [by apply Hcf|done].
Qed.

End MemIntegrity.

(** ** Unknown hashes and missing rows *)

Lemma least_with_hash_None (hash : string) (rows : gmap N File.t) :
  (∀ id f, rows !! id = Some f → File.Hash f ≠ hash) →
  fileRepository.least_with_hash hash rows = None.
Proof.
  intros Hno. unfold fileRepository.least_with_hash.
  assert (∀ kv, kv ∈ map_to_list rows → File.Hash kv.2 ≠ hash) as Hall.
  { intros [id f] Hin%elem_of_map_to_list. by apply (Hno id f). }
  induction (map_to_list rows) as [|kv l IH]; [done|]. simpl.
  rewrite IH by (intros kv' Hkv'; apply Hall; by right).
  destruct (String.eqb_spec (File.Hash kv.2) hash) as [E|]; [|done].
  exfalso. apply (Hall kv); [by left|done].
Qed.

(** X13. For a hash that the file repository does not hold, the service
    behaves differently on the two repositories.  On [MockFileRepository],
    which answers [(nil, nil)], [FileService.GetFileByHash] returns a nil
    record without an error and [DownloadFile], [CheckIntegrity] and
    [DeleteFile] panic on the nil record.  On the GORM repository, which
    answers an error, each of the four returns that error wrapped.  In both
    cases the service is left as it was. *)
Theorem unknown_hash_mock_panics_gorm_fails {S1 B1 S2 B2 : Type}
    `{MockFileRepository.MapRange}
    {BS1 : BlockStore.t S1} {BR1 : BlockRepository.t B1}
    {BS2 : BlockStore.t S2} {BR2 : BlockRepository.t B2}
    (m : FileService.t S1 MockFileRepository.t B1)
    (g : FileService.t S2 fileRepository.t B2) (fileHash : string) :
  MockFileRepository.files (FileService.fileRepo m) !! fileHash = None →
  (∀ id f, fileRepository.rows (FileService.fileRepo g) !! id = Some f →
           File.Hash f ≠ fileHash) →
  (FileService.GetFileByHash fileHash m = (Ok None, m) ∧
   FileService.DownloadFile fileHash m = (Panic, m) ∧
   FileService.CheckIntegrity fileHash m = (Panic, m) ∧
   FileService.DeleteFile fileHash m = (Panic, m)) ∧
  (FileService.GetFileByHash fileHash g =
     (Err ("failed to get file by hash: file not found: " +:+ fileHash), g) ∧
   FileService.DownloadFile fileHash g =
     (Err ("failed to get file: file not found: " +:+ fileHash), g) ∧
   FileService.CheckIntegrity fileHash g =
     (Err ("file not found: file not found: " +:+ fileHash), g) ∧
   FileService.DeleteFile fileHash g =
     (Err ("failed to get file: file not found: " +:+ fileHash), g)).
Proof.
  intros Hm Hg. split.
  - unfold FileService.GetFileByHash, FileService.DownloadFile, FileService.CheckIntegrity,
      FileService.DeleteFile, bind, wrapf, FileService.on_fileRepo, FileService.panic. cbn.
    unfold MockFileRepository.GetFileByHash. rewrite Hm. cbn.
    by destruct m.
  - apply least_with_hash_None in Hg.
    unfold FileService.GetFileByHash, FileService.DownloadFile, FileService.CheckIntegrity,
      FileService.DeleteFile, bind, wrapf, FileService.on_fileRepo, FileService.panic. cbn.
    unfold fileRepository.GetFileByHash, fileRepository.First. rewrite Hg. cbn.
    by destruct g.
Qed.

Section GormUpload.
Context {S R B : Type} `{Digest}.
Context {BS : BlockStore.t S} {FR : FileRepository.t R} {BR : BlockRepository.t B}.

(** The upload loop has no call into the file repository. *)
Lemma UploadFile_loop_fileRepo (n : nat) (data : bytes) (blockSize pos : Z)
    (hacc : list string) (s : FileService.t S R B) :
  FileService.fileRepo (FileService.UploadFile_loop n data blockSize pos hacc s).2 =
  FileService.fileRepo s.
Proof.
  revert pos hacc s. induction n as [|n IH]; intros pos hacc s; [done|].
  cbn [FileService.UploadFile_loop].
  destruct (slice data pos _) as [chunk|]; [|done].
  unfold bind, wrapf, FileService.on_blockStore, FileService.on_blockRepo.
  destruct (BlockStore.Put chunk (FileService.blockStore s)) as [[h| | |] bs']; try done.
  cbn.
  destruct (BlockRepository.IncrementRefCount h 1 (FileService.blockRepo s))
    as [[[]| | |] br']; try done.
  by rewrite IH.
Qed.

End GormUpload.

(** X14. The GORM file table carries a unique index on [uuid], and
    [UploadFile] leaves the UUID of the record it creates empty.  So on the
    GORM file repository, over any block store and block repository, no
    [UploadFile] succeeds on a table that holds a row with the empty UUID,
    and a successful [UploadFile] leaves such a row: the uploads that
    follow it fail. *)
Theorem UploadFile_gorm_succeeds_once {S B : Type} `{Digest}
    {BS : BlockStore.t S} {BR : BlockRepository.t B}
    (s s' : FileService.t S fileRepository.t B) (fileName : string) (data : bytes)
    (F : File.t) :
  (fileRepository.uuid_taken "" (FileService.fileRepo s) = true →
   ∀ F0, (FileService.UploadFile fileName data s).1 ≠ Ok F0) ∧
  (FileService.UploadFile fileName data s = (Ok F, s') →
   fileRepository.uuid_taken "" (FileService.fileRepo s') = true ∧
   ∀ fileName' data' F', (FileService.UploadFile fileName' data' s').1 ≠ Ok F').
Proof.
  assert (∀ (s0 : FileService.t S fileRepository.t B) fileName0 data0,
    fileRepository.uuid_taken "" (FileService.fileRepo s0) = true →
    ∀ F0, (FileService.UploadFile fileName0 data0 s0).1 ≠ Ok F0) as Hfail.
  { intros s0 fileName0 data0 Htaken F0. unfold FileService.UploadFile.
    destruct (len data0 =? 0); [done|].
    destruct (FileService.chunker s0) as [c|c]; [|done].
    destruct (FixedSizeChunker.Chunk c data0) as [chunks| | |]; try done.
    unfold bind.
    pose proof (UploadFile_loop_fileRepo (length chunks) data0
                  (FixedSizeChunker.ChunkSize c) 0 [] s0) as Hfr.
    destruct (FileService.UploadFile_loop (length chunks) data0
                (FixedSizeChunker.ChunkSize c) 0 [] s0) as [[hs| | |] s1]; try done.
    simpl in Hfr. unfold wrapf, FileService.on_fileRepo. cbn.
    unfold fileRepository.CreateFile, wrapf, fileRepository.Create. cbn.
    rewrite Hfr, Htaken. done. }
  split; [apply Hfail|].
  intros Hup.
  assert (fileRepository.uuid_taken "" (FileService.fileRepo s') = true) as Htaken.
  { revert Hup. unfold FileService.UploadFile.
    destruct (len data =? 0); [done|].
    destruct (FileService.chunker s) as [c|c]; [|done].
    destruct (FixedSizeChunker.Chunk c data) as [chunks| | |]; try done.
    unfold bind.
    destruct (FileService.UploadFile_loop (length chunks) data
                (FixedSizeChunker.ChunkSize c) 0 [] s) as [[hs| | |] s1]; try done.
    unfold wrapf, FileService.on_fileRepo. cbn.
    unfold fileRepository.CreateFile, wrapf, fileRepository.Create. cbn.
    destruct (fileRepository.uuid_taken "" (FileService.fileRepo s1)); [done|].
    destruct (bool_decide _); [done|].
    intros [= <- <-]. cbn. unfold fileRepository.uuid_taken. cbn.
    apply existsb_exists. eexists (_, _). split.
    - apply list_elem_of_In, elem_of_map_to_list, lookup_insert_eq.
    - done. }
  split; [done|]. intros fileName' data' F'. by apply Hfail.
Qed.

(** X16. [UploadFile] never creates a block row, and the GORM block
    repository refuses to count a reference for a digest without a row.
    So over a [LocalBlockStore] and the GORM block repository, when the
    table has no row for the digest of the first block of the data, the
    upload fails with the wrapped "record not found" error after having
    stored that one block: the block store keeps it, no file record is
    made and the table is unchanged. *)
Theorem UploadFile_gorm_missing_block_row {R : Type} `{Digest} {FR : FileRepository.t R}
    (s : FileService.t LocalBlockStore.t R blockRepository.t)
    (blockSize : Z) (fileName : string) (data : bytes) :
  blockSize <= max_int → 2 * len data <= max_int → data ≠ [] →
  FileService.chunker s = FixedSize (FixedSizeChunker.NewFixedSizeChunker blockSize) →
  let first :=
    take (Z.to_nat (FixedSizeChunker.ChunkSize
                      (FixedSizeChunker.NewFixedSizeChunker blockSize))) data in
  blockRepository.rows (FileService.blockRepo s) !! sha256_hex first = None →
  FileService.UploadFile fileName data s =
  (Err "failed to increment block ref count: failed to find block: record not found",
   {| FileService.blockStore :=
        {| LocalBlockStore.blocks :=
             <[sha256_hex first := first]>
               (LocalBlockStore.blocks (FileService.blockStore s)) |};
      FileService.fileRepo := FileService.fileRepo s;
      FileService.blockRepo := FileService.blockRepo s;
      FileService.chunker := FileService.chunker s;
      FileService.redisClient := FileService.redisClient s |}).
Proof.
  intros Hb Hlen Hne Hc first Hrow. pose proof (len_nonneg data) as Hnn.
  destruct (NewFixedSizeChunker_blockSize blockSize Hb) as [Hpos Hmax].
  set (c := FixedSizeChunker.NewFixedSizeChunker blockSize) in *.
  destruct (Fixed_Chunk_blocks_total c data Hpos Hmax Hlen) as [bl Hbl].
  assert (bl ≠ []) as Hblne.
  { intros ->. unfold FixedSizeChunker.Chunk_blocks in Hbl.
    destruct (Z.eqb_spec (len data) 0) as [H0|H0]; [by apply len_eq_0 in H0|].
    apply Fixed_Chunk_loop_shape in Hbl as (bl' & Hbl' & (Hcat & _) & _); [|done|done|lia|lia].
    simpl in Hbl'. subst bl'. simpl in Hcat. by rewrite drop_0 in Hcat. }
  unfold FileService.UploadFile.
  destruct (Z.eqb_spec (len data) 0) as [H0|H0]; [by apply len_eq_0 in H0|].
  rewrite Hc. unfold FixedSizeChunker.Chunk. rewrite Hbl. cbn [rmap].
  rewrite length_map. destruct bl as [|b0 bl]; [done|]. cbn [length].
  unfold bind at 1. cbn [FileService.UploadFile_loop].
  unfold FixedSizeChunker.ChunkSize in *. fold c.
  rewrite Z.add_0_l. rewrite (wrap64_id (FixedSizeChunker.blockSize c))
    by (unfold is_int, min_int; lia).
  set (e := if FixedSizeChunker.blockSize c >? len data then len data
            else FixedSizeChunker.blockSize c).
  assert (0 < e ∧ e <= len data ∧
          take (Z.to_nat e) data = first) as (He1 & He2 & He3).
  { unfold e, first. rewrite Z.gtb_ltb.
    destruct (Z.ltb_spec (len data) (FixedSizeChunker.blockSize c)).
    - split_and!; [lia|lia|]. rewrite !take_ge; [done|unfold len in *; lia..].
    - split_and!; [lia|lia|done]. }
  assert (slice data 0 e = Some first) as ->.
  { unfold slice. destruct (Z.leb_spec 0 0); [|lia]. destruct (Z.leb_spec 0 e); [|lia].
    destruct (Z.leb_spec e (len data)); [|lia]. cbn. rewrite Z.sub_0_r, drop_0.
    by rewrite He3. }
  assert (first ≠ []) as Hfne.
  { rewrite <- He3. intros Ht. apply (f_equal length) in Ht.
    rewrite length_take in Ht. unfold len in *. simpl in Ht. lia. }
  unfold bind, wrapf, FileService.on_blockStore, FileService.on_blockRepo. cbn.
  rewrite LocalBlockStore_Put_Ok by done. cbn.
  unfold blockRepository.IncrementRefCount, bind, wrapf, blockRepository.First. cbn.
  rewrite Hrow. cbn. rewrite <- Hc. reflexivity.
Qed.

(** ** Deleting by primary key on the mock repository *)

Section MockDelete.
Context {S : Type} {BS : BlockStore.t S} `{MockFileRepository.MapRange}.

Lemma DeleteFile_loop_mock (hs : list string)
    (s : FileService.t S MockFileRepository.t MockBlockRepository.t) :
  ∃ s', FileService.DeleteFile_loop hs s = (Ok (), s') ∧
        FileService.blockStore s' = FileService.blockStore s ∧
        FileService.fileRepo s' = FileService.fileRepo s.
Proof.
  revert s. induction hs as [|h hs IH]; intros s; [by exists s|].
  cbn [FileService.DeleteFile_loop].
  unfold bind, ignore_error, FileService.on_blockRepo. cbn.
  unfold MockBlockRepository.DecrementBlockRefCount.
  destruct (MockBlockRepository.blocks (FileService.blockRepo s) !! h); cbn;
    match goal with |- context [FileService.DeleteFile_loop hs ?s0] =>
      destruct (IH s0) as (s' & -> & ? & ?) end; eauto.
Qed.

(** X19. [MockFileRepository.DeleteFile] looks for the primary key, and
    [MockFileRepository.CreateFile] never assigns one.  For a file [F] held
    under [fileHash], [FileService.DeleteFile(fileHash)] on the mock
    repositories succeeds and removes exactly one record: the first one,
    in the order in which the map is ranged over, whose primary key equals
    that of [F].  It is the record of [F] when no other record shares the
    key.  The block store is not touched. *)
Theorem Mock_DeleteFile_removes_by_ID
    (s : FileService.t S MockFileRepository.t MockBlockRepository.t)
    (fileHash : string) (F : File.t) (blockHashes : list string) :
  valid_map_range MockFileRepository.range_files →
  MockFileRepository.files (FileService.fileRepo s) !! fileHash = Some F →
  File.BlockIDs F = JSONStrings blockHashes →
  ∃ s' hash' F',
    FileService.DeleteFile fileHash s = (Ok (), s') ∧
    List.find (λ kv, bool_decide (File.ID kv.2 = File.ID F))
      (MockFileRepository.range_files (MockFileRepository.files (FileService.fileRepo s)))
      = Some (hash', F') ∧
    MockFileRepository.files (FileService.fileRepo s) !! hash' = Some F' ∧
    File.ID F' = File.ID F ∧
    MockFileRepository.files (FileService.fileRepo s') =
      delete hash' (MockFileRepository.files (FileService.fileRepo s)) ∧
    FileService.blockStore s' = FileService.blockStore s ∧
    ((∀ h2 F2, MockFileRepository.files (FileService.fileRepo s) !! h2 = Some F2 →
               File.ID F2 = File.ID F → h2 = fileHash) → hash' = fileHash).
Proof.
  intros Hv HF Hids.
  unfold FileService.DeleteFile, bind at 1, wrapf at 1, FileService.on_fileRepo at 1. cbn.
  unfold MockFileRepository.GetFileByHash. rewrite HF. cbn.
  unfold bind at 1, wrapf at 1. rewrite Hids. cbn. unfold bind at 1.
  rewrite FileService_eta.
  destruct (DeleteFile_loop_mock blockHashes s) as (s1 & -> & Hbs & Hfr).
  unfold wrapf, FileService.on_fileRepo. cbn. unfold MockFileRepository.DeleteFile.
  rewrite Hfr.
  destruct (List.find _ _) as [[hash' F']|] eqn:Hfind.
  - pose proof Hfind as Hfind'.
    apply find_some in Hfind as [Hin Hid]. apply bool_decide_eq_true in Hid. simpl in Hid.
    apply list_elem_of_In in Hin. rewrite (Hv _) in Hin. apply elem_of_map_to_list in Hin.
    eexists _, hash', F'. split; [done|]. cbn. split_and!; try done.
    intros Huniq. by apply (Huniq hash' F').
  - exfalso. pose proof (find_none _ _ Hfind (fileHash, F)) as Hnone.
    rewrite bool_decide_eq_false in Hnone. apply Hnone; [|done].
    apply list_elem_of_In. rewrite (Hv _). by apply elem_of_map_to_list.
Qed.

End MockDelete.

(** ** Change detection *)

Lemma foldl_cond_snoc {A C : Type} (q : A → bool) (g : A → C) (l : list A) (acc : list C) :
  foldl (λ acc x, if q x then acc ++ [g x] else acc) acc l =
  acc ++ map g (filter (λ x, q x = true) l).
Proof.
  revert acc. induction l as [|x l IH]; intros acc; cbn [foldl].
  - by rewrite app_nil_r.
  - rewrite IH, filter_cons. destruct (q x) eqn:E.
    + rewrite decide_True by done. cbn. by rewrite <- app_assoc.
    + by rewrite decide_False by congruence.
Qed.

Lemma foldl_pointwise {A C : Type} (f g : C → A → C) (l : list A) (acc : C) :
  (∀ acc x, f acc x = g acc x) → foldl f acc l = foldl g acc l.
Proof.
  intros Hfg. revert acc. induction l as [|x l IH]; intros acc; cbn [foldl]; [done|].
  by rewrite Hfg, IH.
Qed.

(** X20. [DetectChanges] compares the two maps by key only.  Whatever the
    order in which Go ranges over them, [Added] holds, once each, the
    records of the new map whose key the old map lacks, [Deleted] the
    primary keys of the records of the old map whose key the new map
    lacks, and [Modified] is always empty.  When the two maps have the
    same keys nothing is reported, however the records under them differ. *)
Theorem DetectChanges_by_key
    (range_files : gmap string File.t → list (string * File.t))
    (oldFileHashes newFileHashes : gmap string File.t) :
  valid_map_range range_files →
  let changes := FileService.DetectChanges range_files oldFileHashes newFileHashes in
  FileService.Added changes ≡ₚ
    (filter (λ kv, oldFileHashes !! kv.1 = None) (map_to_list newFileHashes)).*2 ∧
  FileService.Deleted changes ≡ₚ
    map (λ kv, File.ID kv.2)
        (filter (λ kv, newFileHashes !! kv.1 = None) (map_to_list oldFileHashes)) ∧
  FileService.Modified changes = [] ∧
  (dom oldFileHashes = dom newFileHashes →
   FileService.Added changes = [] ∧ FileService.Deleted changes = []).
Proof.
  intros Hv changes.
  assert (FileService.Added changes ≡ₚ
            (filter (λ kv, oldFileHashes !! kv.1 = None) (map_to_list newFileHashes)).*2 ∧
          FileService.Deleted changes ≡ₚ
            map (λ kv, File.ID kv.2)
                (filter (λ kv, newFileHashes !! kv.1 = None) (map_to_list oldFileHashes)))
    as [HA HD]; [|split_and!; [done|done|done|]].
  2:{ intros Hdom.
      assert (∀ (m1 m2 : gmap string File.t), dom m1 = dom m2 →
                filter (λ kv, m1 !! kv.1 = None) (map_to_list m2) = []) as Hnil.
      { intros m1 m2 Hd.
        destruct (filter (λ kv : string * File.t, m1 !! kv.1 = None) (map_to_list m2))
          as [|kv l] eqn:E; [done|]. exfalso.
        assert (kv ∈ filter (λ kv : string * File.t, m1 !! kv.1 = None) (map_to_list m2))
          as Hin by (rewrite E; by left).
        apply list_elem_of_filter in Hin as [Hnone Hin]. destruct kv as [h f].
        apply elem_of_map_to_list in Hin. cbn in Hnone.
        apply not_elem_of_dom in Hnone. apply Hnone. rewrite Hd.
        apply elem_of_dom. eauto. }
      rewrite (Hnil _ _ Hdom) in HA. rewrite (Hnil _ _ (eq_sym Hdom)) in HD.
      split; by apply Permutation_nil_r. }
  unfold changes, FileService.DetectChanges. cbn. split.
  - rewrite (foldl_pointwise _ (λ acc kv,
               if negb (bool_decide (is_Some (oldFileHashes !! kv.1)))
               then acc ++ [kv.2] else acc))
      by (intros acc kv; by destruct (bool_decide _)).
    rewrite (foldl_cond_snoc
               (λ kv, negb (bool_decide (is_Some (oldFileHashes !! kv.1)))) snd).
    cbn. rewrite (Hv newFileHashes). apply fmap_Permutation.
    erewrite list_filter_iff; [done|]. intros [h f]. cbn.
    rewrite negb_true_iff, bool_decide_eq_false. by rewrite eq_None_not_Some.
  - rewrite (foldl_cond_snoc
               (λ kv, negb (bool_decide (is_Some (newFileHashes !! kv.1))))
               (λ kv, File.ID kv.2)).
    cbn. rewrite (Hv oldFileHashes). apply fmap_Permutation.
    erewrite list_filter_iff; [done|]. intros [h f]. cbn.
    rewrite negb_true_iff, bool_decide_eq_false. by rewrite eq_None_not_Some.
Qed.

(** ** The chunked-upload handlers *)

Section Handlers.
Context {S R B : Type} `{Digest}.
Context {BS : BlockStore.t S} {FR : FileRepository.t R} {BR : BlockRepository.t B}.

Lemma GetMissingChunks_state (range_fields : gmap string string → list string)
    (uploadID : string) (s : FileService.t S R B) :
  (FileService.GetMissingChunks range_fields uploadID s).2 = s.
Proof.
  unfold FileService.GetMissingChunks, FileService.on_redisClient, redis.HGetAll.
  destruct s as [bs fr br ch [r|]]; cbn; [|done].
  destruct (redis.reachable r); cbn.
  - by destruct (bool_decide _).
  - by destruct (String.eqb redis.unreachable redis.Nil).
Qed.

Lemma recorded_frame (uploadID : string) (totalChunks : Z) (R' : list Z)
    (s : FileService.t S R B) (r : redis.t) :
  FileService.redisClient s = Some r → redis.reachable r = true →
  ∃ r', FileService.redisClient (recorded uploadID totalChunks R' s) = Some r' ∧
        redis.reachable r' = true ∧ redis.strings r' = redis.strings r ∧
        FileService.blockStore (recorded uploadID totalChunks R' s) = FileService.blockStore s ∧
        FileService.fileRepo (recorded uploadID totalChunks R' s) = FileService.fileRepo s ∧
        FileService.blockRepo (recorded uploadID totalChunks R' s) = FileService.blockRepo s ∧
        FileService.chunker (recorded uploadID totalChunks R' s) = FileService.chunker s.
Proof.
  unfold recorded. revert s r. induction R' as [|i R' IH]; intros s r Hr Hup; cbn [foldl].
  - exists r. by split_and!.
  - set (s1 := (FileService.RecordChunkReceived uploadID i totalChunks s).2).
    assert (∃ r1, FileService.redisClient s1 = Some r1 ∧ redis.reachable r1 = true ∧
                  redis.strings r1 = redis.strings r ∧
                  FileService.blockStore s1 = FileService.blockStore s ∧
                  FileService.fileRepo s1 = FileService.fileRepo s ∧
                  FileService.blockRepo s1 = FileService.blockRepo s ∧
                  FileService.chunker s1 = FileService.chunker s)
      as (r1 & Hr1 & Hup1 & Hs1 & ? & ? & ? & ?).
    { unfold s1, FileService.RecordChunkReceived, bind, FileService.on_redisClient,
        redis.HSet, redis.Expire.
      rewrite Hr. cbn. rewrite Hup. cbn. eexists. by split_and!. }
    destruct (IH s1 r1 Hr1 Hup1) as (r' & ? & ? & ? & ? & ? & ? & ?).
    exists r'. split_and!; congruence.
Qed.

(** X21. With a reachable Redis server, [UploadChunkHandler] accepts a
    request exactly when the chunk index lies in [0, totalChunks) and the
    body has the announced SHA-256.  An accepted chunk is recorded as the
    field ["chunk:<index>"] of the session and that is all: its bytes are
    kept nowhere, neither in the block store nor in Redis.  A request that
    is not accepted leaves the service as it was. *)
Theorem UploadChunkHandler_accepts_iff
    (s : FileService.t S R B) (r : redis.t) (req : UploadChunkRequest.t) (body : bytes) :
  FileService.redisClient s = Some r → redis.reachable r = true →
  let out := UploadHandler.UploadChunkHandler (Some req) (Some body) s in
  let key := "upload:" +:+ UploadChunkRequest.UploadID req +:+ ":chunks" in
  let accepted :=
    (0 <= UploadChunkRequest.ChunkIndex req ∧
     UploadChunkRequest.ChunkIndex req < UploadChunkRequest.TotalChunks req) ∧
    sha256_hex body = UploadChunkRequest.ChunkHash req in
  (out.1 = Ok (ChunkUploaded (UploadChunkRequest.ChunkIndex req)) ↔ accepted) ∧
  (accepted →
   ∃ r', FileService.redisClient out.2 = Some r' ∧
         redis.hashes r' =
           <[key := <[chunkField (UploadChunkRequest.ChunkIndex req) := "received"]>
                      (default ∅ (redis.hashes r !! key))]> (redis.hashes r) ∧
         redis.strings r' = redis.strings r) ∧
  (¬ accepted → out.2 = s) ∧
  FileService.blockStore out.2 = FileService.blockStore s ∧
  FileService.fileRepo out.2 = FileService.fileRepo s ∧
  FileService.blockRepo out.2 = FileService.blockRepo s.
Proof.
  intros Hr Hup out key accepted. unfold out, accepted, key.
  unfold UploadHandler.UploadChunkHandler.
  destruct (Z.ltb_spec (UploadChunkRequest.ChunkIndex req) 0) as [Hneg|Hnn]; cbn.
  { split_and!; try done; [|intros [[? ?] _]; lia]. split; [done|]. intros [[? ?] _]. lia. }
  rewrite Z.geb_leb.
  destruct (Z.leb_spec (UploadChunkRequest.TotalChunks req)
              (UploadChunkRequest.ChunkIndex req)) as [Hge|Hlt]; cbn.
  { split_and!; try done; [|intros [[? ?] _]; lia]. split; [done|]. intros [[? ?] _]. lia. }
  unfold FileService.ComputeSHA256_hex.
  destruct (String.eqb_spec (sha256_hex body) (UploadChunkRequest.ChunkHash req))
    as [Hh|Hh]; cbn.
  2:{ split_and!; try done; [|by intros [_ ?]]. split; [done|]. by intros [_ ?]. }
  unfold or_respond, FileService.StoreTemporaryChunk, ret,
    FileService.RecordChunkReceived, bind, FileService.on_redisClient,
    redis.HSet, redis.Expire.
  rewrite Hr. cbn. rewrite Hup. cbn. split_and!; try done.
  - intros _. eexists. by split_and!.
  - intros Hna. exfalso. apply Hna. split; [lia|done].
Qed.

(** X29. [UploadChunkHandler] can be retried: with a reachable Redis
    server, sending the same request with the same body a second time gets
    the same answer as the first time and leaves the service exactly as
    the first call left it. *)
Theorem UploadChunkHandler_idempotent
    (s : FileService.t S R B) (r : redis.t) (req : UploadChunkRequest.t) (body : bytes) :
  FileService.redisClient s = Some r → redis.reachable r = true →
  let out := UploadHandler.UploadChunkHandler (Some req) (Some body) s in
  UploadHandler.UploadChunkHandler (Some req) (Some body) out.2 = out.
Proof.
  intros Hr Hup out. unfold out.
  unfold UploadHandler.UploadChunkHandler.
  destruct ((UploadChunkRequest.ChunkIndex req <? 0)
            || (UploadChunkRequest.ChunkIndex req >=? UploadChunkRequest.TotalChunks req));
    [done|].
  unfold FileService.ComputeSHA256_hex.
  destruct (negb (String.eqb (sha256_hex body) (UploadChunkRequest.ChunkHash req))); [done|].
  unfold or_respond, FileService.StoreTemporaryChunk, ret,
    FileService.RecordChunkReceived, bind, FileService.on_redisClient,
    redis.HSet, redis.Expire.
  rewrite Hr. cbn. rewrite Hup. cbn.
  rewrite lookup_insert_eq. cbn. by rewrite !insert_insert_eq.
Qed.

Lemma GetMissingChunks_initial_segment
    (s : FileService.t S R B) (r : redis.t)
    (range_fields : gmap string string → list string)
    (uploadID : string) (totalChunks m : Z) (R' : list Z) :
  FileService.redisClient s = Some r → redis.reachable r = true →
  redis.hashes r !! ("upload:" +:+ uploadID +:+ ":chunks") = None →
  valid_range range_fields →
  (∀ i, i ∈ R' ↔ 0 <= i ∧ i < m) → m <= max_int →
  FileService.GetMissingChunks range_fields uploadID (recorded uploadID totalChunks R' s)
  = (Ok [], recorded uploadID totalChunks R' s).
Proof.
  intros Hr Hup Hkey Hv Hseg Hm.
  rewrite (surjective_pairing (FileService.GetMissingChunks _ _ _)).
  rewrite GetMissingChunks_state. f_equal.
  destruct R' as [|j R0].
  - unfold recorded. cbn.
    unfold FileService.GetMissingChunks, FileService.on_redisClient, redis.HGetAll.
    rewrite Hr. cbn. rewrite Hup. cbn. rewrite Hkey. cbn. done.
  - destruct (GetMissingChunks_returns s r range_fields uploadID totalChunks (j :: R0))
      as (k & Hk & ->); try done.
    { apply Forall_forall. intros i Hi. apply Hseg in Hi. lia. }
    f_equal. apply Hseg in Hk.
    assert (∀ i, i ∈ seqZ 0 k → i ∈ j :: R0) as Hin.
    { intros i Hi. apply elem_of_seqZ in Hi. apply Hseg. lia. }
    induction (seqZ 0 k) as [|x l IH]; [done|].
    rewrite filter_cons, decide_False.
    + apply IH. intros i Hi. apply Hin. by right.
    + intros Hx. apply Hx, Hin. by left.
Qed.

(** X22. [FinishUploadHandler] does not need the chunks to be complete.
    With a reachable Redis server and a session in which exactly the chunks
    [0 .. m-1] have been recorded, for any [m], none included, and whatever
    total was announced, it answers 200 as soon as the SHA-256 of the
    request's chunk hashes run together equals the request's file hash.
    The file it reports has the primary key 0: nothing is written to the
    block store or to a repository, and the session is deleted. *)
Theorem FinishUploadHandler_initial_segment
    (s : FileService.t S R B) (r : redis.t)
    (range_fields : gmap string string → list string)
    (req : FinishUploadRequest.t) (totalChunks m : Z) (R' : list Z) :
  FileService.redisClient s = Some r → redis.reachable r = true →
  redis.hashes r !! ("upload:" +:+ FinishUploadRequest.UploadID req +:+ ":chunks") = None →
  valid_range range_fields →
  (∀ i, i ∈ R' ↔ 0 <= i ∧ i < m) → m <= max_int →
  (FileService.ReconstructFileHash (FinishUploadRequest.UploadID req)
     (FinishUploadRequest.ChunkHashes req) s).1 = Ok (FinishUploadRequest.FileHash req) →
  let s1 := recorded (FinishUploadRequest.UploadID req) totalChunks R' s in
  ∃ s2 r2,
    UploadHandler.FinishUploadHandler range_fields (Some req) s1 =
      (Ok (FinishOK 0 (FinishUploadRequest.FileName req) (FinishUploadRequest.FileSize req)
                    (Some (FinishUploadRequest.FileHash req))), s2) ∧
    FileService.redisClient s2 = Some r2 ∧
    redis.hashes r2 !! ("upload:" +:+ FinishUploadRequest.UploadID req +:+ ":chunks") = None ∧
    FileService.blockStore s2 = FileService.blockStore s ∧
    FileService.fileRepo s2 = FileService.fileRepo s ∧
    FileService.blockRepo s2 = FileService.blockRepo s.
Proof.
  intros Hr Hup Hkey Hv Hseg Hm Hhash s1.
  destruct (recorded_frame (FinishUploadRequest.UploadID req) totalChunks R' s r Hr Hup)
    as (r1 & Hr1 & Hup1 & _ & Hbs & Hfr & Hbr & _). fold s1 in Hr1, Hbs, Hfr, Hbr.
  pose proof (GetMissingChunks_initial_segment s r range_fields
                (FinishUploadRequest.UploadID req) totalChunks m R' Hr Hup Hkey Hv Hseg Hm)
    as Hgm. fold s1 in Hgm. clearbody s1.
  unfold UploadHandler.FinishUploadHandler, or_respond. rewrite Hgm.
  change (len (@nil Z) >? 0) with false. cbn.
  unfold FileService.ReconstructFileHash, ret in *. cbn in Hhash.
  injection Hhash as Hhash. rewrite Hhash, String.eqb_refl. cbn.
  unfold bind, ignore_error, FileService.CleanupUploadSession, FileService.on_redisClient,
    redis.Del.
  rewrite Hr1. cbn. rewrite Hup1. cbn.
  eexists _, _. split; [done|]. cbn. split; [done|]. split; [apply lookup_delete_eq|].
  by split_and!.
Qed.

End Handlers.

(** ** Reference counts and orphan blocks *)

(** X23. On the GORM block repository [DecrementBlockRefCount] undoes
    [IncrementRefCount(hash, 1)]: for a row whose count lies in
    [0, max_int) the two calls succeed and leave the row under its hash
    with its old count, every other row and the id sequence untouched.
    The converse fails at 0, where
    the decrement does nothing: decrementing and then incrementing a count
    of 0 leaves it at 1. *)
Theorem gorm_Increment_then_Decrement (db : blockRepository.t) (hash : string)
    (blk : Block.t) :
  blockRepository.rows db !! hash = Some blk →
  0 <= Block.RefCount blk → Block.RefCount blk < max_int →
  (∃ db1, blockRepository.IncrementRefCount hash 1 db = (Ok (), db1) ∧
     blockRepository.rows db1 !! hash =
       Some (Block.with_RefCount (Block.with_Hash blk hash) (Block.RefCount blk + 1)) ∧
     blockRepository.DecrementBlockRefCount hash db1 =
       (Ok (), {| blockRepository.rows :=
                    <[hash := Block.with_Hash blk hash]> (blockRepository.rows db);
                  blockRepository.next_id := blockRepository.next_id db |})) ∧
  (Block.RefCount blk = 0 →
   ∃ db2, blockRepository.DecrementBlockRefCount hash db = (Ok (), db) ∧
     blockRepository.IncrementRefCount hash 1 db = (Ok (), db2) ∧
     blockRepository.rows db2 !! hash =
       Some (Block.with_RefCount (Block.with_Hash blk hash) 1)).
Proof.
  intros Hrow H0 Hmax.
  assert (wrap64 (Block.RefCount blk + 1) = Block.RefCount blk + 1) as Hw.
  { apply wrap64_id. unfold is_int, min_int. lia. }
  split.
  - eexists. split.
    { unfold blockRepository.IncrementRefCount, bind, wrapf, blockRepository.First,
        blockRepository.Save. rewrite Hrow. cbn. rewrite Hw. reflexivity. }
    cbn. rewrite lookup_insert_eq. split; [done|].
    unfold blockRepository.DecrementBlockRefCount, bind, wrapf, blockRepository.First,
      blockRepository.Save. cbn. rewrite lookup_insert_eq. cbn.
    destruct (Z.gtb_spec (Block.RefCount blk + 1) 0); [|lia]. cbn.
    rewrite insert_insert_eq. do 3 f_equal.
    replace (Block.RefCount blk + 1 - 1) with (Block.RefCount blk) by lia.
    rewrite wrap64_id by (unfold is_int, min_int; lia). by destruct blk.
  - intros Hz. eexists. split.
    { unfold blockRepository.DecrementBlockRefCount, bind, wrapf, blockRepository.First.
      rewrite Hrow. cbn. by rewrite Hz. }
    split.
    { unfold blockRepository.IncrementRefCount, bind, wrapf, blockRepository.First,
        blockRepository.Save. rewrite Hrow. cbn. reflexivity. }
    cbn. rewrite lookup_insert_eq. by rewrite Hz.
Qed.

Lemma keys_filter_spec {V : Type} (range : gmap string V → list (string * V))
    (P : string * V → Prop) `{∀ x, Decision (P x)} (m : gmap string V) :
  valid_map_range range →
  NoDup (filter P (range m)).*1 ∧
  ∀ d, d ∈ (filter P (range m)).*1 ↔ ∃ v, m !! d = Some v ∧ P (d, v).
Proof.
  intros Hv. split.
  - rewrite (Hv m).
    apply (sublist_NoDup _ (map_to_list m).*1); [apply NoDup_fst_map_to_list|].
    apply fmap_sublist, sublist_filter.
  - intros d. rewrite (Hv m), list_elem_of_fmap. split.
    + intros ([d' v] & -> & [HP Hin%elem_of_map_to_list]%list_elem_of_filter). eauto.
    + intros (v & Hm & HP). exists (d, v). split; [done|].
      apply list_elem_of_filter. split; [done|]. by apply elem_of_map_to_list.
Qed.

(** X24. Both implementations of [ListOrphanBlocks] return, once each and
    in no particular order, exactly the hashes of the rows whose count is
    not positive: the mock by its test [RefCount <= 0], the GORM one by
    its query [ref_count = 0] on a table whose counts are not negative, a
    property that [DecrementBlockRefCount] keeps.  Neither changes the
    repository. *)
Theorem ListOrphanBlocks_lists_unreferenced
    (range_blocks scan_rows : gmap string Block.t → list (string * Block.t))
    (m : MockBlockRepository.t) (db : blockRepository.t) (hash : string) :
  valid_map_range range_blocks → valid_map_range scan_rows →
  (∀ d blk, blockRepository.rows db !! d = Some blk →
            0 <= Block.RefCount blk ∧ Block.RefCount blk <= max_int) →
  (∃ l, MockBlockRepository.ListOrphanBlocks range_blocks m = (Ok l, m) ∧ NoDup l ∧
        ∀ d, d ∈ l ↔ ∃ blk, MockBlockRepository.blocks m !! d = Some blk ∧
                            Block.RefCount blk <= 0) ∧
  (∃ l, blockRepository.ListOrphanBlocks scan_rows db = (Ok l, db) ∧ NoDup l ∧
        ∀ d, d ∈ l ↔ ∃ blk, blockRepository.rows db !! d = Some blk ∧
                            Block.RefCount blk <= 0) ∧
  (∀ d blk,
     blockRepository.rows (blockRepository.DecrementBlockRefCount hash db).2 !! d = Some blk →
     0 <= Block.RefCount blk ∧ Block.RefCount blk <= max_int).
Proof.
  intros Hv1 Hv2 Hinv. split_and!.
  - eexists. split; [reflexivity|].
    rewrite (foldl_cond_snoc (λ kv : string * Block.t, Block.RefCount kv.2 <=? 0) fst).
    cbn.
    destruct (keys_filter_spec range_blocks
                (λ kv : string * Block.t, (Block.RefCount kv.2 <=? 0) = true)
                (MockBlockRepository.blocks m) Hv1) as [Hnd Hin].
    split; [done|]. intros d. rewrite Hin. cbn. by setoid_rewrite Z.leb_le.
  - unfold blockRepository.ListOrphanBlocks, bind, wrapf, blockRepository.Find_ref_count_0,
      ret. cbn. eexists. split; [reflexivity|].
    rewrite map_map. cbn.
    destruct (keys_filter_spec scan_rows
                (λ kv : string * Block.t, Block.RefCount kv.2 = 0)
                (blockRepository.rows db) Hv2) as [Hnd Hin].
    split; [done|]. intros d. etrans; [apply Hin|]. cbn. split.
    + intros (blk & Hb & Hz). exists blk. split; [done|lia].
    + intros (blk & Hb & Hz). exists blk. split; [done|]. destruct (Hinv d blk Hb). lia.
  - intros d blk.
    unfold blockRepository.DecrementBlockRefCount, bind, wrapf, blockRepository.First,
      blockRepository.Save, ret.
    destruct (blockRepository.rows db !! hash) as [row|] eqn:Hrow; cbn; [|apply Hinv].
    destruct (Z.gtb_spec (Block.RefCount row) 0) as [Hpos|Hle]; cbn; [|apply Hinv].
    destruct (decide (hash = d)) as [->|Hne].
    + rewrite lookup_insert_eq. intros [= <-]. cbn.
      destruct (Hinv d row Hrow).
      rewrite wrap64_id by (unfold is_int, min_int; lia). lia.
    + rewrite lookup_insert_ne by done. apply Hinv.
Qed.



(** ** Write-through and read-through *)

Section WriteThrough.
Context {S : Type} {BS : BlockStore.t S}.

(** X26. Both cache wrappers write through and read through while the
    Redis server is reachable.  When the inner [Put] returns a hash, the
    wrapper's [Put] returns it too and leaves the data in the cache under
    the prefixed hash, so that a [Get] of the hash is answered with the
    data from the cache, without a call into the inner store.  When the
    cache has nothing under the key and the inner [Get] returns a block,
    the wrapper's [Get] returns the block and leaves it in the cache. *)
Theorem cache_wrappers_write_and_read_through
    (rc : RedisBlockCache.t S) (cc : cachedBlockStore.t S)
    (data : bytes) (hash : string) (inner : S) :
  redis.reachable (RedisBlockCache.client rc) = true →
  redis.reachable (cachedBlockStore.redisClient cc) = true →
  (BlockStore.Put data (RedisBlockCache.blockStore rc) = (Ok hash, inner) →
   ∃ rc', RedisBlockCache.Put data rc = (Ok hash, rc') ∧
          RedisBlockCache.blockStore rc' = inner ∧
          redis.strings (RedisBlockCache.client rc') !! RedisBlockCache.getCacheKey rc hash
            = Some data ∧
          RedisBlockCache.Get hash rc' = (Ok data, rc')) ∧
  (BlockStore.Put data (cachedBlockStore.local cc) = (Ok hash, inner) →
   ∃ cc', cachedBlockStore.Put data cc = (Ok hash, cc') ∧
          cachedBlockStore.local cc' = inner ∧
          redis.strings (cachedBlockStore.redisClient cc')
            !! (cachedBlockStore.cacheKeyPrefix cc +:+ hash) = Some data ∧
          cachedBlockStore.Get hash cc' = (Ok data, cc')) ∧
  (redis.Get (RedisBlockCache.getCacheKey rc hash) (RedisBlockCache.client rc)
     = (Err redis.Nil, RedisBlockCache.client rc) →
   BlockStore.Get hash (RedisBlockCache.blockStore rc) = (Ok data, inner) →
   ∃ rc', RedisBlockCache.Get hash rc = (Ok data, rc') ∧
          RedisBlockCache.blockStore rc' = inner ∧
          RedisBlockCache.Get hash rc' = (Ok data, rc')) ∧
  (redis.Get (cachedBlockStore.cacheKeyPrefix cc +:+ hash) (cachedBlockStore.redisClient cc)
     = (Err redis.Nil, cachedBlockStore.redisClient cc) →
   BlockStore.Get hash (cachedBlockStore.local cc) = (Ok data, inner) →
   ∃ cc', cachedBlockStore.Get hash cc = (Ok data, cc') ∧
          cachedBlockStore.local cc' = inner ∧
          cachedBlockStore.Get hash cc' = (Ok data, cc')).
Proof.
  destruct rc as [[reach1 strs1 hs1] l1 pre1], cc as [l2 [reach2 strs2 hs2] pre2].
  cbn. intros -> ->. split_and!.
  - intros Hput. eexists. split.
    { unfold RedisBlockCache.Put, bind, wrapf, ignore_error, ret,
        RedisBlockCache.on_blockStore, RedisBlockCache.on_client,
        RedisBlockCache.getCacheKey, redis.Set_. cbn. rewrite Hput. cbn. reflexivity. }
    cbn. split; [done|]. unfold RedisBlockCache.getCacheKey. cbn.
    rewrite lookup_insert_eq. split; [done|].
    unfold RedisBlockCache.Get, RedisBlockCache.on_client, RedisBlockCache.getCacheKey,
      redis.Get. cbn. by rewrite lookup_insert_eq.
  - intros Hput. eexists. split.
    { unfold cachedBlockStore.Put, bind, ignore_error, ret,
        cachedBlockStore.on_local, cachedBlockStore.on_redisClient,
        redis.SetEx, redis.Set_. cbn. rewrite Hput. cbn. reflexivity. }
    cbn. split; [done|]. rewrite lookup_insert_eq. split; [done|].
    unfold cachedBlockStore.Get, cachedBlockStore.on_redisClient, redis.Get. cbn.
    by rewrite lookup_insert_eq.
  - intros Hmiss Hget. eexists. split.
    { unfold RedisBlockCache.Get, bind, wrapf, ignore_error, ret,
        RedisBlockCache.on_blockStore, RedisBlockCache.on_client,
        RedisBlockCache.getCacheKey, redis.Set_ in *. cbn in *.
      rewrite Hmiss. cbn. rewrite Hget. cbn. reflexivity. }
    cbn. split; [done|].
    unfold RedisBlockCache.Get, RedisBlockCache.on_client, RedisBlockCache.getCacheKey,
      redis.Get. cbn. by rewrite lookup_insert_eq.
  - intros Hmiss Hget. eexists. split.
    { unfold cachedBlockStore.Get, bind, ignore_error, ret,
        cachedBlockStore.on_local, cachedBlockStore.on_redisClient,
        redis.SetEx, redis.Set_ in *. cbn in *.
      rewrite Hmiss. cbn. rewrite Hget. cbn. reflexivity. }
    cbn. split; [done|].
    unfold cachedBlockStore.Get, cachedBlockStore.on_redisClient, redis.Get. cbn.
    by rewrite lookup_insert_eq.
Qed.

End WriteThrough.

(** ** Block rows on the in-memory stack *)

Lemma dom_incr_all (hs : list string) (m : MockBlockRepository.t) :
  dom (MockBlockRepository.blocks (incr_all hs m)) = dom (MockBlockRepository.blocks m).
Proof.
  unfold incr_all. revert m. induction hs as [|h hs IH]; intros m; cbn [foldl]; [done|].
  rewrite IH. unfold MockBlockRepository.IncrementRefCount.
  destruct (MockBlockRepository.blocks m !! h) as [blk|] eqn:Hh; cbn; [|done].
  rewrite dom_insert_L. apply elem_of_dom_2 in Hh.
  apply subseteq_union_1_L. by apply singleton_subseteq_l.
Qed.

(** X27. [UploadFile] never makes a block row.  On the in-memory stack the
    hashes that have a row in the block repository are the same after any
    number of uploads as before: a block that is stored for the first time
    gets no row, and so no reference count. *)
Theorem UploadFile_makes_no_block_row `{Digest} `{MockFileRepository.MapRange}
    (blockSize : Z) (fileName : string) (X : bytes) (n : nat) (s : MemService) :
  blockSize <= max_int → 2 * len X <= max_int → X ≠ [] →
  FileService.chunker s = FixedSize (FixedSizeChunker.NewFixedSizeChunker blockSize) →
  dom (MockBlockRepository.blocks (FileService.blockRepo (uploads n fileName X s))) =
  dom (MockBlockRepository.blocks (FileService.blockRepo s)).
Proof.
  intros Hb Hlen Hne Hc.
  destruct (NewFixedSizeChunker_blockSize blockSize Hb) as [Hbs Hbsmax].
  pose proof (len_nonneg X) as Hl0.
  destruct (Fixed_Chunk_blocks_total _ X Hbs Hbsmax Hlen) as [bl Hbl].
  assert (len X <= max_int) as Hlen' by lia.
  destruct (uploads_state _ fileName X bl s n Hbs Hbsmax Hlen' Hne Hc Hbl) as (_ & _ & ->).
  induction n as [|n IH]; [done|]. simpl. by rewrite dom_incr_all.
Qed.

(** ** The round trip on the GORM file repository *)

(** [First] by hash: the row it finds holds the hash and no row with that
    hash has a lower primary key. *)
Lemma least_with_hash_Some (hash : string) (rows : gmap N File.t) (id : N) (f : File.t) :
  fileRepository.least_with_hash hash rows = Some (id, f) →
  rows !! id = Some f ∧ File.Hash f = hash ∧
  ∀ id' f', rows !! id' = Some f' → File.Hash f' = hash → (id <= id')%N.
Proof.
  unfold fileRepository.least_with_hash. intros Hl.
  enough ((id, f) ∈ map_to_list rows ∧ File.Hash f = hash ∧
          ∀ kv, kv ∈ map_to_list rows → File.Hash kv.2 = hash → (id <= kv.1)%N)
    as (Hin & Hh & Hmin).
  { split_and!; [by apply elem_of_map_to_list|done|].
    intros id' f' Hin' Hh'. apply (Hmin (id', f')); [by apply elem_of_map_to_list|done]. }
  revert id f Hl. induction (map_to_list rows) as [|kv l IH]; intros id f; [done|].
  cbn [foldr].
  destruct (String.eqb_spec (File.Hash kv.2) hash) as [E|E].
  - destruct (foldr _ None l) as [[id1 f1]|] eqn:Hacc.
    + destruct (IH id1 f1 eq_refl) as (Hin1 & Hh1 & Hmin1). cbn [fst].
      destruct (N.ltb_spec kv.1 id1) as [Hlt|Hge].
      * intros [= ->]. split_and!; [by left|done|].
        intros kv' [->|Hin']%elem_of_cons Hh'; [done|].
        specialize (Hmin1 kv' Hin' Hh'). cbn [fst] in *. lia.
      * intros [= <- <-]. split_and!; [by right|done|].
        intros kv' [->|Hin']%elem_of_cons Hh'; [done|]. by apply Hmin1.
    + intros [= ->]. split_and!; [by left|done|].
      intros kv' [->|Hin']%elem_of_cons Hh'; [done|]. exfalso.
      clear IH. revert Hacc Hin' Hh'. clear. induction l as [|kv0 l IH]; [by intros _ ?%elem_of_nil|].
      cbn [foldr]. destruct (String.eqb_spec (File.Hash kv0.2) hash) as [E0|E0].
      * by destruct (foldr _ None l) as [[]|]; [destruct (N.ltb _ _)|].
      * intros Hacc [->|Hin']%elem_of_cons Hh'; [done|]. by apply IH.
  - intros Hl. destruct (IH id f Hl) as (Hin & Hh & Hmin). split_and!; [by right|done|].
    intros kv' [->|Hin']%elem_of_cons Hh'; [done|]. by apply Hmin.
Qed.

Lemma least_with_hash_is_Some (hash : string) (rows : gmap N File.t) (id : N) (f : File.t) :
  rows !! id = Some f → File.Hash f = hash →
  is_Some (fileRepository.least_with_hash hash rows).
Proof.
  intros Hin%elem_of_map_to_list Hh. unfold fileRepository.least_with_hash.
  induction (map_to_list rows) as [|kv l IH]; [by apply elem_of_nil in Hin|].
  cbn [foldr]. apply elem_of_cons in Hin as [<-|Hin].
  - cbn [snd]. rewrite Hh, String.eqb_refl.
    destruct (foldr _ None l) as [[]|]; [destruct (N.ltb _ _)|]; eauto.
  - destruct (IH Hin) as [best ->].
    destruct (String.eqb _ _); [destruct (N.ltb _ _)|]; eauto.
Qed.

Lemma least_with_hash_least (hash : string) (rows : gmap N File.t) (id0 : N) (F0 : File.t) :
  rows !! id0 = Some F0 → File.Hash F0 = hash →
  (∀ id f, rows !! id = Some f → File.Hash f = hash → (id0 <= id)%N) →
  fileRepository.least_with_hash hash rows = Some (id0, F0).
Proof.
  intros Hin0 Hh0 Hmin0.
  destruct (least_with_hash_is_Some hash rows id0 F0 Hin0 Hh0) as [[id1 F1] H1].
  rewrite H1. apply least_with_hash_Some in H1 as (Hin1 & Hh1 & Hmin1).
  pose proof (Hmin1 id0 F0 Hin0 Hh0). pose proof (Hmin0 id1 F1 Hin1 Hh1).
  assert (id1 = id0) as -> by lia.
  rewrite Hin0 in Hin1. by injection Hin1 as <-.
Qed.

(** A row written under a higher primary key does not change what [First]
    finds. *)
Lemma least_with_hash_insert (hash : string) (rows : gmap N File.t)
    (id0 id : N) (F0 F : File.t) :
  fileRepository.least_with_hash hash rows = Some (id0, F0) →
  rows !! id = None → (id0 < id)%N →
  fileRepository.least_with_hash hash (<[id := F]> rows) = Some (id0, F0).
Proof.
  intros (Hin0 & Hh0 & Hmin0)%least_with_hash_Some Hfree Hlt.
  assert (id0 ≠ id) as Hne by lia.
  destruct (least_with_hash_is_Some hash (<[id := F]> rows) id0 F0) as [[id1 F1] H1];
    [by rewrite lookup_insert_ne|done|].
  rewrite H1. apply least_with_hash_Some in H1 as (Hin1 & Hh1 & Hmin1).
  assert (id1 <= id0)%N as Hle.
  { apply (Hmin1 id0 F0); [by rewrite lookup_insert_ne|done]. }
  assert (id1 ≠ id) as Hne1 by lia.
  rewrite lookup_insert_ne in Hin1 by done.
  pose proof (Hmin0 id1 F1 Hin1 Hh1) as Hge.
  assert (id1 = id0) as -> by lia.
  rewrite Hin0 in Hin1. by injection Hin1 as <-.
Qed.

Lemma GetFileByHash_after_insert (hash : string) (db : fileRepository.t)
    (id0 : N) (F0 : File.t) (id next : N) (F : File.t) :
  fileRepository.least_with_hash hash (fileRepository.rows db) = Some (id0, F0) →
  fileRepository.rows db !! id = None → (id0 < id)%N →
  fileRepository.GetFileByHash hash
    {| fileRepository.rows := <[id := F]> (fileRepository.rows db);
       fileRepository.next_id := next |} =
  (Ok (Some (File.with_ID F0 id0)),
   {| fileRepository.rows := <[id := F]> (fileRepository.rows db);
      fileRepository.next_id := next |}).
Proof.
  intros Hl Hfree Hlt. unfold fileRepository.GetFileByHash, fileRepository.First. cbn.
  by rewrite (least_with_hash_insert _ _ id0 _ F0).
Qed.

(** C1 (the code diverges from the claim).  [calculateFileHash] is the length
    of the data, the files table takes any number of rows with one hash, and
    [GetFileByHash] returns the row of least primary key.  On the GORM file
    repository, over any block store and block repository: when [F0] is the
    row of least primary key among those with the hash of [X] (a file of the
    same length), below the id sequence, and [UploadFile(name, X)] succeeds
    with the record [F], then [F] is written under a new primary key,
    [GetFileByHash(F.Hash)] still returns [F0], and [DownloadFile(F.Hash)]
    reads the block list of [F0], not that of [F]: it returns the older
    file. *)
Theorem UploadFile_DownloadFile_older_row {S B : Type} `{Digest}
    {BS : BlockStore.t S} {BR : BlockRepository.t B}
    (s s' : FileService.t S fileRepository.t B) (fileName : string) (X : bytes)
    (F : File.t) (id0 : N) (F0 : File.t) (blockHashes0 : list string) :
  FileService.UploadFile fileName X s = (Ok F, s') →
  fileRepository.rows (FileService.fileRepo s) !! id0 = Some F0 →
  File.Hash F0 = calculateFileHash X →
  (∀ id f, fileRepository.rows (FileService.fileRepo s) !! id = Some f →
           File.Hash f = calculateFileHash X → (id0 <= id)%N) →
  (id0 < fileRepository.next_id (FileService.fileRepo s))%N →
  File.BlockIDs F0 = JSONStrings blockHashes0 →
  File.Hash F = calculateFileHash X ∧
  File.ID F = fileRepository.next_id (FileService.fileRepo s) ∧
  fileRepository.GetFileByHash (File.Hash F) (FileService.fileRepo s') =
    (Ok (Some (File.with_ID F0 id0)), FileService.fileRepo s') ∧
  FileService.DownloadFile (File.Hash F) s' = FileService.DownloadFile_loop blockHashes0 [] s'.
Proof.
  intros Hup Hin0 Hh0 Hmin0 Hlt Hids.
  pose proof (least_with_hash_least _ _ _ _ Hin0 Hh0 Hmin0) as Hleast.
  revert Hup. unfold FileService.UploadFile.
  destruct (len X =? 0); [done|].
  destruct (FileService.chunker s) as [c|c]; [|done].
  destruct (FixedSizeChunker.Chunk c X) as [chunks| | |]; try done.
  unfold bind.
  pose proof (UploadFile_loop_fileRepo (length chunks) X
                (FixedSizeChunker.ChunkSize c) 0 [] s) as Hfr.
  destruct (FileService.UploadFile_loop (length chunks) X
              (FixedSizeChunker.ChunkSize c) 0 [] s) as [[hs| | |] s1]; try done.
  cbn [snd] in Hfr. unfold wrapf, FileService.on_fileRepo. cbn.
  unfold fileRepository.CreateFile, wrapf, fileRepository.Create. cbn.
  rewrite Hfr.
  destruct (fileRepository.uuid_taken "" (FileService.fileRepo s)); [done|].
  destruct (bool_decide _) eqn:Hpk; [done|].
  apply bool_decide_eq_false in Hpk.
  assert (fileRepository.rows (FileService.fileRepo s)
            !! fileRepository.next_id (FileService.fileRepo s) = None) as Hfree.
  { by apply eq_None_not_Some. }
  intros [= <- <-]. cbn.
  rewrite (GetFileByHash_after_insert _ _ id0 F0) by done.
  split_and!; [done..|].
  unfold FileService.DownloadFile, bind, wrapf, FileService.on_fileRepo. cbn.
  rewrite (GetFileByHash_after_insert _ _ id0 F0) by done. cbn. by rewrite Hids.
Qed.

(** ** The further statements at sample inputs *)

Section MoreSamples.
#[local] Existing Instance spelled_digest.
#[local] Existing Instance listed_range.

Lemma Fixed_Chunk_blocks_shape_witness :
  ∃ blocks,
    FixedSizeChunker.Chunk_blocks (FixedSizeChunker.NewFixedSizeChunker 2) abc = Ok blocks ∧
    concat blocks = abc ∧ len blocks = 2.
Proof.
  destruct (Fixed_Chunk_blocks_shape 2 abc ltac:(unfold max_int; lia)
              ltac:(unfold len, max_int; simpl; lia)) as (blocks & Hb & _ & Hc & Hn & _).
  exists blocks. split; [exact Hb|]. split; [exact Hc|]. rewrite Hn. reflexivity.
Defined.

Lemma CDC_Chunk_cuts_by_position_witness :
  ∃ blocks,
    CDCChunker.Chunk_blocks (CDCChunker.NewCDCChunker 1 2 5) seven = Ok blocks ∧
    concat blocks = seven ∧
    ∀ (i : nat) (b : bytes), blocks !! i = Some b → (i + 1 < length blocks)%nat →
      len b = match i with O => 1 | S _ => 2 end.
Proof.
  destruct (CDC_Chunk_cuts_by_position 1 2 5 seven ltac:(unfold max_int; lia)
              ltac:(unfold len, max_int; simpl; lia)) as (blocks & Hb & _ & Hc & Hl).
  exists blocks. split; [exact Hb|]. split; [exact Hc|]. exact Hl.
Defined.

Lemma LocalBlockStore_Put_Get_roundtrip_witness :
  ∃ s', LocalBlockStore.Put abc LocalBlockStore.NewLocalBlockStore = (Ok (sha256_hex abc), s') ∧
        LocalBlockStore.Get (sha256_hex abc) s' = (Ok abc, s').
Proof.
  destruct (proj2 (LocalBlockStore_Put_Get_roundtrip abc LocalBlockStore.NewLocalBlockStore)
              ltac:(discriminate)) as (s' & H1 & H2 & _).
  exists s'. split; [exact H1|exact H2].
Defined.

Lemma LocalBlockStore_Delete_undoes_Put_witness :
  LocalBlockStore.Delete (sha256_hex abc)
    (LocalBlockStore.Put abc LocalBlockStore.NewLocalBlockStore).2
  = (Ok (), LocalBlockStore.NewLocalBlockStore).
Proof.
  apply (proj2 (proj2 (LocalBlockStore_Delete_undoes_Put abc "none"
                         LocalBlockStore.NewLocalBlockStore))).
  - discriminate.
  - reflexivity.
Defined.

Lemma LocalBlockStore_Stats_Put_witness :
  LocalBlockStore.Stats listed_entries
    (LocalBlockStore.Put abc LocalBlockStore.NewLocalBlockStore).2 = (1, 3).
Proof.
  rewrite (proj1 (proj2 (LocalBlockStore_Stats_Put listed_entries listed_entries abc
                           LocalBlockStore.NewLocalBlockStore
                           ltac:(intros m; reflexivity) ltac:(intros m; reflexivity)))
             ltac:(discriminate) ltac:(reflexivity)).
  reflexivity.
Defined.

Lemma RedisBlockCache_keeps_coherence_witness :
  cache_coherent (RedisBlockCache.Put abc empty_cache).2 ∧
  redis.reachable (RedisBlockCache.client (RedisBlockCache.Put abc empty_cache).2) = true.
Proof.
  apply (RedisBlockCache_keeps_coherence empty_cache abc "none").
  - reflexivity.
  - intros hash data Hd. discriminate Hd.
  - left. reflexivity.
Defined.

Lemma cache_in_outage_coherent : cache_coherent cache_in_outage.
Proof.
  intros hash data Hd. unfold cache_in_outage, RedisBlockCache.getCacheKey in *. cbn in *.
  apply lookup_singleton_Some in Hd as [Hk <-].
  apply String.app_inj in Hk. subst hash. reflexivity.
Qed.

Lemma RedisBlockCache_Get_agrees_with_store_witness :
  (RedisBlockCache.Get (sha256_hex abc) cache_in_outage).1 = Ok abc.
Proof.
  rewrite (proj1 (RedisBlockCache_Get_agrees_with_store cache_in_outage (sha256_hex abc)
                    cache_in_outage_coherent)).
  reflexivity.
Defined.

Lemma RedisBlockCache_Delete_during_outage_witness :
  ∃ c', RedisBlockCache.Delete (sha256_hex abc) cache_in_outage = (Ok (), c') ∧
    LocalBlockStore.blocks (RedisBlockCache.blockStore c') !! sha256_hex abc = None ∧
    RedisBlockCache.Get (sha256_hex abc) (cache_restored c') = (Ok abc, cache_restored c') ∧
    RedisBlockCache.Exists (sha256_hex abc) (cache_restored c') = (Ok true, cache_restored c').
Proof.
  apply (RedisBlockCache_Delete_during_outage cache_in_outage (sha256_hex abc) abc).
  - reflexivity.
  - exact cache_in_outage_coherent.
  - reflexivity.
Defined.

Lemma cachedBlockStore_outage_falls_through_witness :
  cachedBlockStore.Get (sha256_hex abc) cache_down = (Ok abc, cache_down) ∧
  cachedBlockStore.Exists (sha256_hex abc) cache_down = (Err redis.unreachable, cache_down).
Proof.
  destruct (cachedBlockStore_outage_falls_through cache_down abc (sha256_hex abc)
              ltac:(reflexivity)) as (_ & HG & _ & _ & HE).
  split; [|exact HE]. rewrite HG. reflexivity.
Defined.

Lemma CheckIntegrity_iff_DownloadFile_witness :
  let s := (FileService.UploadFile "a.txt" abc (test_service 2)).2 in
  FileService.CheckIntegrity "hash_3" s = (Ok true, s) ∧
  (FileService.CheckIntegrity "hash_3" s = (Ok true, s) ↔
   ∃ data, FileService.DownloadFile "hash_3" s = (Ok data, s)).
Proof.
  cbv zeta.
  destruct (CheckIntegrity_iff_DownloadFile
              (FileService.UploadFile "a.txt" abc (test_service 2)).2 "hash_3"
              (uploaded_file "a.txt" abc [[Byte.x61; Byte.x62]; [Byte.x63]])
              (map sha256_hex [[Byte.x61; Byte.x62]; [Byte.x63]])) as [H1 H2].
  - vm_compute. reflexivity.
  - reflexivity.
  - split; [|exact H2]. rewrite H1. vm_compute. reflexivity.
Defined.

Lemma UploadFile_then_CheckIntegrity_witness :
  ∃ F s', FileService.UploadFile "a.txt" abc (test_service 2) = (Ok F, s') ∧
          FileService.CheckIntegrity (File.Hash F) s' = (Ok true, s').
Proof.
  apply (UploadFile_then_CheckIntegrity 2 "a.txt" abc (test_service 2)).
  - unfold max_int. lia.
  - unfold len, max_int. simpl. lia.
  - discriminate.
  - reflexivity.
Defined.

Lemma unknown_hash_mock_panics_gorm_fails_witness :
  (FileService.GetFileByHash "hash_9" (test_service 2) = (Ok None, test_service 2) ∧
   FileService.DownloadFile "hash_9" (test_service 2) = (Panic, test_service 2) ∧
   FileService.CheckIntegrity "hash_9" (test_service 2) = (Panic, test_service 2) ∧
   FileService.DeleteFile "hash_9" (test_service 2) = (Panic, test_service 2)) ∧
  (FileService.GetFileByHash "hash_9" gorm_service =
     (Err ("failed to get file by hash: file not found: " +:+ "hash_9"), gorm_service) ∧
   FileService.DownloadFile "hash_9" gorm_service =
     (Err ("failed to get file: file not found: " +:+ "hash_9"), gorm_service) ∧
   FileService.CheckIntegrity "hash_9" gorm_service =
     (Err ("file not found: file not found: " +:+ "hash_9"), gorm_service) ∧
   FileService.DeleteFile "hash_9" gorm_service =
     (Err ("failed to get file: file not found: " +:+ "hash_9"), gorm_service)).
Proof.
  apply (unknown_hash_mock_panics_gorm_fails (test_service 2) gorm_service "hash_9").
  - reflexivity.
  - intros id f Hf. cbn in Hf. apply lookup_singleton_Some in Hf as [_ <-]. discriminate.
Defined.

Lemma UploadFile_gorm_succeeds_once_witness :
  fileRepository.uuid_taken ""
    (FileService.fileRepo (FileService.UploadFile "a.txt" abc gorm_files_service).2) = true ∧
  ∀ fileName' data' F',
    (FileService.UploadFile fileName' data'
       (FileService.UploadFile "a.txt" abc gorm_files_service).2).1 ≠ Ok F'.
Proof.
  apply (proj2 (UploadFile_gorm_succeeds_once gorm_files_service
                  (FileService.UploadFile "a.txt" abc gorm_files_service).2 "a.txt" abc
                  (File.with_ID (uploaded_file "a.txt" abc [[Byte.x61; Byte.x62]; [Byte.x63]])
                                1%N))).
  vm_compute. reflexivity.
Defined.

Lemma CheckIntegrity_during_cache_outage_witness :
  (FileService.CheckIntegrity "hash_3" service_cache_down).1 = Ok false ∧
  (FileService.DownloadFile "hash_3" service_cache_down).1 = Ok abc.
Proof.
  split.
  - apply (CheckIntegrity_during_cache_outage service_cache_down "hash_3"
             (uploaded_file "a.txt" abc [[Byte.x61; Byte.x62]; [Byte.x63]])
             (sha256_hex [Byte.x61; Byte.x62]) [sha256_hex [Byte.x63]]).
    + reflexivity.
    + vm_compute. reflexivity.
    + reflexivity.
  - vm_compute. reflexivity.
Defined.

Lemma UploadFile_gorm_missing_block_row_witness :
  (FileService.UploadFile "a.txt" abc gorm_blocks_service).1 =
    Err "failed to increment block ref count: failed to find block: record not found" ∧
  LocalBlockStore.blocks
    (FileService.blockStore (FileService.UploadFile "a.txt" abc gorm_blocks_service).2)
    !! sha256_hex [Byte.x61; Byte.x62] = Some [Byte.x61; Byte.x62].
Proof.
  rewrite (UploadFile_gorm_missing_block_row gorm_blocks_service 2 "a.txt" abc
             ltac:(unfold max_int; lia) ltac:(unfold len, max_int; simpl; lia)
             ltac:(discriminate) ltac:(reflexivity) ltac:(reflexivity)).
  split; [reflexivity|]. vm_compute. reflexivity.
Defined.

Lemma UploadFile_record_witness :
  let F := uploaded_file "a.txt" abc [[Byte.x61; Byte.x62]; [Byte.x63]] in
  File.Name F = "a.txt" ∧ File.Size F = len abc ∧ File.ID F = 0%N ∧
  File.Hash F = "hash_" +:+ pretty (len abc) ∧
  ∃ hashes,
    FixedSizeChunker.Chunk (FixedSizeChunker.NewFixedSizeChunker 2) abc = Ok hashes ∧
    File.BlockIDs F = json_Marshal hashes ∧
    MockFileRepository.files
      (FileService.fileRepo (FileService.UploadFile "a.txt" abc (test_service 2)).2)
      !! File.Hash F = Some F.
Proof.
  cbv zeta.
  apply (UploadFile_record 2 "a.txt" abc (test_service 2)
           (FileService.UploadFile "a.txt" abc (test_service 2)).2).
  - unfold max_int. lia.
  - unfold len, max_int. simpl. lia.
  - reflexivity.
  - vm_compute. reflexivity.
Defined.

Lemma UploadFile_same_length_shadows_witness :
  ∃ F1 s1 F2 s2,
    FileService.UploadFile "a.txt" abc (test_service 2) = (Ok F1, s1) ∧
    FileService.UploadFile "b.txt" xyz s1 = (Ok F2, s2) ∧
    File.Hash F2 = File.Hash F1 ∧
    MockFileRepository.files (FileService.fileRepo s2) !! File.Hash F1 = Some F2 ∧
    FileService.DownloadFile (File.Hash F1) s2 = (Ok xyz, s2).
Proof.
  apply (UploadFile_same_length_shadows 2 "a.txt" "b.txt" abc xyz (test_service 2)).
  - unfold max_int. lia.
  - unfold len, max_int. simpl. lia.
  - discriminate.
  - reflexivity.
  - reflexivity.
  - intros bl Hbl. vm_compute in Hbl. injection Hbl as <-.
    unfold collision_free. repeat constructor; intros E; vm_compute in E; congruence.
Defined.

Lemma Mock_DeleteFile_removes_by_ID_witness :
  let s := (FileService.UploadFile "a.txt" abc (test_service 2)).2 in
  ∃ s' hash' F',
    FileService.DeleteFile "hash_3" s = (Ok (), s') ∧
    MockFileRepository.files (FileService.fileRepo s) !! hash' = Some F' ∧
    File.ID F' = 0%N ∧
    MockFileRepository.files (FileService.fileRepo s') =
      delete hash' (MockFileRepository.files (FileService.fileRepo s)) ∧
    FileService.blockStore s' = FileService.blockStore s.
Proof.
  cbv zeta.
  destruct (Mock_DeleteFile_removes_by_ID
              (FileService.UploadFile "a.txt" abc (test_service 2)).2 "hash_3"
              (uploaded_file "a.txt" abc [[Byte.x61; Byte.x62]; [Byte.x63]])
              (map sha256_hex [[Byte.x61; Byte.x62]; [Byte.x63]]))
    as (s' & hash' & F' & H1 & _ & H2 & H3 & H4 & H5 & _).
  - intros m. reflexivity.
  - vm_compute. reflexivity.
  - reflexivity.
  - exists s', hash', F'. split; [exact H1|]. split; [exact H2|]. split; [exact H3|].
    split; [exact H4|exact H5].
Defined.

Lemma DetectChanges_by_key_witness :
  let changes :=
    FileService.DetectChanges listed_entries {[ "hash_3" := abc_file ]} ∅ in
  FileService.Added changes ≡ₚ [] ∧ FileService.Deleted changes ≡ₚ [1%N] ∧
  FileService.Modified changes = [].
Proof.
  cbv zeta.
  destruct (DetectChanges_by_key listed_entries {[ "hash_3" := abc_file ]} ∅)
    as (HA & HD & HM & _).
  - intros m. reflexivity.
  - split; [exact HA|]. split; [exact HD|exact HM].
Defined.

Lemma UploadChunkHandler_accepts_iff_witness :
  (UploadHandler.UploadChunkHandler (Some chunk_0_of_3) (Some abc)
     (test_service_with_redis 8192)).1 = Ok (ChunkUploaded 0) ∧
  (UploadHandler.UploadChunkHandler (Some chunk_0_of_3) (Some xyz)
     (test_service_with_redis 8192)).2 = test_service_with_redis 8192.
Proof.
  split.
  - apply (proj1 (UploadChunkHandler_accepts_iff (test_service_with_redis 8192) empty_redis
                    chunk_0_of_3 abc eq_refl eq_refl)).
    split; [split; [reflexivity|reflexivity]|reflexivity].
  - apply (proj1 (proj2 (proj2 (UploadChunkHandler_accepts_iff
                                  (test_service_with_redis 8192) empty_redis
                                  chunk_0_of_3 xyz eq_refl eq_refl)))).
    intros [_ Hh]. discriminate Hh.
Defined.

Lemma UploadChunkHandler_idempotent_witness :
  UploadHandler.UploadChunkHandler (Some chunk_0_of_3) (Some abc)
    (UploadHandler.UploadChunkHandler (Some chunk_0_of_3) (Some abc)
       (test_service_with_redis 8192)).2
  = UploadHandler.UploadChunkHandler (Some chunk_0_of_3) (Some abc)
      (test_service_with_redis 8192).
Proof.
  apply (UploadChunkHandler_idempotent (test_service_with_redis 8192) empty_redis
           chunk_0_of_3 abc eq_refl eq_refl).
Defined.

Lemma FinishUploadHandler_initial_segment_witness :
  ∃ s2 r2,
    UploadHandler.FinishUploadHandler listed_fields (Some finish_u1)
      (recorded "u1" 3 [0] (test_service_with_redis 8192)) =
      (Ok (FinishOK 0 "a.txt" 9 (Some "h0h1h2")), s2) ∧
    FileService.redisClient s2 = Some r2 ∧
    redis.hashes r2 !! ("upload:" +:+ "u1" +:+ ":chunks") = None ∧
    FileService.blockStore s2 = LocalBlockStore.NewLocalBlockStore ∧
    FileService.fileRepo s2 = MockFileRepository.NewMockFileRepository ∧
    FileService.blockRepo s2 = MockBlockRepository.NewMockBlockRepository.
Proof.
  destruct (FinishUploadHandler_initial_segment (test_service_with_redis 8192) empty_redis
              listed_fields finish_u1 3 1 [0]) as (s2 & r2 & H1 & H2 & H3 & H4 & H5 & H6).
  - reflexivity.
  - reflexivity.
  - reflexivity.
  - intros m. reflexivity.
  - intros i. rewrite list_elem_of_singleton. lia.
  - unfold max_int. lia.
  - reflexivity.
  - exists s2, r2. split; [exact H1|]. split; [exact H2|]. split; [exact H3|].
    split; [exact H4|]. split; [exact H5|exact H6].
Defined.

Lemma gorm_Increment_then_Decrement_witness :
  ∃ db1, blockRepository.IncrementRefCount (sha256_hex abc) 1 one_row_table = (Ok (), db1) ∧
         blockRepository.DecrementBlockRefCount (sha256_hex abc) db1 = (Ok (), one_row_table).
Proof.
  destruct (gorm_Increment_then_Decrement one_row_table (sha256_hex abc)
              (Block.with_RefCount (Block.with_ID (NewBlock abc) 1%N) 1))
    as [(db1 & H1 & _ & H2) _].
  - vm_compute. reflexivity.
  - simpl. lia.
  - simpl. unfold max_int. lia.
  - exists db1. split; [exact H1|]. rewrite H2. vm_compute. reflexivity.
Defined.

Lemma ListOrphanBlocks_lists_unreferenced_witness :
  (∃ l, (MockBlockRepository.ListOrphanBlocks listed_entries
           (MockBlockRepository.SaveBlockMetadata (NewBlock abc)
              MockBlockRepository.NewMockBlockRepository).2).1 = Ok l ∧
        sha256_hex abc ∈ l) ∧
  (∃ l, blockRepository.ListOrphanBlocks listed_entries one_row_table = (Ok l, one_row_table) ∧
        sha256_hex abc ∉ l).
Proof.
  destruct (ListOrphanBlocks_lists_unreferenced listed_entries listed_entries
              (MockBlockRepository.SaveBlockMetadata (NewBlock abc)
                 MockBlockRepository.NewMockBlockRepository).2
              one_row_table "none")
    as ((l1 & Hl1 & _ & Hin1) & (l2 & Hl2 & _ & Hin2) & _).
  - intros m. reflexivity.
  - intros m. reflexivity.
  - intros d blk Hd. cbn in Hd. apply lookup_singleton_Some in Hd as [_ <-].
    cbn. unfold max_int. lia.
  - split.
    + exists l1. split; [by rewrite Hl1|]. apply Hin1. eexists. split; [reflexivity|].
      cbn. lia.
    + exists l2. split; [exact Hl2|]. rewrite Hin2. intros (blk & Hb & Hrc).
      unfold one_row_table in Hb. cbn [blockRepository.rows] in Hb.
      apply lookup_singleton_Some in Hb as [_ <-]. cbn in Hrc. lia.
Defined.


Lemma cache_wrappers_write_and_read_through_witness :
  (∃ rc', RedisBlockCache.Put abc empty_cache = (Ok (sha256_hex abc), rc') ∧
          RedisBlockCache.Get (sha256_hex abc) rc' = (Ok abc, rc')) ∧
  (∃ cc', cachedBlockStore.Put abc empty_cached_store = (Ok (sha256_hex abc), cc') ∧
          cachedBlockStore.Get (sha256_hex abc) cc' = (Ok abc, cc')).
Proof.
  destruct (cache_wrappers_write_and_read_through empty_cache empty_cached_store abc
              (sha256_hex abc)
              (LocalBlockStore.Put abc LocalBlockStore.NewLocalBlockStore).2
              eq_refl eq_refl) as (H1 & H2 & _).
  destruct (H1 eq_refl) as (rc' & Hp1 & _ & _ & Hg1).
  destruct (H2 eq_refl) as (cc' & Hp2 & _ & _ & Hg2).
  split; [exists rc'|exists cc']; split; assumption.
Defined.

Lemma UploadFile_makes_no_block_row_witness :
  dom (MockBlockRepository.blocks
         (FileService.blockRepo (uploads 3 "a.txt" abc (test_service 2)))) = ∅.
Proof.
  rewrite (UploadFile_makes_no_block_row 2 "a.txt" abc 3 (test_service 2)
             ltac:(unfold max_int; lia) ltac:(unfold len, max_int; simpl; lia)
             ltac:(discriminate) ltac:(reflexivity)).
  apply dom_empty_L.
Defined.

Lemma UploadFile_DownloadFile_older_row_witness :
  let F := File.with_ID (uploaded_file "a.txt" abc [[Byte.x61; Byte.x62]; [Byte.x63]]) 2%N in
  let s' := (FileService.UploadFile "a.txt" abc older_row_service).2 in
  FileService.UploadFile "a.txt" abc older_row_service = (Ok F, s') ∧
  FileService.DownloadFile (File.Hash F) s' = (Ok xyz, s').
Proof.
  cbv zeta.
  assert (FileService.UploadFile "a.txt" abc older_row_service =
          (Ok (File.with_ID (uploaded_file "a.txt" abc [[Byte.x61; Byte.x62]; [Byte.x63]]) 2%N),
           (FileService.UploadFile "a.txt" abc older_row_service).2)) as Hup.
  { vm_compute. reflexivity. }
  split; [exact Hup|].
  destruct (UploadFile_DownloadFile_older_row older_row_service _ "a.txt" abc _ 1%N xyz_file
              (map sha256_hex [[Byte.x78; Byte.x79]; [Byte.x7a]]) Hup) as (_ & _ & _ & Hd).
  - reflexivity.
  - reflexivity.
  - intros id f Hin _.
    change (({[ 1%N := xyz_file ]} : gmap N File.t) !! id = Some f) in Hin.
    apply lookup_singleton_Some in Hin as [<- _]. lia.
  - reflexivity.
  - reflexivity.
  - rewrite Hd. vm_compute. reflexivity.
Defined.

End MoreSamples.
